(** * A shallow embedding of the regex engine of [regex.cpp]

    The development follows the source file top to bottom: matcher
    predicates, the AST and its optimizer, the parser [buildAST], the NFA with
    its lowering [ASTtoNFA] and optimizer [NFA::optimize], and the two
    executors [NFA::simulate] and [NFA::powerset].  Theorems come last. *)

From Stdlib Require Import ZArith Lia Ascii String.
From stdpp Require Import base option list gmap relations.

Local Open Scope Z_scope.

(** ** Characters and string views *)

(** [char] is the signed 8-bit type of the target; a value is kept as the
    integer it denotes. *)
Definition char := Z.

Definition char_of_ascii (a : ascii) : char :=
  let n := Z.of_N (N_of_ascii a) in
  if n <? 128 then n else n - 256.

Fixpoint chars_of_string (s : string) : list char :=
  match s with
  | EmptyString => []
  | String a s' => char_of_ascii a :: chars_of_string s'
  end.

(** A character literal, written as a one-character string. *)
Definition ch (s : string) : char :=
  match s with
  | String a _ => char_of_ascii a
  | EmptyString => 0
  end.

(** [size_t] arithmetic wraps at 2^64. *)
Definition size_t_wrap (z : Z) : Z := z mod 2 ^ 64.

(** A [std::string_view] is the list of the characters it shows.  [str[0]] on
    an empty view reads the byte stored right after the view, [eos] (the
    terminator 0 when the view shows a whole [std::string]). *)
Definition view_front (eos : char) (str : list char) : char :=
  match str with
  | [] => eos
  | x :: _ => x
  end.

(** ** Failures *)

Inductive error :=
| syntax_error (message : string)
| unbalanced_brackets (message : string)
| out_of_range            (* thrown by [string_view::substr] *)
| assertion_failed        (* an [assert] that does not hold *)
| undefined_behaviour     (* null dereference or access outside a vector *)
| out_of_fuel.            (* the recursion bound of the model was reached *)

Inductive result (A : Type) :=
| Ok (a : A)
| Err (e : error).
Arguments Ok {A} a.
Arguments Err {A} e.

#[global] Instance result_ret : MRet result := λ A a, Ok a.
#[global] Instance result_bind : MBind result := λ A B k r,
  match r with
  | Ok a => k a
  | Err e => Err e
  end.

Definition assert (b : bool) : result unit :=
  if b then Ok tt else Err assertion_failed.

Definition deref {A} (o : option A) : result A :=
  match o with
  | Some a => Ok a
  | None => Err undefined_behaviour
  end.

(** ** Matchers *)

Inductive Matcher :=
| EpsilonMatcher
| CharacterMatcher (cmatch : char)
| UniversalMatcher
| CharacterClassMatcher (invert : bool) (intervals : list (char * char)).

(** [Matcher::length] and [Matcher::match] ([length_] and [match_] here, the
    plain names being taken). *)
Definition length_ (m : Matcher) : nat :=
  match m with
  | EpsilonMatcher => 0
  | _ => 1
  end.

(** [CharacterClassMatcher::_non_inverting_match]: the loop returns at the
    first interval that covers [str[0]]; with no interval nothing is read. *)
Definition _non_inverting_match (eos : char) (intervals : list (char * char))
    (str : list char) : bool :=
  existsb (fun interval =>
             (interval.1 <=? view_front eos str) && (view_front eos str <=? interval.2))
          intervals.

Definition match_ (eos : char) (m : Matcher) (str : list char) : bool :=
  match m with
  | EpsilonMatcher => true
  | CharacterMatcher cmatch =>
      match str with
      | [] => false
      | x :: _ => x =? cmatch
      end
  | UniversalMatcher =>
      match str with
      | [] => false
      | _ :: _ => true
      end
  | CharacterClassMatcher invert intervals =>
      xorb invert (_non_inverting_match eos intervals str)
  end.

(** The members of [CharacterClassMatcher] that work on its intervals. *)
Module CharClass.

Definition pair_lt (a b : char * char) : bool :=
  (a.1 <? b.1) || ((a.1 =? b.1) && (a.2 <? b.2)).

Fixpoint sort_insert (x : char * char) (l : list (char * char)) : list (char * char) :=
  match l with
  | [] => [x]
  | y :: l' => if pair_lt y x then y :: sort_insert x l' else x :: l
  end.

(** [std::sort] on pairs: the order is total, so the result is the sorted
    arrangement whatever the algorithm. *)
Definition sort (l : list (char * char)) : list (char * char) :=
  foldr sort_insert [] l.

(** The merge loop of [normalize]: [merged] is [intervals[0 .. mergedIndex)],
    [cur] is [intervals[mergedIndex]], the last argument is what the range-for
    has still to visit. *)
Fixpoint merge_loop (merged : list (char * char)) (cur : char * char)
    (rest : list (char * char)) : list (char * char) :=
  match rest with
  | [] => merged ++ [cur]
  | interval :: rest' =>
      if interval.1 <=? cur.2 + 1
      then merge_loop merged (cur.1, Z.max interval.2 cur.2) rest'
      else merge_loop (merged ++ [cur]) interval rest'
  end.

Definition normalize (intervals : list (char * char)) : list (char * char) :=
  match intervals with
  | [] => []
  | _ =>
      let ordered := map (fun interval => (Z.min interval.1 interval.2,
                                           Z.max interval.1 interval.2)) intervals in
      match sort ordered with
      | [] => []
      | first :: _ as sorted => merge_loop [] first sorted
      end
  end.

Definition empty (intervals : list (char * char)) : bool :=
  match intervals with
  | [] => true
  | _ => false
  end.

Definition singlec (invert : bool) (intervals : list (char * char)) : bool :=
  negb invert &&
  match intervals with
  | [interval] => interval.1 =? interval.2
  | _ => false
  end.

Definition character (intervals : list (char * char)) : char :=
  match intervals with
  | interval :: _ => interval.1
  | [] => 0
  end.

End CharClass.

(** ** The abstract syntax tree *)

Set Warnings "-register-all".

(** The four leaves are the matchers themselves.  [BracketNode] also inherits
    a [greedy] field, which nothing reads or writes. *)
Inductive ASTNode :=
| Leaf (m : Matcher)
| BracketNode (capture : bool) (child : ASTNode)
| KleeneStarNode (greedy : bool) (child : ASTNode)
| OneOrMoreNode (greedy : bool) (child : ASTNode)
| OneOrNoneNode (greedy : bool) (child : ASTNode)
| MultiplyNode (greedy : bool) (min max : Z) (unbounded : bool) (child : ASTNode)
| ConcatenationNode (childs : list ASTNode)
| DisjunctionNode (childs : list ASTNode).

Definition exact (min max : Z) (unbounded : bool) : bool :=
  negb unbounded && (min =? max).

Fixpoint accept_epsilon (n : ASTNode) : bool :=
  match n with
  | Leaf EpsilonMatcher => true
  | Leaf _ => false
  | BracketNode _ child => accept_epsilon child
  | KleeneStarNode _ _ => true
  | OneOrMoreNode _ child => accept_epsilon child
  | OneOrNoneNode _ _ => true
  | MultiplyNode _ min _ _ child => (min =? 0) || accept_epsilon child
  | ConcatenationNode childs => forallb accept_epsilon childs
  | DisjunctionNode childs => existsb accept_epsilon childs
  end.

Record AST := {
  root : ASTNode;
  anchorBegin : bool;
  anchorEnd : bool;
}.

(** Number of nodes; it bounds the rewrites of the quantifier collapse. *)
Fixpoint node_count (n : ASTNode) : nat :=
  match n with
  | Leaf _ => 1
  | BracketNode _ child | KleeneStarNode _ child | OneOrMoreNode _ child
  | OneOrNoneNode _ child | MultiplyNode _ _ _ _ child => S (node_count child)
  | ConcatenationNode childs | DisjunctionNode childs =>
      S (foldr (fun child acc => (node_count child + acc)%nat) 0%nat childs)
  end.

(** ** The AST optimizer *)

(** [_merge_node_down<T>]: the loop runs over the children from the last to
    the first and replaces, in place, a child of the node's own kind by that
    child's children. *)
Definition _merge_node_down_Concatenation (root : ASTNode) : ASTNode :=
  match root with
  | ConcatenationNode childs =>
      ConcatenationNode
        (foldr (fun child done =>
                  match child with
                  | ConcatenationNode arg => arg ++ done
                  | _ => child :: done
                  end) [] childs)
  | _ => root
  end.

Definition _merge_node_down_Disjunction (root : ASTNode) : ASTNode :=
  match root with
  | DisjunctionNode childs =>
      DisjunctionNode
        (foldr (fun child done =>
                  match child with
                  | DisjunctionNode arg => arg ++ done
                  | _ => child :: done
                  end) [] childs)
  | _ => root
  end.

Definition _merge_multiply (root : ASTNode) : ASTNode :=
  match root with
  | MultiplyNode greedy min max unbounded child =>
      (* an exact count of an exact count *)
      let '(min, max, child) :=
        match child with
        | MultiplyNode _ min2 max2 unbounded2 child2 =>
            if exact min max unbounded && exact min2 max2 unbounded2
            then (size_t_wrap (min * min2), size_t_wrap (min * min2), child2)
            else (min, max, child)
        | _ => (min, max, child)
        end in
      if unbounded && ((min =? 0) || (min =? 1)) then
        if min =? 0 then KleeneStarNode greedy child
        else OneOrMoreNode greedy child
      else if exact min max unbounded && (min =? 0) then
        Leaf EpsilonMatcher
      else MultiplyNode greedy min max unbounded child
  | _ => root
  end.

(** The three quantifier kinds [_merge_oneor_h] is instantiated with. *)
Inductive quantifier := KleeneStar | OneOrMore | OneOrNone.

Definition quantifier_eqb (a b : quantifier) : bool :=
  match a, b with
  | KleeneStar, KleeneStar | OneOrMore, OneOrMore | OneOrNone, OneOrNone => true
  | _, _ => false
  end.

(** [dynamic_cast<T*>] for a quantifier kind [T]: the greedy flag and the
    child when the node has that kind. *)
Definition as_quantifier (T : quantifier) (n : ASTNode) : option (bool * ASTNode) :=
  match T, n with
  | KleeneStar, KleeneStarNode greedy child => Some (greedy, child)
  | OneOrMore, OneOrMoreNode greedy child => Some (greedy, child)
  | OneOrNone, OneOrNoneNode greedy child => Some (greedy, child)
  | _, _ => None
  end.

Definition make_quantifier (T : quantifier) (greedy : bool) (child : ASTNode) : ASTNode :=
  match T with
  | KleeneStar => KleeneStarNode greedy child
  | OneOrMore => OneOrMoreNode greedy child
  | OneOrNone => OneOrNoneNode greedy child
  end.

(** The body of [_merge_oneor_hh<T1, T2>] up to the retry: the rewritten root
    when a merge is performed. *)
Definition merge_pair (T1 T2 : quantifier) (root : ASTNode) : option ASTNode :=
  match as_quantifier T1 root with
  | None => None
  | Some (greedy1, child1) =>
      match as_quantifier T2 child1 with
      | None => None
      | Some (greedy2, child2) =>
          if quantifier_eqb T1 T2 then
            Some (make_quantifier T1
                    (if quantifier_eqb T1 OneOrMore then greedy1 || greedy2
                     else greedy1 && greedy2) child2)
          else if quantifier_eqb T1 KleeneStar then
            Some (KleeneStarNode
                    (if quantifier_eqb T2 OneOrMore then greedy1
                     else greedy1 && greedy2) child2)
          else if quantifier_eqb T2 KleeneStar then
            (* the inner star becomes the root *)
            Some (KleeneStarNode
                    (if quantifier_eqb T1 OneOrMore then greedy2
                     else greedy1 && greedy2) child2)
          else
            let C1 := quantifier_eqb T1 OneOrNone && quantifier_eqb T2 OneOrMore in
            let C2 := quantifier_eqb T1 OneOrMore && quantifier_eqb T2 OneOrNone in
            if (C1 && (negb greedy1 || greedy2)) || (C2 && (greedy1 || negb greedy2))
            then Some (KleeneStarNode (greedy1 && greedy2) child2)
            else None
      end
  end.

(** The order in which the fold expressions of [_merge_oneor_h] instantiate
    [_merge_oneor_hh]: [T1] outermost, [T2] innermost, each over
    KleeneStar, OneOrMore, OneOrNone. *)
Definition quantifier_pairs : list (quantifier * quantifier) :=
  T1 ← [KleeneStar; OneOrMore; OneOrNone];
  T2 ← [KleeneStar; OneOrMore; OneOrNone];
  [(T1, T2)].

(** [_merge_oneor_hh<T1, T2>], with the call that retries on the merged root
    as [retry]. *)
Definition _merge_oneor_hh (retry : ASTNode → result ASTNode)
    (T : quantifier * quantifier) (root : ASTNode) : result ASTNode :=
  match merge_pair T.1 T.2 root with
  | None => Ok root
  | Some merged => retry merged
  end.

(** [_merge_oneor_h] and [_merge_oneor_hh] call each other; every merge
    removes a node, so [fuel] bounds the depth of the retries. *)
Fixpoint _merge_oneor_h (fuel : nat) (root : ASTNode) : result ASTNode :=
  let retry :=
    match fuel with
    | O => fun _ => Err out_of_fuel
    | S fuel' => _merge_oneor_h fuel'
    end in
  foldl (fun acc T => root ← acc; _merge_oneor_hh retry T root) (Ok root) quantifier_pairs.

Fixpoint optimizeAST (root : ASTNode) : result ASTNode :=
  let optimize_childs :=
    fix go (childs : list ASTNode) : result (list ASTNode) :=
      match childs with
      | [] => Ok []
      | child :: rest =>
          child ← optimizeAST child; rest ← go rest; Ok (child :: rest)
      end in
  root ←
    match root with
    | Leaf m => Ok root
    | BracketNode capture child => child ← optimizeAST child; Ok (BracketNode capture child)
    | KleeneStarNode greedy child => child ← optimizeAST child; Ok (KleeneStarNode greedy child)
    | OneOrMoreNode greedy child => child ← optimizeAST child; Ok (OneOrMoreNode greedy child)
    | OneOrNoneNode greedy child => child ← optimizeAST child; Ok (OneOrNoneNode greedy child)
    | MultiplyNode greedy min max unbounded child =>
        child ← optimizeAST child; Ok (MultiplyNode greedy min max unbounded child)
    | ConcatenationNode childs => childs ← optimize_childs childs; Ok (ConcatenationNode childs)
    | DisjunctionNode childs => childs ← optimize_childs childs; Ok (DisjunctionNode childs)
    end;
  let root := _merge_node_down_Concatenation root in
  let root := _merge_node_down_Disjunction root in
  let root := _merge_multiply root in
  _merge_oneor_h (node_count root) root.

(** ** The parser *)

(** The parser keeps a stack of pointers to the [unique_ptr] slots of the
    tree under construction.  A slot is named here by the child indices that
    lead to it from [ast.root] (index 0 for the child of a single-child node).
    Every push takes a child slot of the node held by the top slot and only
    the top slot is ever rewritten, so the slots below the top keep their
    place.  The [parent] field of a node is the node holding its slot. *)
Definition slot := list nat.

Definition child_slot (n : ASTNode) (k : nat) : option ASTNode :=
  match n with
  | Leaf _ => None
  | BracketNode _ child | KleeneStarNode _ child | OneOrMoreNode _ child
  | OneOrNoneNode _ child | MultiplyNode _ _ _ _ child =>
      match k with
      | O => Some child
      | S _ => None
      end
  | ConcatenationNode childs | DisjunctionNode childs => childs !! k
  end.

Definition set_child_slot (n : ASTNode) (k : nat) (x : ASTNode) : ASTNode :=
  match n with
  | Leaf _ => n
  | BracketNode capture _ => BracketNode capture x
  | KleeneStarNode greedy _ => KleeneStarNode greedy x
  | OneOrMoreNode greedy _ => OneOrMoreNode greedy x
  | OneOrNoneNode greedy _ => OneOrNoneNode greedy x
  | MultiplyNode greedy min max unbounded _ => MultiplyNode greedy min max unbounded x
  | ConcatenationNode childs => ConcatenationNode (<[k := x]> childs)
  | DisjunctionNode childs => DisjunctionNode (<[k := x]> childs)
  end.

Fixpoint get_slot (root : ASTNode) (p : slot) : option ASTNode :=
  match p with
  | [] => Some root
  | k :: p' => child ← child_slot root k; get_slot child p'
  end.

Fixpoint set_slot (root : ASTNode) (p : slot) (x : ASTNode) : option ASTNode :=
  match p with
  | [] => Some x
  | k :: p' =>
      child ← child_slot root k;
      child' ← set_slot child p' x;
      Some (set_child_slot root k child')
  end.

(** The node a slot's node has as [parent]; [None] is [nullptr]. *)
Definition parent (root : ASTNode) (p : slot) : option ASTNode :=
  match p with
  | [] => None
  | _ => get_slot root (removelast p)
  end.

Definition is_Bracket (n : ASTNode) : bool :=
  match n with BracketNode _ _ => true | _ => false end.
Definition is_Concatenation (n : ASTNode) : bool :=
  match n with ConcatenationNode _ => true | _ => false end.
Definition is_Disjunction (n : ASTNode) : bool :=
  match n with DisjunctionNode _ => true | _ => false end.
Definition is_Epsilon (n : ASTNode) : bool :=
  match n with Leaf EpsilonMatcher => true | _ => false end.

(** The local variables of [buildAST].  [objbuff] only ever holds a
    [CharacterClassMatcher] or [nullptr]. *)
Record parser := {
  ast_root : ASTNode;
  activenode : list slot;              (* top of the stack first *)
  balanced_brackets : Z;
  escaped : bool;
  multiply_environment : bool;
  multiply_environment_max : bool;
  multiply_environment_max_str : bool;
  character_class_environment : bool;
  character_class_environment_interval : bool;
  lazymodifier : bool;
  objbuff : option (bool * list (char * char));
}.

Definition set_ast_root v st := {|
  ast_root := v; activenode := activenode st;
  balanced_brackets := balanced_brackets st; escaped := escaped st;
  multiply_environment := multiply_environment st;
  multiply_environment_max := multiply_environment_max st;
  multiply_environment_max_str := multiply_environment_max_str st;
  character_class_environment := character_class_environment st;
  character_class_environment_interval := character_class_environment_interval st;
  lazymodifier := lazymodifier st; objbuff := objbuff st |}.
Definition set_activenode v st := {|
  ast_root := ast_root st; activenode := v;
  balanced_brackets := balanced_brackets st; escaped := escaped st;
  multiply_environment := multiply_environment st;
  multiply_environment_max := multiply_environment_max st;
  multiply_environment_max_str := multiply_environment_max_str st;
  character_class_environment := character_class_environment st;
  character_class_environment_interval := character_class_environment_interval st;
  lazymodifier := lazymodifier st; objbuff := objbuff st |}.
Definition set_balanced_brackets v st := {|
  ast_root := ast_root st; activenode := activenode st;
  balanced_brackets := v; escaped := escaped st;
  multiply_environment := multiply_environment st;
  multiply_environment_max := multiply_environment_max st;
  multiply_environment_max_str := multiply_environment_max_str st;
  character_class_environment := character_class_environment st;
  character_class_environment_interval := character_class_environment_interval st;
  lazymodifier := lazymodifier st; objbuff := objbuff st |}.
Definition set_escaped v st := {|
  ast_root := ast_root st; activenode := activenode st;
  balanced_brackets := balanced_brackets st; escaped := v;
  multiply_environment := multiply_environment st;
  multiply_environment_max := multiply_environment_max st;
  multiply_environment_max_str := multiply_environment_max_str st;
  character_class_environment := character_class_environment st;
  character_class_environment_interval := character_class_environment_interval st;
  lazymodifier := lazymodifier st; objbuff := objbuff st |}.
Definition set_multiply_environment v st := {|
  ast_root := ast_root st; activenode := activenode st;
  balanced_brackets := balanced_brackets st; escaped := escaped st;
  multiply_environment := v;
  multiply_environment_max := multiply_environment_max st;
  multiply_environment_max_str := multiply_environment_max_str st;
  character_class_environment := character_class_environment st;
  character_class_environment_interval := character_class_environment_interval st;
  lazymodifier := lazymodifier st; objbuff := objbuff st |}.
Definition set_multiply_environment_max v st := {|
  ast_root := ast_root st; activenode := activenode st;
  balanced_brackets := balanced_brackets st; escaped := escaped st;
  multiply_environment := multiply_environment st;
  multiply_environment_max := v;
  multiply_environment_max_str := multiply_environment_max_str st;
  character_class_environment := character_class_environment st;
  character_class_environment_interval := character_class_environment_interval st;
  lazymodifier := lazymodifier st; objbuff := objbuff st |}.
Definition set_multiply_environment_max_str v st := {|
  ast_root := ast_root st; activenode := activenode st;
  balanced_brackets := balanced_brackets st; escaped := escaped st;
  multiply_environment := multiply_environment st;
  multiply_environment_max := multiply_environment_max st;
  multiply_environment_max_str := v;
  character_class_environment := character_class_environment st;
  character_class_environment_interval := character_class_environment_interval st;
  lazymodifier := lazymodifier st; objbuff := objbuff st |}.
Definition set_character_class_environment v st := {|
  ast_root := ast_root st; activenode := activenode st;
  balanced_brackets := balanced_brackets st; escaped := escaped st;
  multiply_environment := multiply_environment st;
  multiply_environment_max := multiply_environment_max st;
  multiply_environment_max_str := multiply_environment_max_str st;
  character_class_environment := v;
  character_class_environment_interval := character_class_environment_interval st;
  lazymodifier := lazymodifier st; objbuff := objbuff st |}.
Definition set_character_class_environment_interval v st := {|
  ast_root := ast_root st; activenode := activenode st;
  balanced_brackets := balanced_brackets st; escaped := escaped st;
  multiply_environment := multiply_environment st;
  multiply_environment_max := multiply_environment_max st;
  multiply_environment_max_str := multiply_environment_max_str st;
  character_class_environment := character_class_environment st;
  character_class_environment_interval := v;
  lazymodifier := lazymodifier st; objbuff := objbuff st |}.
Definition set_lazymodifier v st := {|
  ast_root := ast_root st; activenode := activenode st;
  balanced_brackets := balanced_brackets st; escaped := escaped st;
  multiply_environment := multiply_environment st;
  multiply_environment_max := multiply_environment_max st;
  multiply_environment_max_str := multiply_environment_max_str st;
  character_class_environment := character_class_environment st;
  character_class_environment_interval := character_class_environment_interval st;
  lazymodifier := v; objbuff := objbuff st |}.
Definition set_objbuff v st := {|
  ast_root := ast_root st; activenode := activenode st;
  balanced_brackets := balanced_brackets st; escaped := escaped st;
  multiply_environment := multiply_environment st;
  multiply_environment_max := multiply_environment_max st;
  multiply_environment_max_str := multiply_environment_max_str st;
  character_class_environment := character_class_environment st;
  character_class_environment_interval := character_class_environment_interval st;
  lazymodifier := lazymodifier st; objbuff := v |}.

(** [*activenode.top()]: the top slot and the node in it. *)
Definition top (st : parser) : result slot := deref (head (activenode st)).

Definition top_node (st : parser) : result ASTNode :=
  p ← top st; deref (get_slot (ast_root st) p).

(** [*activenode.top() = std::move(x)]. *)
Definition set_top (x : ASTNode) (st : parser) : result parser :=
  p ← top st;
  root ← deref (set_slot (ast_root st) p x);
  Ok (set_ast_root root st).

Definition push (p : slot) (st : parser) : parser :=
  set_activenode (p :: activenode st) st.

Definition pop (st : parser) : parser :=
  set_activenode (tail (activenode st)) st.

(** What one turn of the loop over the pattern does after a step: [continue]
    or go on with the rest of the loop body. *)
Inductive flow :=
| Continue (st : parser)
| Next (st : parser).

(** The character-class environment, source lines 604-630. *)
Definition class_environment (c : char) (st : parser) : result flow :=
  if character_class_environment st then
    _ ← assert (negb (multiply_environment st) && negb (lazymodifier st));
    if (c =? ch "[") && negb (escaped st) then Err (syntax_error "syntax error")
    else if negb ((c =? ch "]") && negb (escaped st)) then
      '(invert, intervals) ← deref (objbuff st);
      st ←
        (if (c =? ch "^") && negb (escaped st) then
           Ok (set_objbuff (Some (true, intervals)) st)
         else if (c =? ch "-") && negb (escaped st) then
           match intervals with
           | _ :: _ => Ok (set_character_class_environment_interval true st)
           | [] => Err (syntax_error "syntax error")
           end
         else if character_class_environment_interval st then
           let last_interval := (List.length intervals - 1)%nat in
           interval ← deref (intervals !! last_interval);
           Ok (set_character_class_environment_interval false
                 (set_objbuff (Some (invert, <[last_interval := (interval.1, c)]> intervals)) st))
         else
           Ok (set_objbuff (Some (invert, intervals ++ [(c, c)])) st));
      Ok (Continue (set_escaped false st))
    else Ok (Next st)
  else Ok (Next st).

(** Entering and leaving a character class, source lines 632-643. *)
Definition class_brackets (c : char) (st : parser) : result flow :=
  if (c =? ch "[") && negb (escaped st) then
    Ok (Continue (set_lazymodifier false
                    (set_objbuff (Some (false, []))
                       (set_character_class_environment_interval false
                          (set_character_class_environment true st)))))
  else if (c =? ch "]") && negb (escaped st) then
    if negb (character_class_environment st) || character_class_environment_interval st
    then Err (syntax_error "syntax error")
    else Ok (Next (set_character_class_environment false st))
  else Ok (Next st).

(** The repetition environment, source lines 645-671. *)
Definition multiply_environment_step (c : char) (st : parser) : result flow :=
  if multiply_environment st then
    _ ← assert (negb (character_class_environment st) && negb (lazymodifier st));
    if escaped st then Err (syntax_error "syntax error")
    else if negb (c =? ch "}") then
      st ←
        (if c =? ch "," then
           if multiply_environment_max st then Err (syntax_error "syntax error")
           else Ok (set_multiply_environment_max true st)
         else if (ch "0" <=? c) && (c <=? ch "9") then
           currentnode ← top_node st;
           match currentnode with
           | MultiplyNode greedy min max unbounded child =>
               let digit := c - ch "0" in
               if multiply_environment_max st then
                 st ← set_top (MultiplyNode greedy min
                                 (size_t_wrap (size_t_wrap (max * 10) + digit))
                                 unbounded child) st;
                 Ok (set_multiply_environment_max_str true st)
               else
                 set_top (MultiplyNode greedy
                            (size_t_wrap (size_t_wrap (min * 10) + digit))
                            max unbounded child) st
           | _ => Err assertion_failed
           end
         else if negb (c =? ch " ") then Err (syntax_error "character not allowed")
         else Ok st);
      Ok (Continue st)
    else Ok (Next st)
  else Ok (Next st).

(** Entering and leaving a repetition, source lines 673-700. *)
Definition multiply_brackets (c : char) (st : parser) : result flow :=
  if (c =? ch "{") && negb (escaped st) then
    node ← top_node st;
    st ← set_top (MultiplyNode true 0 0 false node) st;
    Ok (Continue (set_lazymodifier false
                    (set_multiply_environment_max_str false
                       (set_multiply_environment_max false
                          (set_multiply_environment true st)))))
  else if (c =? ch "}") && negb (escaped st) then
    if negb (multiply_environment st) then Err (syntax_error "syntax error")
    else
      currentnode ← top_node st;
      match currentnode with
      | MultiplyNode greedy min max unbounded child =>
          st ←
            (if negb (multiply_environment_max st) then
               set_top (MultiplyNode greedy min min unbounded child) st
             else if multiply_environment_max_str st then
               if max <? min
               then Err (syntax_error "max repetitions less than min repetitions")
               else Ok st
             else set_top (MultiplyNode greedy min max true child) st);
          Ok (Continue (set_lazymodifier true
                          (set_multiply_environment false
                             (set_multiply_environment_max false st))))
      | _ => Err assertion_failed
      end
  else Ok (Next st).

(** The [do ... while] of a closing bracket, after its first [pop]: go on
    popping while the top node has a parent and is not a [BracketNode]. *)
Fixpoint close_pop (root : ASTNode) (stack : list slot) : result (list slot) :=
  match stack with
  | [] => Err undefined_behaviour
  | p :: below =>
      node ← deref (get_slot root p);
      if bool_decide (is_Some (parent root p)) && negb (is_Bracket node)
      then close_pop root below
      else Ok stack
  end.

(** The [while] of an alternation. *)
Fixpoint disjunction_pop (root : ASTNode) (stack : list slot) : result (list slot) :=
  match stack with
  | [] => Err undefined_behaviour
  | p :: below =>
      node ← deref (get_slot root p);
      match parent root p with
      | Some up =>
          if negb (is_Disjunction node) && negb (is_Bracket up)
          then disjunction_pop root below
          else Ok stack
      | None => Ok stack
      end
  end.

(** The lambda that builds the matcher to concatenate, source lines 776-797. *)
Definition currmatcher (c : char) (st : parser) : result (ASTNode * parser) :=
  if negb (escaped st) && ((c =? ch "(") || (c =? ch "<")) then
    Ok (BracketNode (c =? ch "<") (Leaf EpsilonMatcher),
        set_balanced_brackets (balanced_brackets st + 1) st)
  else if (c =? ch "]") && negb (escaped st) then
    match objbuff st with
    | None => Err assertion_failed
    | Some (invert, intervals) =>
        let intervals := CharClass.normalize intervals in
        if CharClass.empty intervals then Err (syntax_error "empty character class")
        else if CharClass.singlec invert intervals
        then Ok (Leaf (CharacterMatcher (CharClass.character intervals)),
                 set_objbuff (Some (invert, intervals)) st)
        else Ok (Leaf (CharacterClassMatcher invert intervals), set_objbuff None st)
    end
  else if (c =? ch ".") && negb (escaped st) then Ok (Leaf UniversalMatcher, st)
  else Ok (Leaf (CharacterMatcher c), st).

(** Setting [greedy = false] on the four kinds that have a lazy form. *)
Definition make_lazy (n : ASTNode) : ASTNode :=
  match n with
  | KleeneStarNode _ child => KleeneStarNode false child
  | OneOrMoreNode _ child => OneOrMoreNode false child
  | OneOrNoneNode _ child => OneOrNoneNode false child
  | MultiplyNode _ min max unbounded child => MultiplyNode false min max unbounded child
  | _ => n
  end.

(** The rest of the loop body, source lines 702-826. *)
Definition normal_environment (c : char) (st : parser) : result parser :=
  _ ← assert (negb (character_class_environment st) && negb (multiply_environment st));
  st ←
    (if negb (escaped st) && ((c =? ch ")") || (c =? ch ">")) then
       let st := set_balanced_brackets (balanced_brackets st - 1) st in
       if balanced_brackets st <? 0 then Err (unbalanced_brackets "unbalanced brackets")
       else
         _ ← assert (bool_decide (2 ≤ List.length (activenode st))%nat);
         stack ← close_pop (ast_root st) (tail (activenode st));
         let st := set_activenode stack st in
         bracket ← top_node st;
         match bracket with
         | BracketNode capture child =>
             if (capture && (c =? ch ")")) || (negb capture && (c =? ch ">"))
             then Err (unbalanced_brackets "unbalanced capturing/not capturing groups")
             else
               st ← (if negb capture then set_top child st else Ok st);
               Ok (set_lazymodifier false st)
         | _ => Err undefined_behaviour
         end
     else if (c =? ch "*") && negb (escaped st) then
       node ← top_node st;
       st ← set_top (KleeneStarNode true node) st;
       Ok (set_lazymodifier true st)
     else if (c =? ch "+") && negb (escaped st) then
       node ← top_node st;
       st ← set_top (OneOrMoreNode true node) st;
       Ok (set_lazymodifier true st)
     else if (c =? ch "?") && negb (escaped st) && negb (lazymodifier st) then
       node ← top_node st;
       st ← set_top (OneOrNoneNode true node) st;
       Ok (set_lazymodifier true st)
     else if (c =? ch "?") && lazymodifier st then
       _ ← assert (negb (escaped st));
       node ← top_node st;
       st ← set_top (make_lazy node) st;
       Ok (set_lazymodifier false st)
     else if (c =? ch "|") && negb (escaped st) then
       stack ← disjunction_pop (ast_root st) (activenode st);
       let st := set_activenode stack st in
       p ← top st;
       node ← top_node st;
       match node with
       | DisjunctionNode childs =>
           st ← set_top (DisjunctionNode (childs ++ [Leaf EpsilonMatcher])) st;
           Ok (set_lazymodifier false (push (p ++ [List.length childs]) st))
       | _ =>
           st ← set_top (DisjunctionNode [node; Leaf EpsilonMatcher]) st;
           Ok (set_lazymodifier false (push (p ++ [1%nat]) st))
       end
     else
       '(matcher, st) ← currmatcher c st;
       p ← top st;
       let st :=
         match parent (ast_root st) p with
         | Some (ConcatenationNode _) => pop st
         | _ => st
         end in
       p ← top st;
       node ← top_node st;
       st ←
         match node with
         | Leaf EpsilonMatcher => set_top matcher st
         | ConcatenationNode childs =>
             st ← set_top (ConcatenationNode (childs ++ [matcher])) st;
             Ok (push (p ++ [List.length childs]) st)
         | _ =>
             st ← set_top (ConcatenationNode [node; matcher]) st;
             Ok (push (p ++ [1%nat]) st)
         end;
       p ← top st;
       node ← top_node st;
       let st := if is_Bracket node then push (p ++ [0%nat]) st else st in
       Ok (set_lazymodifier false st));
  Ok (set_escaped false st).

(** One turn of the loop over the pattern. *)
Definition step (st : parser) (c : char) : result parser :=
  if (c =? ch "\") && negb (escaped st) then
    Ok (set_escaped true (set_lazymodifier false st))
  else
    f ← class_environment c st;
    match f with
    | Continue st => Ok st
    | Next st =>
        f ← class_brackets c st;
        match f with
        | Continue st => Ok st
        | Next st =>
            f ← multiply_environment_step c st;
            match f with
            | Continue st => Ok st
            | Next st =>
                f ← multiply_brackets c st;
                match f with
                | Continue st => Ok st
                | Next st => normal_environment c st
                end
            end
        end
    end.

Definition initial_parser : parser := {|
  ast_root := Leaf EpsilonMatcher;
  activenode := [[]];
  balanced_brackets := 0;
  escaped := false;
  multiply_environment := false;
  multiply_environment_max := false;
  multiply_environment_max_str := false;
  character_class_environment := false;
  character_class_environment_interval := false;
  lazymodifier := false;
  objbuff := None;
|}.

(** The lambda that reads the anchors off the two ends of the pattern. *)
Definition anchors (regex : list char) : bool * bool * list char :=
  match regex with
  | [] => (false, false, [])
  | first :: _ =>
      let anchorbegin := first =? ch "^" in
      let anchorend := default 0 (last regex) =? ch "$" in
      let regex := if anchorbegin then tail regex else regex in
      let regex := if anchorend then removelast regex else regex in
      (anchorbegin, anchorend, regex)
  end.

Definition parse_loop (regex : list char) (st : parser) : result parser :=
  foldl (fun acc c => st ← acc; step st c) (Ok st) regex.

Definition buildAST (regex : list char) (optimize : bool) : result AST :=
  let '(anchorbegin, anchorend, regex) := anchors regex in
  st ← parse_loop regex initial_parser;
  if negb (balanced_brackets st =? 0) then Err (unbalanced_brackets "unbalanced brackets")
  else if character_class_environment st
  then Err (syntax_error "character class environment not closed")
  else if multiply_environment st
  then Err (syntax_error "multiply environment not closed")
  else
    root ← (if optimize then optimizeAST (ast_root st) else Ok (ast_root st));
    Ok {| root := root; anchorBegin := anchorbegin; anchorEnd := anchorend |}.

(** ** Comparing trees *)

(** ** Comparing trees *)

(** [CharacterClassMatcher::operator==]. *)
Definition class_equal (invert : bool) (intervals : list (char * char))
    (invert' : bool) (intervals' : list (char * char)) : bool :=
  Bool.eqb invert invert' && bool_decide (intervals = intervals').

(** [EqualAST] on two nodes.  Its first test compares the [typeid] of two
    pointers of the same static type and never fails; the tests that follow
    pair the nodes by kind.  Two [BracketNode]s go straight to their
    children, and the [max] of two unbounded [MultiplyNode]s is not
    compared. *)
Fixpoint EqualAST (root1 root2 : ASTNode) {struct root1} : bool :=
  match root1, root2 with
  | Leaf (CharacterMatcher cmatch1), Leaf (CharacterMatcher cmatch2) => cmatch1 =? cmatch2
  | Leaf (CharacterClassMatcher invert1 intervals1),
    Leaf (CharacterClassMatcher invert2 intervals2) =>
      class_equal invert1 intervals1 invert2 intervals2
  | Leaf UniversalMatcher, Leaf UniversalMatcher => true
  | Leaf EpsilonMatcher, Leaf EpsilonMatcher => true
  | KleeneStarNode greedy1 child1, KleeneStarNode greedy2 child2
  | OneOrMoreNode greedy1 child1, OneOrMoreNode greedy2 child2
  | OneOrNoneNode greedy1 child1, OneOrNoneNode greedy2 child2 =>
      if negb (Bool.eqb greedy1 greedy2) then false else EqualAST child1 child2
  | MultiplyNode greedy1 min1 max1 unbounded1 child1,
    MultiplyNode greedy2 min2 max2 unbounded2 child2 =>
      if negb (Bool.eqb greedy1 greedy2) || negb (min1 =? min2)
         || negb (Bool.eqb unbounded1 unbounded2)
         || (negb unbounded1 && negb (max1 =? max2))
      then false
      else EqualAST child1 child2
  | BracketNode _ child1, BracketNode _ child2 => EqualAST child1 child2
  | ConcatenationNode childs1, ConcatenationNode childs2
  | DisjunctionNode childs1, DisjunctionNode childs2 =>
      if negb (Nat.eqb (List.length childs1) (List.length childs2)) then false
      else
        (fix loop (childs1 childs2 : list ASTNode) : bool :=
           match childs1, childs2 with
           | child1 :: childs1, child2 :: childs2 =>
               if negb (EqualAST child1 child2) then false else loop childs1 childs2
           | _, _ => true
           end) childs1 childs2
  | _, _ => false
  end.

(** [EqualAST] on two [AST]s. *)
Definition EqualAST_ast (ast1 ast2 : AST) : bool :=
  Bool.eqb (anchorBegin ast1) (anchorBegin ast2)
  && Bool.eqb (anchorEnd ast1) (anchorEnd ast2)
  && EqualAST (root ast1) (root ast2).

(** ** The NFA *)

(** A [std::set<size_t>] is kept as the increasing list of its elements. *)
Fixpoint set_emplace (x : nat) (l : list nat) : list nat :=
  match l with
  | [] => [x]
  | y :: l' =>
      if (x <? y)%nat then x :: l
      else if (x =? y)%nat then l
      else y :: set_emplace x l'
  end.

Fixpoint set_find (x : nat) (l : list nat) : bool :=
  match l with
  | [] => false
  | y :: l' => (x =? y)%nat || set_find x l'
  end.

(** [transition_info_t]: the groups a transition opens and the groups it
    closes. *)
Definition transition_info_t := (list nat * list nat)%type.
Definition begingroups (info : transition_info_t) : list nat := info.1.
Definition endgroups (info : transition_info_t) : list nat := info.2.

(** A transition is a tuple of a pointer to one of the NFA's matchers (its
    index in [matchers]; every transition added gets a matcher of its own), a
    state index and a shared pointer to the annotation ([None] is [nullptr]).
    The annotation is created together with the matcher, so two tuples with
    the same matcher point to the same annotation. *)
Definition transition_t := (nat * nat * option transition_info_t)%type.
Definition rtransition_t := (nat * nat * option transition_info_t)%type.

Record NFAState := {
  initialState : bool;
  finalState : bool;
  transitions : list transition_t;
  rtransitions : gset rtransition_t;
}.

Record NFA := {
  states : list NFAState;
  matchers : list Matcher;
  nGroups : nat;
}.

Definition set_transitions (v : list transition_t) (s : NFAState) : NFAState :=
  {| initialState := initialState s; finalState := finalState s;
     transitions := v; rtransitions := rtransitions s |}.
Definition set_rtransitions (v : gset rtransition_t) (s : NFAState) : NFAState :=
  {| initialState := initialState s; finalState := finalState s;
     transitions := transitions s; rtransitions := v |}.
Definition set_states (v : list NFAState) (nfa : NFA) : NFA :=
  {| states := v; matchers := matchers nfa; nGroups := nGroups nfa |}.

Definition newState (nfa : NFA) : nat * NFA :=
  (List.length (states nfa),
   set_states (states nfa ++ [{| initialState := false; finalState := false;
                                 transitions := []; rtransitions := ∅ |}]) nfa).

Definition newGroup (nfa : NFA) : nat * NFA :=
  (nGroups nfa,
   {| states := states nfa; matchers := matchers nfa; nGroups := S (nGroups nfa) |}).

(** The assertions [NFA::check] makes on an annotation. *)
Definition check_info (nfa : NFA) (info : option transition_info_t) : bool :=
  match info with
  | None => true
  | Some info =>
      forallb (fun begingroup => (begingroup <? nGroups nfa)%nat) (begingroups info)
      && forallb (fun endgroup => (endgroup <? nGroups nfa)%nat) (endgroups info)
      && (negb (Nat.eqb (List.length (begingroups info)) 0)
          || negb (Nat.eqb (List.length (endgroups info)) 0))
  end.

(** [NFA::check]: [true] when every assertion holds. *)
Definition check (nfa : NFA) : bool :=
  forallb (fun '(id, state) =>
    forallb (fun '(matcher, endState, info) =>
               (endState <? List.length (states nfa))%nat
               && (matcher <? List.length (matchers nfa))%nat
               && match states nfa !! endState with
                  | Some estate => bool_decide ((matcher, id, info) ∈ rtransitions estate)
                  | None => false
                  end
               && check_info nfa info)
            (transitions state)
    && forallb (fun '(matcher, startState, info) =>
                  (startState <? List.length (states nfa))%nat
                  && (matcher <? List.length (matchers nfa))%nat
                  && match states nfa !! startState with
                     | Some sstate =>
                         Nat.eqb (List.length
                                    (filter (λ t, t = (matcher, id, info)) (transitions sstate))) 1
                     | None => false
                     end
                  && check_info nfa info)
               (elements (rtransitions state)))
    (imap (fun id state => (id, state)) (states nfa)).

(** The annotation [addTransition] allocates: none when both sets are
    empty. *)
Definition make_info (opengroups closegroups : list nat) : option transition_info_t :=
  let useinfo := negb (Nat.eqb (List.length opengroups) 0)
                 || negb (Nat.eqb (List.length closegroups) 0) in
  if useinfo then Some (opengroups, closegroups) else None.

Definition addTransition (matcher : Matcher) (fromState toState : nat)
    (opengroups closegroups : list nat) (nfa : NFA) : result NFA :=
  let info := make_info opengroups closegroups in
  let tmatcher := List.length (matchers nfa) in
  let nfa := {| states := states nfa; matchers := matchers nfa ++ [matcher];
                nGroups := nGroups nfa |} in
  from ← deref (states nfa !! fromState);
  let nfa := set_states (<[fromState :=
               set_transitions (transitions from ++ [(tmatcher, toState, info)]) from]>
               (states nfa)) nfa in
  to ← deref (states nfa !! toState);
  let nfa := set_states (<[toState :=
               set_rtransitions ({[(tmatcher, fromState, info)]} ∪ rtransitions to) to]>
               (states nfa)) nfa in
  _ ← assert (check nfa);
  Ok nfa.

(** ** Lowering the AST to an NFA *)

Section lowering.
(** [lower] stands for [_ASTtoNFA] on the child of a [MultiplyNode]. *)
Variable lower : nat → nat → list nat → list nat → NFA → result NFA.

(** [count] turns of the loop that chains copies of the child, source
    lines 1101-1106. *)
Fixpoint multiply_chain (count : nat) (i : Z) (newbegin : nat)
    (opengroups : list nat) (nfa : NFA) : result (Z * nat * NFA) :=
  match count with
  | O => Ok (i, newbegin, nfa)
  | S count =>
      let '(newend, nfa) := newState nfa in
      let newogroups := if i =? 0 then opengroups else [] in
      nfa ← lower newbegin newend newogroups [] nfa;
      multiply_chain count (i + 1) newend opengroups nfa
  end.

(** [count] turns of the loop of the bounded case, source lines 1152-1165. *)
Fixpoint multiply_bounded (count : nat) (i : Z) (newbegin : nat) (greedy : bool)
    (min : Z) (end_ : nat) (opengroups closegroups : list nat) (nfa : NFA)
    : result (Z * nat * NFA) :=
  match count with
  | O => Ok (i, newbegin, nfa)
  | S count =>
      let '(newend, nfa) := newState nfa in
      let newogroups := if i =? 0 then opengroups else [] in
      nfa ←
        (if greedy then
           nfa ← lower newbegin newend newogroups [] nfa;
           if min <=? i
           then addTransition EpsilonMatcher newbegin end_ newogroups closegroups nfa
           else Ok nfa
         else
           nfa ← (if min <=? i
                  then addTransition EpsilonMatcher newbegin end_ newogroups closegroups nfa
                  else Ok nfa);
           lower newbegin newend newogroups [] nfa);
      multiply_bounded count (i + 1) newend greedy min end_ opengroups closegroups nfa
  end.
End lowering.

(** The loop over the children of a [ConcatenationNode], source lines
    1036-1042; [lower] stands for [_ASTtoNFA] and [i] counts the children
    done. *)
Fixpoint concatenation_loop
    (lower : ASTNode → nat → nat → list nat → list nat → NFA → result NFA)
    (end_ : nat) (opengroups closegroups : list nat)
    (childs : list ASTNode) (i : nat) (newbegin : nat) (nfa : NFA) : result NFA :=
  match childs with
  | [] => Ok nfa
  | child :: rest =>
      let '(newend, nfa) :=
        match rest with
        | _ :: _ => newState nfa
        | [] => (end_, nfa)
        end in
      let newogroups := if Nat.eqb i 0 then opengroups else [] in
      let newcgroups := match rest with [] => closegroups | _ => [] end in
      nfa ← lower child newbegin newend newogroups newcgroups nfa;
      concatenation_loop lower end_ opengroups closegroups rest (S i) newend nfa
  end.

(** The loop over the children of a [DisjunctionNode]. *)
Fixpoint disjunction_loop
    (lower : ASTNode → nat → nat → list nat → list nat → NFA → result NFA)
    (begin end_ : nat) (opengroups closegroups : list nat)
    (childs : list ASTNode) (nfa : NFA) : result NFA :=
  match childs with
  | [] => Ok nfa
  | child :: rest =>
      nfa ← lower child begin end_ opengroups closegroups nfa;
      disjunction_loop lower begin end_ opengroups closegroups rest nfa
  end.

Fixpoint _ASTtoNFA (root : ASTNode) (begin end_ : nat)
    (opengroups closegroups : list nat) (nfa : NFA) {struct root} : result NFA :=
  match root with
  | Leaf chr => addTransition chr begin end_ opengroups closegroups nfa
  | ConcatenationNode childs =>
      concatenation_loop _ASTtoNFA end_ opengroups closegroups childs 0 begin nfa
  | DisjunctionNode childs =>
      disjunction_loop _ASTtoNFA begin end_ opengroups closegroups childs nfa
  | KleeneStarNode greedy child =>
      if accept_epsilon child then
        let '(before, nfa) := newState nfa in
        let '(after, nfa) := newState nfa in
        nfa ←
          (if greedy then
             nfa ← addTransition EpsilonMatcher begin before opengroups [] nfa;
             addTransition EpsilonMatcher begin end_ opengroups closegroups nfa
           else
             nfa ← addTransition EpsilonMatcher begin end_ opengroups closegroups nfa;
             addTransition EpsilonMatcher begin before opengroups [] nfa);
        nfa ← _ASTtoNFA child before after [] [] nfa;
        if greedy then
          nfa ← addTransition EpsilonMatcher after before [] [] nfa;
          addTransition EpsilonMatcher after end_ [] closegroups nfa
        else
          nfa ← addTransition EpsilonMatcher after end_ [] closegroups nfa;
          addTransition EpsilonMatcher after before [] [] nfa
      else
        let '(mid, nfa) := newState nfa in
        nfa ← addTransition EpsilonMatcher begin mid opengroups [] nfa;
        if greedy then
          nfa ← _ASTtoNFA child mid mid [] [] nfa;
          addTransition EpsilonMatcher mid end_ [] closegroups nfa
        else
          nfa ← addTransition EpsilonMatcher mid end_ [] closegroups nfa;
          _ASTtoNFA child mid mid [] [] nfa
  | OneOrMoreNode greedy child =>
      let '(before, nfa) := newState nfa in
      let '(after, nfa) := newState nfa in
      nfa ← addTransition EpsilonMatcher begin before opengroups [] nfa;
      nfa ← _ASTtoNFA child before after [] [] nfa;
      if greedy then
        nfa ← addTransition EpsilonMatcher after before [] [] nfa;
        addTransition EpsilonMatcher after end_ [] closegroups nfa
      else
        nfa ← addTransition EpsilonMatcher after end_ [] closegroups nfa;
        addTransition EpsilonMatcher after before [] [] nfa
  | OneOrNoneNode greedy child =>
      if greedy then
        nfa ← _ASTtoNFA child begin end_ opengroups closegroups nfa;
        addTransition EpsilonMatcher begin end_ opengroups closegroups nfa
      else
        nfa ← addTransition EpsilonMatcher begin end_ opengroups closegroups nfa;
        _ASTtoNFA child begin end_ opengroups closegroups nfa
  | MultiplyNode greedy min max unbounded child =>
      '(i, newbegin, nfa) ←
        (if negb (min =? 0)
         then multiply_chain (_ASTtoNFA child) (Z.to_nat (min - 1)) 0 begin opengroups nfa
         else Ok (0, begin, nfa));
      if exact min max unbounded then
        if negb (min =? 0) then
          let newogroups := if i =? 0 then opengroups else [] in
          _ASTtoNFA child newbegin end_ newogroups closegroups nfa
        else addTransition EpsilonMatcher begin end_ opengroups closegroups nfa
      else if unbounded then
        if min =? 0 then
          let '(mid, nfa) := newState nfa in
          nfa ← addTransition EpsilonMatcher begin mid opengroups [] nfa;
          if greedy then
            nfa ← _ASTtoNFA child mid mid [] [] nfa;
            addTransition EpsilonMatcher mid end_ [] closegroups nfa
          else
            nfa ← addTransition EpsilonMatcher mid end_ [] closegroups nfa;
            _ASTtoNFA child mid mid [] [] nfa
        else if min =? 1 then
          let '(before, nfa) := newState nfa in
          let '(after, nfa) := newState nfa in
          nfa ← addTransition EpsilonMatcher begin before opengroups [] nfa;
          nfa ← _ASTtoNFA child before after [] [] nfa;
          if greedy then
            nfa ← addTransition EpsilonMatcher after before [] [] nfa;
            addTransition EpsilonMatcher after end_ [] closegroups nfa
          else
            nfa ← addTransition EpsilonMatcher after end_ [] closegroups nfa;
            addTransition EpsilonMatcher after before [] [] nfa
        else
          let '(newend, nfa) := newState nfa in
          _ ← assert (negb (i =? 0));
          nfa ← _ASTtoNFA child newbegin newend [] [] nfa;
          if greedy then
            nfa ← addTransition EpsilonMatcher newend newbegin [] [] nfa;
            addTransition EpsilonMatcher newend end_ [] closegroups nfa
          else
            nfa ← addTransition EpsilonMatcher newend end_ [] closegroups nfa;
            addTransition EpsilonMatcher newend newbegin [] [] nfa
      else
        '(i, newbegin, nfa) ←
          multiply_bounded (_ASTtoNFA child) (Z.to_nat (size_t_wrap (max - 1) - i)) i
            newbegin greedy min end_ opengroups closegroups nfa;
        let newogroups := if i =? 0 then opengroups else [] in
        if greedy then
          nfa ← _ASTtoNFA child newbegin end_ newogroups closegroups nfa;
          addTransition EpsilonMatcher newbegin end_ newogroups closegroups nfa
        else
          nfa ← addTransition EpsilonMatcher newbegin end_ newogroups closegroups nfa;
          _ASTtoNFA child newbegin end_ newogroups closegroups nfa
  | BracketNode capture child =>
      if capture then
        let '(newGroupid, nfa) := newGroup nfa in
        _ASTtoNFA child begin end_ (set_emplace newGroupid opengroups)
          (set_emplace newGroupid closegroups) nfa
      else _ASTtoNFA child begin end_ opengroups closegroups nfa
  end.

(** ** The NFA optimizer *)

Definition is_EpsilonMatcher (m : Matcher) : bool :=
  match m with EpsilonMatcher => true | _ => false end.

(** The lambda [remove_node] of [NFA::optimize]: state [i] is erased, what
    pointed to it is sent to [j], and the indices above [i] move down. *)
Definition remove_node (i j : nat) (nfa : NFA) : result NFA :=
  let states := delete i (states nfa) in
  let unique := Nat.eqb i j in
  let j := if (i <? j)%nat then (j - 1)%nat else j in
  _ ← assert (negb unique ||
              forallb (fun node =>
                         forallb (fun '(_, toState, _) => negb (Nat.eqb toState i))
                                 (transitions node)
                         && forallb (fun '(_, fromState, _) => negb (Nat.eqb fromState i))
                                    (elements (rtransitions node)))
                      states);
  Ok (set_states
        (map (fun node =>
                set_rtransitions
                  (list_to_set
                     (map (fun '(matcher, fromState, info) =>
                             if (i <? fromState)%nat then (matcher, (fromState - 1)%nat, info)
                             else if (fromState <? i)%nat then (matcher, fromState, info)
                             else (matcher, j, info))
                          (elements (rtransitions node))))
                  (set_transitions
                     (map (fun '(matcher, toState, info) =>
                             if (i <? toState)%nat then (matcher, (toState - 1)%nat, info)
                             else if Nat.eqb toState i then (matcher, j, info)
                             else (matcher, toState, info))
                          (transitions node))
                     node))
             states)
        nfa).

(** The position of the first element equal to [x] ([std::find]). *)
Fixpoint find_index (x : transition_t) (l : list transition_t) : option nat :=
  match l with
  | [] => None
  | y :: l' => if bool_decide (y = x) then Some 0%nat else S <$> find_index x l'
  end.

(** The body of the first loop of [NFA::optimize] for state [i]. *)
Definition merge_into_predecessor (i : nat) (nfa : NFA) : result NFA :=
  state ← deref (states nfa !! i);
  match elements (rtransitions state) with
  | [] => if negb (initialState state) then remove_node i i nfa else Ok nfa
  | [(matcher, j, info)] =>
      if negb (initialState state) then
        m ← deref (matchers nfa !! matcher);
        if is_EpsilonMatcher m && bool_decide (info = None) then
          pred ← deref (states nfa !! j);
          let trans := transitions pred in
          match find_index (matcher, i, info) trans with
          | None => Err assertion_failed
          | Some insert_index =>
              (* inserting a vector's own range into it is undefined *)
              if Nat.eqb i j then Err undefined_behaviour
              else
                let trans := take insert_index trans ++ transitions state
                             ++ drop (S insert_index) trans in
                remove_node i j
                  (set_states (<[j := set_transitions trans pred]> (states nfa)) nfa)
          end
        else Ok nfa
      else Ok nfa
  | _ => Ok nfa
  end.

(** The body of the second loop for state [i]. *)
Definition merge_into_successor (i : nat) (nfa : NFA) : result NFA :=
  state ← deref (states nfa !! i);
  match transitions state with
  | [] => if negb (finalState state) then remove_node i i nfa else Ok nfa
  | [(matcher, j, info)] =>
      if negb (finalState state) then
        m ← deref (matchers nfa !! matcher);
        if is_EpsilonMatcher m && bool_decide (info = None) then
          succ ← deref (states nfa !! j);
          _ ← assert (bool_decide ((matcher, i, info) ∈ rtransitions succ));
          (* inserting a set's own range into it is undefined *)
          if Nat.eqb i j then Err undefined_behaviour
          else
            let rtrans := (rtransitions succ ∖ {[(matcher, i, info)]})
                          ∪ rtransitions state in
            remove_node i j
              (set_states (<[j := set_rtransitions rtrans succ]> (states nfa)) nfa)
        else Ok nfa
      else Ok nfa
  | _ => Ok nfa
  end.

(** [for (size_t i = n; i-- > 0;) body(i)]. *)
Fixpoint downward (body : nat → NFA → result NFA) (n : nat) (nfa : NFA) : result NFA :=
  match n with
  | O => Ok nfa
  | S i => nfa ← body i nfa; downward body i nfa
  end.

(** [NFA::optimize]; the count of removed states it returns is not used. *)
Definition optimize (nfa : NFA) : result NFA :=
  nfa ← downward merge_into_predecessor (List.length (states nfa)) nfa;
  downward merge_into_successor (List.length (states nfa)) nfa.

Definition set_initialState (i : nat) (nfa : NFA) : NFA :=
  set_states (alter (fun s => {| initialState := true; finalState := finalState s;
                                 transitions := transitions s;
                                 rtransitions := rtransitions s |}) i (states nfa)) nfa.
Definition set_finalState (i : nat) (nfa : NFA) : NFA :=
  set_states (alter (fun s => {| initialState := initialState s; finalState := true;
                                 transitions := transitions s;
                                 rtransitions := rtransitions s |}) i (states nfa)) nfa.

Definition ASTtoNFA (ast : AST) (optimize_ : bool) : result NFA :=
  let nfa := {| states := []; matchers := []; nGroups := 1 |} in
  let '(begin, nfa) := newState nfa in
  let '(end_, nfa) := newState nfa in
  let nfa := set_finalState end_ (set_initialState begin nfa) in
  nfa ← _ASTtoNFA (root ast) begin end_ [0%nat] [0%nat] nfa;
  nfa ← (if negb (anchorBegin ast)
         then addTransition UniversalMatcher begin begin [] [] nfa else Ok nfa);
  nfa ← (if negb (anchorEnd ast)
         then addTransition UniversalMatcher end_ end_ [] [] nfa else Ok nfa);
  nfa ← (if optimize_ then optimize nfa else Ok nfa);
  _ ← assert (check nfa);
  Ok nfa.

(** The constructor [NFA(regex, optimize)]. *)
Definition compile (regex : list char) (optimize_ : bool) : result NFA :=
  ast ← buildAST regex optimize_;
  ASTtoNFA ast optimize_.

(** ** The backtracking executor *)

(** A captured [std::string_view]: where its data starts, as an offset into
    the input ([None] is the [nullptr] of a default-constructed view), and
    its size. *)
Definition capture := (option nat * Z)%type.

Section simulate.
Variable nfa : NFA.
Variable eos : char.
Variable str : list char.

(** The two variables the lambda captures by reference. *)
Definition search := (gset (nat * nat) * list capture)%type.

(** The groups a transition opens, at offset [offset]. *)
Fixpoint open_groups (offset : nat) (groups : list nat) (captures : list capture)
    : result (list capture) :=
  match groups with
  | [] => Ok captures
  | begingroup :: groups =>
      _ ← deref (captures !! begingroup);
      open_groups offset groups (<[begingroup := (Some offset, 0)]> captures)
  end.

(** The groups a transition closes, [stop] being the offset behind what the
    matcher consumes. *)
Fixpoint close_groups (stop : nat) (groups : list nat) (captures : list capture)
    : result (list capture) :=
  match groups with
  | [] => Ok captures
  | endgroup :: groups =>
      '(data, _) ← deref (captures !! endgroup);
      data ← deref data;
      close_groups stop groups
        (<[endgroup := (Some data, size_t_wrap (Z.of_nat stop - Z.of_nat data))]> captures)
  end.

(** The [for] loop of the lambda [exploreTransitions] over the transitions of
    the current state; [explore] is the recursive call and [offset] is where
    [remainingStr] starts in [str]. *)
Fixpoint explore_loop (explore : nat → nat → search → result (bool * search))
    (offset : nat) (trans : list transition_t) (s : search) : result (bool * search) :=
  let remainingStr := drop offset str in
  match trans with
  | [] => Ok (false, s)
  | (matcher, nextState, info) :: trans =>
      m ← deref (matchers nfa !! matcher);
      if match_ eos m remainingStr then
        let temp_captures := s.2 in
        captures ←
          match info with
          | None => Ok s.2
          | Some info =>
              captures ← open_groups offset (begingroups info) s.2;
              close_groups (offset + length_ m) (endgroups info) captures
          end;
        if (List.length remainingStr <? length_ m)%nat then Err out_of_range
        else
          match explore nextState (offset + length_ m)%nat (s.1, captures) with
          | Err e => Err e
          | Ok (true, s) => Ok (true, s)
          | Ok (false, s) =>
              explore_loop explore offset trans
                (s.1, match info with
                      | None => s.2
                      | Some _ => temp_captures
                      end)
          end
      else explore_loop explore offset trans s
  end.

(** The lambda [exploreTransitions].  A call that gets past the visited test
    records a new pair, which bounds the depth of the recursion. *)
Fixpoint exploreTransitions (fuel : nat) (currentState offset : nat) (s : search)
    : result (bool * search) :=
  match fuel with
  | O => Err out_of_fuel
  | S fuel =>
      state ← deref (states nfa !! currentState);
      if bool_decide (drop offset str = []) && finalState state then Ok (true, s)
      else
        let currentStatePosition := (currentState, offset) in
        if bool_decide (currentStatePosition ∈ s.1) then Ok (false, s)
        else explore_loop (exploreTransitions fuel) offset (transitions state)
               ({[currentStatePosition]} ∪ s.1, s.2)
  end.

Definition simulate_fuel : nat :=
  S (List.length (states nfa) * S (List.length str)).

(** The loop of [NFA::simulate] over the states. *)
Fixpoint simulate_loop (l : list (nat * NFAState)) (s : search) : result (list capture) :=
  match l with
  | [] => Ok []
  | (stateId, state) :: l =>
      if initialState state then
        match exploreTransitions simulate_fuel stateId 0 s with
        | Err e => Err e
        | Ok (true, s) => Ok s.2
        | Ok (false, s) => simulate_loop l s
        end
      else simulate_loop l s
  end.

(** [NFA::simulate]; the empty vector says that there is no match. *)
Definition simulate : result (list capture) :=
  simulate_loop (imap (fun stateId state => (stateId, state)) (states nfa))
    (∅, replicate (nGroups nfa) (None, 0)).
End simulate.

(** ** The subset-construction executor *)

Section powerset.
Variable nfa : NFA.

(** The transitions of the popped state in the lambda [epsilonClosure]. *)
Fixpoint closure_transitions (trans : list transition_t) (stateStack inputStates : list nat)
    : result (list nat * list nat) :=
  match trans with
  | [] => Ok (stateStack, inputStates)
  | (matcher, nextState, _) :: trans =>
      m ← deref (matchers nfa !! matcher);
      if is_EpsilonMatcher m && negb (set_find nextState inputStates)
      then closure_transitions trans (nextState :: stateStack)
             (set_emplace nextState inputStates)
      else closure_transitions trans stateStack inputStates
  end.

(** The [while] loop of [epsilonClosure]; the top of the stack is the head
    of the list.  A state is pushed when it enters the set, so the loop
    turns at most once for each state the set gets. *)
Fixpoint closure_loop (fuel : nat) (stateStack inputStates : list nat)
    : result (list nat) :=
  match stateStack with
  | [] => Ok inputStates
  | currentState :: stateStack =>
      match fuel with
      | O => Err out_of_fuel
      | S fuel =>
          state ← deref (states nfa !! currentState);
          '(stateStack, inputStates) ←
            closure_transitions (transitions state) stateStack inputStates;
          closure_loop fuel stateStack inputStates
      end
  end.

Definition epsilonClosure (inputStates : list nat) : result (list nat) :=
  closure_loop (List.length inputStates + List.length (states nfa))
    (rev inputStates) inputStates.

(** The states reached from [currentStates] by consuming [c].  The matcher
    is given the view [std::string_view(&c, 1)], which is not empty, so the
    byte behind it is never read. *)
Fixpoint advance_transitions (c : char) (trans : list transition_t) (newStates : list nat)
    : result (list nat) :=
  match trans with
  | [] => Ok newStates
  | (matcher, nextState, _) :: trans =>
      m ← deref (matchers nfa !! matcher);
      _ ← assert (length_ m <=? 1)%nat;
      if Nat.eqb (length_ m) 1 && match_ 0 m [c]
      then advance_transitions c trans (set_emplace nextState newStates)
      else advance_transitions c trans newStates
  end.

Fixpoint advance (c : char) (currentStates newStates : list nat) : result (list nat) :=
  match currentStates with
  | [] => Ok newStates
  | state :: currentStates =>
      st ← deref (states nfa !! state);
      newStates ← advance_transitions c (transitions st) newStates;
      advance c currentStates newStates
  end.

Fixpoint consume (str : list char) (currentStates : list nat) : result (list nat) :=
  match str with
  | [] => Ok currentStates
  | c :: str =>
      currentStates ← epsilonClosure currentStates;
      newStates ← advance c currentStates [];
      consume str newStates
  end.

Fixpoint any_final (currentStates : list nat) : result bool :=
  match currentStates with
  | [] => Ok false
  | state :: currentStates =>
      st ← deref (states nfa !! state);
      if finalState st then Ok true else any_final currentStates
  end.

(** [NFA::powerset]. *)
Definition powerset (str : list char) : result bool :=
  let currentStates :=
    foldl (fun acc '(stateId, state) =>
             if initialState state then set_emplace stateId acc else acc)
          [] (imap (fun stateId state => (stateId, state)) (states nfa)) in
  currentStates ← consume str currentStates;
  currentStates ← epsilonClosure currentStates;
  any_final currentStates.
End powerset.

(** ** Values and predicates the properties are stated with *)

(** The state of the parser after [[a]: inside a class that holds [a]. *)
Definition inside_class_a : parser :=
  set_objbuff (Some (false, [(ch "a", ch "a")]))
    (set_character_class_environment true initial_parser).

(** The NFA of the empty pattern: the initial state 0 and the final state 1,
    an epsilon transition between them that opens and closes group 0, and
    the two loops of an unanchored pattern. *)
Definition empty_pattern_nfa : NFA := {|
  states := [ {| initialState := true; finalState := false;
                 transitions := [(0%nat, 1%nat, Some ([0%nat], [0%nat]));
                                 (1%nat, 0%nat, None)];
                 rtransitions := {[ (1%nat, 0%nat, None) ]} |};
              {| initialState := false; finalState := true;
                 transitions := [(2%nat, 1%nat, None)];
                 rtransitions := {[ (0%nat, 0%nat, Some ([0%nat], [0%nat]));
                                    (2%nat, 1%nat, None) ]} |} ];
  matchers := [EpsilonMatcher; UniversalMatcher; UniversalMatcher];
  nGroups := 1;
|}.

(** No rewrite of the quantifier collapse applies at the root of the tree. *)
Definition no_merge (root : ASTNode) : Prop :=
  ∀ T1 T2, merge_pair T1 T2 root = None.

(** The mirror invariant: a transition stored at its source is in the set
    of reverse transitions of its target, and a reverse transition stored at
    a state occurs once among the transitions of the state it comes from. *)
Definition mirror (nfa : NFA) : Prop :=
  (∀ i state matcher t info,
     states nfa !! i = Some state →
     (matcher, t, info) ∈ transitions state →
     ∃ target, states nfa !! t = Some target ∧ (matcher, i, info) ∈ rtransitions target)
  ∧ (∀ t target matcher i info,
       states nfa !! t = Some target →
       (matcher, i, info) ∈ rtransitions target →
       ∃ state, states nfa !! i = Some state
                ∧ List.length (filter (λ tr, tr = (matcher, t, info)) (transitions state))
                  = 1%nat).

(** Whether an annotation opens, or closes, group 0. *)
Definition opens0 (info : option transition_info_t) : Prop :=
  match info with
  | Some info => 0%nat ∈ begingroups info
  | None => False
  end.

Definition closes0 (info : option transition_info_t) : Prop :=
  match info with
  | Some info => 0%nat ∈ endgroups info
  | None => False
  end.

(** Group 0 frames the automaton: the transitions that leave an initial
    state are those that open group 0, no transition enters an initial state
    or leaves a final one, and every transition into a final state closes
    group 0. *)
Definition group0_frames (nfa : NFA) : Prop :=
  (∀ i st, states nfa !! i = Some st → initialState st = true → finalState st = false)
  ∧ ∀ i st m t info,
      states nfa !! i = Some st → (m, t, info) ∈ transitions st →
      (opens0 info ↔ initialState st = true)
      ∧ finalState st = false
      ∧ ∀ tgt, states nfa !! t = Some tgt →
               initialState tgt = false ∧ (finalState tgt = true → closes0 info).

(** What holds of the captures when the search enters a state at [offset]:
    group 0 starts at offset 0 once an initial state has been left, and in a
    final state it ends at [offset]. *)
Definition entry_ok (str : list char) (st : NFAState) (offset : nat)
    (captures : list capture) : Prop :=
  (offset ≤ List.length str)%nat
  ∧ (initialState st = true → offset = 0%nat)
  ∧ (initialState st = false → ∃ size, captures !! 0%nat = Some (Some 0%nat, size))
  ∧ (finalState st = true → captures !! 0%nat = Some (Some 0%nat, Z.of_nat offset)).

(** The same frame during the lowering, where state 0 is the initial state
    and state 1 the final one. *)
Definition opens_ok (opengroups : list nat) (begin : nat) : Prop :=
  0%nat ∈ opengroups ↔ begin = 0%nat.

Definition closes_ok (closegroups : list nat) (end_ : nat) : Prop :=
  end_ = 1%nat → 0%nat ∈ closegroups.

Definition lowered (nfa : NFA) : Prop :=
  (2 ≤ List.length (states nfa))%nat
  ∧ (1 ≤ nGroups nfa)%nat
  ∧ (∀ i st, states nfa !! i = Some st →
             (initialState st = true ↔ i = 0%nat) ∧ (finalState st = true ↔ i = 1%nat))
  ∧ ∀ i st m t info,
      states nfa !! i = Some st → (m, t, info) ∈ transitions st →
      (opens0 info ↔ i = 0%nat) ∧ (t = 1%nat → closes0 info) ∧ t ≠ 0%nat ∧ i ≠ 1%nat.

(** A lowering function keeps the frame when it is asked to build between
    states and with group sets that fit it. *)
Definition lowers (lower : nat → nat → list nat → list nat → NFA → result NFA) : Prop :=
  ∀ begin end_ opengroups closegroups nfa nfa',
    lower begin end_ opengroups closegroups nfa = Ok nfa' →
    lowered nfa →
    opens_ok opengroups begin → closes_ok closegroups end_ →
    begin ≠ 1%nat → end_ ≠ 0%nat →
    lowered nfa'.

(** Where the chain of copies of a repetition stands: at the node's own
    begin state before the first copy, at a fresh state after it. *)
Definition chain_ok (begin : nat) (i : Z) (newbegin : nat) : Prop :=
  0 ≤ i ∧ ((i = 0 ∧ newbegin = begin) ∨ (i ≠ 0 ∧ (2 ≤ newbegin)%nat)).

(** The NFA [ASTtoNFA] starts from: the initial state 0 and the final state
    1, without transitions. *)
Definition initial_nfa : NFA := {|
  states := [ {| initialState := true; finalState := false;
                 transitions := []; rtransitions := ∅ |};
              {| initialState := false; finalState := true;
                 transitions := []; rtransitions := ∅ |} ];
  matchers := [];
  nGroups := 1;
|}.

(** What [remove_node i j] makes of the target of a transition. *)
Definition renumber (i j : nat) (t : nat) : nat :=
  if (i <? t)%nat then (t - 1)%nat
  else if Nat.eqb t i then (if (i <? j)%nat then (j - 1)%nat else j)
  else t.

(** The positions a search can record: a state of the NFA and an offset
    into the input. *)
Definition positions (nfa : NFA) (str : list char) : list (nat * nat) :=
  list_prod (seq 0 (List.length (states nfa))) (seq 0 (S (List.length str))).

(** How many positions are not yet in the visited set. *)
Definition room (nfa : NFA) (str : list char) (visited : gset (nat * nat)) : nat :=
  List.length (filter (λ p, p ∉ visited) (positions nfa str)).

(** A result that is not the exhaustion of the fuel and, when it is a
    verdict, comes with a visited set that has only grown. *)
Definition fuel_ok (visited : gset (nat * nat)) (r : result (bool * search)) : Prop :=
  match r with
  | Ok (_, s) => visited ⊆ s.1
  | Err e => e ≠ out_of_fuel
  end.

(** The transitions of the automaton lead to states it has. *)
Definition targets_in_range (nfa : NFA) : Prop :=
  ∀ i state matcher t info,
    states nfa !! i = Some state → (matcher, t, info) ∈ transitions state →
    (t < List.length (states nfa))%nat.

(** How many states of the automaton are not yet in the set. *)
Definition unreached (nfa : NFA) (inputStates : list nat) : nat :=
  List.length (filter (λ s, s ∉ inputStates) (seq 0 (List.length (states nfa)))).

(** *** Trees *)

(** The tree is one the parser can build: a repetition count is a
    [size_t], and a concatenation or a disjunction has children. *)
Fixpoint well_formed (n : ASTNode) : bool :=
  match n with
  | Leaf _ => true
  | BracketNode _ child | KleeneStarNode _ child | OneOrMoreNode _ child
  | OneOrNoneNode _ child => well_formed child
  | MultiplyNode _ min _ _ child => (0 <=? min) && well_formed child
  | ConcatenationNode childs | DisjunctionNode childs =>
      negb (Nat.eqb (List.length childs) 0) && forallb well_formed childs
  end.

(** The loop of [optimizeAST] over the children of a node that has several,
    and what [optimizeAST] does to a node once its children are done. *)
Definition optimize_childs : list ASTNode → result (list ASTNode) :=
  fix go (childs : list ASTNode) : result (list ASTNode) :=
    match childs with
    | [] => Ok []
    | child :: rest => child ← optimizeAST child; rest ← go rest; Ok (child :: rest)
    end.

Definition optimize_node (root : ASTNode) : result ASTNode :=
  let root := _merge_node_down_Concatenation root in
  let root := _merge_node_down_Disjunction root in
  let root := _merge_multiply root in
  _merge_oneor_h (node_count root) root.

(** *** The automaton as a graph *)

(** A transition of the automaton from state [k] to state [t]. *)
Definition edge (nfa : NFA) (k t : nat) : Prop :=
  ∃ state matcher info,
    states nfa !! k = Some state ∧ (matcher, t, info) ∈ transitions state.

(** The matcher a transition points to. *)
Definition matcher_of (tr : transition_t) : nat := tr.1.1.

(** What the construction keeps of the automaton: the assertions of
    [NFA::check] on the transitions and on the reverse transitions, and a
    matcher of its own for every transition. *)
Definition consistent (nfa : NFA) : Prop :=
  (∀ k state matcher t info,
     states nfa !! k = Some state → (matcher, t, info) ∈ transitions state →
     (matcher < List.length (matchers nfa))%nat
     ∧ check_info nfa info = true
     ∧ ∃ target, states nfa !! t = Some target ∧ (matcher, k, info) ∈ rtransitions target)
  ∧ (∀ t target matcher k info,
       states nfa !! t = Some target → (matcher, k, info) ∈ rtransitions target →
       ∃ state, states nfa !! k = Some state ∧ (matcher, t, info) ∈ transitions state)
  ∧ (∀ k state, states nfa !! k = Some state → NoDup (matcher_of <$> transitions state))
  ∧ (∀ k1 k2 state1 state2 matcher t1 t2 info1 info2,
       states nfa !! k1 = Some state1 → states nfa !! k2 = Some state2 →
       (matcher, t1, info1) ∈ transitions state1 →
       (matcher, t2, info2) ∈ transitions state2 →
       k1 = k2).

(** A step of the construction adds to the automaton: the states, the
    groups and the transitions it had are still there. *)
Definition extends (nfa nfa' : NFA) : Prop :=
  (List.length (states nfa) ≤ List.length (states nfa'))%nat
  ∧ (nGroups nfa ≤ nGroups nfa')%nat
  ∧ ∀ k t, edge nfa k t → edge nfa' k t.

(** A computation that returns a value, which satisfies [P]. *)
Definition returns {A} (P : A → Prop) (r : result A) : Prop :=
  ∃ a, r = Ok a ∧ P a.

(** The states [lo], ..., [hi - 1] lie on paths from [begin] to [end_],
    and there is such a path. *)
Definition connects (nfa : NFA) (lo hi : nat) (begin end_ : nat) : Prop :=
  rtc (edge nfa) begin end_
  ∧ ∀ k, (lo ≤ k < hi)%nat → rtc (edge nfa) begin k ∧ rtc (edge nfa) k end_.

(** What lowering a node between [begin] and [end_] makes of the
    automaton. *)
Definition builds (nfa : NFA) (begin end_ : nat) (nfa' : NFA) : Prop :=
  consistent nfa' ∧ extends nfa nfa'
  ∧ connects nfa' (List.length (states nfa)) (List.length (states nfa')) begin end_.

(** A lowering function that never fails on an automaton it can be called
    on. *)
Definition built (lower : nat → nat → list nat → list nat → NFA → result NFA) : Prop :=
  ∀ begin end_ opengroups closegroups nfa,
    consistent nfa →
    (begin < List.length (states nfa))%nat → (end_ < List.length (states nfa))%nat →
    Forall (λ g, (g < nGroups nfa)%nat) opengroups →
    Forall (λ g, (g < nGroups nfa)%nat) closegroups →
    returns (builds nfa begin end_) (lower begin end_ opengroups closegroups nfa).

(** Every state can be reached from an initial state, and from every state
    a final state can be reached. *)
Definition reachable (nfa : NFA) : Prop :=
  ∀ k state, states nfa !! k = Some state →
    ∃ s0 state0, states nfa !! s0 = Some state0 ∧ initialState state0 = true
                 ∧ rtc (edge nfa) s0 k.

Definition coreachable (nfa : NFA) : Prop :=
  ∀ k state, states nfa !! k = Some state →
    ∃ f statef, states nfa !! f = Some statef ∧ finalState statef = true
                ∧ rtc (edge nfa) k f.

(** An epsilon transition into a final state carries an annotation. *)
Definition final_entries (nfa : NFA) : Prop :=
  ∀ k state matcher t info target m,
    states nfa !! k = Some state → (matcher, t, info) ∈ transitions state →
    states nfa !! t = Some target → finalState target = true →
    matchers nfa !! matcher = Some m → is_EpsilonMatcher m = true →
    info ≠ None.

(** The index that the state [k'] left by [remove_node i] had before. *)
Definition unshift (i k' : nat) : nat := if decide (k' < i)%nat then k' else S k'.

(** [nfa'] is [nfa] with the transition [e0] between the states [i] and [j]
    contracted: state [i] is gone, the other states keep their flags under
    their new indices, and the transitions and reverse transitions are those
    of [nfa] other than [e0], with [i] sent to [j]. *)
Definition contracts (i j : nat) (e0 : nat * transition_t) (nfa nfa' : NFA) : Prop :=
  matchers nfa' = matchers nfa ∧ nGroups nfa' = nGroups nfa
  ∧ S (List.length (states nfa')) = List.length (states nfa)
  ∧ (∀ k' st', states nfa' !! k' = Some st' →
       ∃ k st, states nfa !! k = Some st ∧ k ≠ i ∧ k' = renumber i j k
               ∧ initialState st' = initialState st ∧ finalState st' = finalState st)
  ∧ (∀ k st, states nfa !! k = Some st →
       ∃ st', states nfa' !! renumber i j k = Some st'
              ∧ (k ≠ i → initialState st' = initialState st
                         ∧ finalState st' = finalState st))
  ∧ (∀ k' st' m t' a, states nfa' !! k' = Some st' →
       (m, t', a) ∈ transitions st'
       ↔ ∃ k st t, states nfa !! k = Some st ∧ (m, t, a) ∈ transitions st
                   ∧ (k, (m, t, a)) ≠ e0
                   ∧ renumber i j k = k' ∧ renumber i j t = t')
  ∧ (∀ t' tgt' m k' a, states nfa' !! t' = Some tgt' →
       (m, k', a) ∈ rtransitions tgt'
       ↔ ∃ k st t, states nfa !! k = Some st ∧ (m, t, a) ∈ transitions st
                   ∧ (k, (m, t, a)) ≠ e0
                   ∧ renumber i j k = k' ∧ renumber i j t = t')
  ∧ (∀ k' st', states nfa' !! k' = Some st' → NoDup (matcher_of <$> transitions st')).

(** The automaton [ASTtoNFA] has built when it calls [NFA::optimize]: state
    0 is initial, state 1 is final, and every state lies on a path from the
    one to the other. *)
Definition framed (nfa : NFA) : Prop :=
  consistent nfa
  ∧ (∀ k, (k < List.length (states nfa))%nat →
          rtc (edge nfa) 0%nat k ∧ rtc (edge nfa) k 1%nat)
  ∧ (∃ st0, states nfa !! 0%nat = Some st0 ∧ initialState st0 = true)
  ∧ (∃ st1, states nfa !! 1%nat = Some st1 ∧ finalState st1 = true)
  ∧ final_entries nfa.

(** *** Character classes *)

(** Whether an interval covers a character. *)
Definition covers (x : char) (interval : char * char) : bool :=
  (interval.1 <=? x) && (x <=? interval.2).

(** The intervals [normalize] leaves: each with its ends in order, and each
    starting more than one character after the end of the one before. *)
Fixpoint separated (l : list (char * char)) : Prop :=
  match l with
  | [] => True
  | i :: l' =>
      i.1 ≤ i.2
      ∧ match l' with
        | [] => True
        | j :: _ => i.2 + 1 < j.1
        end
      ∧ separated l'
  end.

(** Intervals in the order of their first ends. *)
Fixpoint fst_sorted (l : list (char * char)) : Prop :=
  match l with
  | [] => True
  | i :: l' => Forall (λ j, i.1 ≤ j.1) l' ∧ fst_sorted l'
  end.

(** *** Trees compared and optimized *)

(** What [EqualAST] sees of a tree: everything but the [capture] flag of a
    bracket and the [max] of an unbounded repetition. *)
Fixpoint compared (n : ASTNode) : ASTNode :=
  match n with
  | Leaf m => Leaf m
  | BracketNode _ child => BracketNode false (compared child)
  | KleeneStarNode greedy child => KleeneStarNode greedy (compared child)
  | OneOrMoreNode greedy child => OneOrMoreNode greedy (compared child)
  | OneOrNoneNode greedy child => OneOrNoneNode greedy (compared child)
  | MultiplyNode greedy min max unbounded child =>
      MultiplyNode greedy min (if unbounded then 0 else max) unbounded (compared child)
  | ConcatenationNode childs => ConcatenationNode (map compared childs)
  | DisjunctionNode childs => DisjunctionNode (map compared childs)
  end.

(** A predicate that holds at every node of a tree. *)
Fixpoint everywhere (p : ASTNode → bool) (n : ASTNode) : bool :=
  p n
  && match n with
     | Leaf _ => true
     | BracketNode _ child | KleeneStarNode _ child | OneOrMoreNode _ child
     | OneOrNoneNode _ child | MultiplyNode _ _ _ _ child => everywhere p child
     | ConcatenationNode childs | DisjunctionNode childs => forallb (everywhere p) childs
     end.

(** No child of a concatenation is a concatenation, and no child of a
    disjunction a disjunction. *)
Definition flat (n : ASTNode) : bool :=
  match n with
  | ConcatenationNode childs => forallb (λ child, negb (is_Concatenation child)) childs
  | DisjunctionNode childs => forallb (λ child, negb (is_Disjunction child)) childs
  | _ => true
  end.

Definition is_exact_Multiply (n : ASTNode) : bool :=
  match n with
  | MultiplyNode _ min max unbounded _ => exact min max unbounded
  | _ => false
  end.

(** A repetition [_merge_multiply] has nothing to do on. *)
Definition multiplied (n : ASTNode) : bool :=
  match n with
  | MultiplyNode _ min max unbounded child =>
      negb (exact min max unbounded && is_exact_Multiply child)
      && negb (unbounded && ((min =? 0) || (min =? 1)))
      && negb (exact min max unbounded && (min =? 0))
  | _ => true
  end.

(** No rewrite of the quantifier collapse applies at the node. *)
Definition collapsed (n : ASTNode) : bool :=
  forallb (λ T, match merge_pair T.1 T.2 n with
                | None => true
                | Some _ => false
                end) quantifier_pairs.

(** No repetition count is applied to a repetition count. *)
Definition single_counts (n : ASTNode) : bool :=
  match n with
  | MultiplyNode _ _ _ _ (MultiplyNode _ _ _ _ _) => false
  | _ => true
  end.

Definition childs_of (n : ASTNode) : list ASTNode :=
  match n with
  | Leaf _ => []
  | BracketNode _ child | KleeneStarNode _ child | OneOrMoreNode _ child
  | OneOrNoneNode _ child | MultiplyNode _ _ _ _ child => [child]
  | ConcatenationNode childs | DisjunctionNode childs => childs
  end.

(** *** The three normal forms *)

Definition normal_node (n : ASTNode) : bool := flat n && multiplied n && collapsed n.

(** What holds of a node on its way through [optimize_node]: its children
    are in normal form, and the node itself is but for the quantifier
    collapse. *)
Definition half_normal (n : ASTNode) : Prop :=
  flat n = true ∧ multiplied n = true
  ∧ Forall (λ child, everywhere normal_node child = true) (childs_of n).

(** *** The empty string *)

Definition is_Multiply (n : ASTNode) : bool :=
  match n with MultiplyNode _ _ _ _ _ => true | _ => false end.

(** *** Patterns read literally *)

(** The characters the loop of [buildAST] gives a meaning outside of a
    class or a repetition count. *)
Definition metacharacters : list char :=
  [ch "\"; ch "["; ch "]"; ch "{"; ch "}"; ch "("; ch ")"; ch "<"; ch ">";
   ch "*"; ch "+"; ch "?"; ch "|"; ch "."].

Definition plain (c : char) : Prop := Forall (λ x, c ≠ x) metacharacters.

(** The tree of a pattern that is a sequence of literal characters. *)
Definition literal (s : list char) : ASTNode :=
  match s with
  | [] => Leaf EpsilonMatcher
  | [c] => Leaf (CharacterMatcher c)
  | _ => ConcatenationNode (map (λ c, Leaf (CharacterMatcher c)) s)
  end.

(** The parser after the literal characters [s]. *)
Definition literal_parser (s : list char) : parser :=
  set_activenode
    match s with
    | [] | [_] => [[]]
    | _ => [[(List.length s - 1)%nat]; []]
    end
    (set_ast_root (literal s) initial_parser).

(** A pattern with a backslash before each of its characters. *)
Definition escape (s : list char) : list char := s ≫= λ c, [ch "\"; c].

(** The turn of the loop for a character that is concatenated as it is. *)
Definition concatenate (c : char) (st : parser) : result parser :=
  st ←
    (p ← top st;
     let st :=
       match parent (ast_root st) p with
       | Some (ConcatenationNode _) => pop st
       | _ => st
       end in
     p ← top st;
     node ← top_node st;
     st ←
       match node with
       | Leaf EpsilonMatcher => set_top (Leaf (CharacterMatcher c)) st
       | ConcatenationNode childs =>
           st ← set_top (ConcatenationNode (childs ++ [Leaf (CharacterMatcher c)])) st;
           Ok (push (p ++ [List.length childs]) st)
       | _ =>
           st ← set_top (ConcatenationNode [node; Leaf (CharacterMatcher c)]) st;
           Ok (push (p ++ [1%nat]) st)
       end;
     p ← top st;
     node ← top_node st;
     let st := if is_Bracket node then push (p ++ [0%nat]) st else st in
     Ok (set_lazymodifier false st));
  Ok (set_escaped false st).

(** *** Captures and runs *)

(** A capture that lies inside the first [bound] characters of the input:
    the default view, or a slice that ends at or before [bound]. *)
Definition capture_within (bound : nat) (c : capture) : Prop :=
  match c.1 with
  | None => c.2 = 0
  | Some data => 0 ≤ c.2 ∧ Z.of_nat data + c.2 ≤ Z.of_nat bound
  end.

(** The runs of an automaton: [run nfa i w] when the input [w] leads from
    state [i] to a final state.  An epsilon transition reads nothing, any
    other transition reads one character its matcher accepts. *)
Inductive run (nfa : NFA) : nat → list char → Prop :=
| run_final i st :
    states nfa !! i = Some st → finalState st = true → run nfa i []
| run_epsilon i st matcher t info w :
    states nfa !! i = Some st → (matcher, t, info) ∈ transitions st →
    matchers nfa !! matcher = Some EpsilonMatcher →
    run nfa t w → run nfa i w
| run_character i st matcher t info m c w :
    states nfa !! i = Some st → (matcher, t, info) ∈ transitions st →
    matchers nfa !! matcher = Some m → length_ m = 1%nat →
    match_ 0 m [c] = true →
    run nfa t w → run nfa i (c :: w).

(** The automaton accepts [w]: a run starts in an initial state. *)
Definition accepts (nfa : NFA) (w : list char) : Prop :=
  ∃ i st, states nfa !! i = Some st ∧ initialState st = true ∧ run nfa i w.

(** One epsilon transition, and one transition on the character [c]. *)
Definition epsilon_step (nfa : NFA) (i t : nat) : Prop :=
  ∃ st matcher info,
    states nfa !! i = Some st ∧ (matcher, t, info) ∈ transitions st
    ∧ matchers nfa !! matcher = Some EpsilonMatcher.

Definition character_step (nfa : NFA) (c : char) (i t : nat) : Prop :=
  ∃ st matcher info m,
    states nfa !! i = Some st ∧ (matcher, t, info) ∈ transitions st
    ∧ matchers nfa !! matcher = Some m ∧ length_ m = 1%nat ∧ match_ 0 m [c] = true.

(** The transitions lead to states, and use matchers, the automaton has. *)
Definition transitions_in_range (nfa : NFA) : Prop :=
  ∀ i st matcher t info,
    states nfa !! i = Some st → (matcher, t, info) ∈ transitions st →
    (t < List.length (states nfa))%nat ∧ (matcher < List.length (matchers nfa))%nat.

(** The states of a list are states of the automaton. *)
Definition in_range (nfa : NFA) (l : list nat) : Prop :=
  ∀ x, x ∈ l → (x < List.length (states nfa))%nat.

(** What the loop of [epsilonClosure] keeps: the stack holds states of the
    set, the set holds the states it started from and only states they reach
    by epsilon transitions, and a state of the set that is not on the stack
    has its epsilon successors in the set. *)
Definition closure_invariant (nfa : NFA) (input stateStack inputStates : list nat) : Prop :=
  (∀ x, x ∈ stateStack → x ∈ inputStates)
  ∧ (∀ x, x ∈ input → x ∈ inputStates)
  ∧ (∀ x, x ∈ inputStates → ∃ s, s ∈ input ∧ rtc (epsilon_step nfa) s x)
  ∧ (∀ x y, x ∈ inputStates → x ∉ stateStack → epsilon_step nfa x y → y ∈ inputStates)
  ∧ in_range nfa inputStates.

(** * Properties *)

Lemma bind_Ok {A B} (r : result A) (k : A → result B) b :
  r ≫= k = Ok b → ∃ a, r = Ok a ∧ k a = Ok b.
Proof. destruct r as [a|e]; [|done]. intros H. by exists a. Qed.

Lemma assert_Ok b u : assert b = Ok u → b = true.
Proof. by destruct b. Qed.

Lemma deref_Ok {A} (o : option A) a : deref o = Ok a → o = Some a.
Proof. destruct o; [|done]. by intros [= ->]. Qed.

(** ** Matchers *)

Lemma class_match_nonempty eos invert intervals x str :
  match_ eos (CharacterClassMatcher invert intervals) (x :: str)
  = xorb invert (existsb (fun interval => (interval.1 <=? x) && (x <=? interval.2)) intervals).
Proof. reflexivity. Qed.

(** C4.  On a non-empty string a character class matches exactly when
    [invert] differs from "some interval covers the first character".  On the
    empty string nothing tests for emptiness: the inverted class without
    intervals returns [true], and an inverted class with intervals answers
    from the byte behind the view. *)
Theorem C4_class_match_ignores_emptiness :
  (∀ eos invert intervals x str,
     match_ eos (CharacterClassMatcher invert intervals) (x :: str) = true
     ↔ xorb invert (existsb (fun interval => (interval.1 <=? x) && (x <=? interval.2))
                      intervals) = true)
  ∧ (∀ eos, match_ eos (CharacterClassMatcher true []) [] = true)
  ∧ (∀ eos intervals,
       match_ eos (CharacterClassMatcher true intervals) []
       = negb (existsb (fun interval => (interval.1 <=? eos) && (eos <=? interval.2))
                 intervals))
  ∧ (∀ eos cmatch, match_ eos (CharacterMatcher cmatch) [] = false)
  ∧ (∀ eos, match_ eos UniversalMatcher [] = false).
Proof.
  repeat split; try reflexivity.
  - by rewrite class_match_nonempty.
  - by rewrite class_match_nonempty.
Qed.

(** ** The parser *)

(** C10.  The pattern [[^]] is a syntax error, "empty character class",
    although the inverted class without intervals it spells matches every
    character. *)
Theorem C10_inverted_empty_class_rejected :
  (∀ optimize, buildAST (chars_of_string "[^]") optimize
               = Err (syntax_error "empty character class"))
  ∧ (∀ eos x str, match_ eos (CharacterClassMatcher true []) (x :: str) = true).
Proof.
  split.
  - by intros [].
  - done.
Qed.

Lemma parse_open_class_a :
  parse_loop (chars_of_string "[a") initial_parser = Ok inside_class_a.
Proof. reflexivity. Qed.

(** C6, as claimed: past the head of a class an unescaped [^] is one more
    member.  It fails on [[a^]], where the [^] inverts the class and the
    member list stays [a]. *)
Lemma C6_caret_after_head_inverts :
  step inside_class_a (ch "^")
  = Ok (set_objbuff (Some (true, [(ch "a", ch "a")])) inside_class_a)
  ∧ step inside_class_a (ch "^")
    ≠ Ok (set_objbuff (Some (false, [(ch "a", ch "a"); (ch "^", ch "^")])) inside_class_a)
  ∧ buildAST (chars_of_string "[a^]") false
    = Ok {| root := Leaf (CharacterClassMatcher true [(ch "a", ch "a")]);
            anchorBegin := false; anchorEnd := false |}
  ∧ buildAST (chars_of_string "[a\^]") false
    = Ok {| root := Leaf (CharacterClassMatcher false [(ch "^", ch "^"); (ch "a", ch "a")]);
            anchorBegin := false; anchorEnd := false |}.
Proof. repeat split; done. Qed.

(** C6, amended.  Inside a character class an unescaped [^] sets [invert]
    wherever it stands and leaves the intervals alone; an escaped [^] is
    accumulated like any other character. *)
Theorem C6_caret_in_class st invert intervals :
  character_class_environment st = true →
  multiply_environment st = false →
  lazymodifier st = false →
  objbuff st = Some (invert, intervals) →
  (escaped st = false →
   step st (ch "^") = Ok (set_escaped false (set_objbuff (Some (true, intervals)) st)))
  ∧ (escaped st = true →
     character_class_environment_interval st = false →
     step st (ch "^")
     = Ok (set_escaped false
             (set_objbuff (Some (invert, intervals ++ [(ch "^", ch "^")])) st))).
Proof.
  intros Hclass Hmul Hlazy Hbuf. split.
  - intros Hesc. unfold step, class_environment.
    rewrite Hesc, Hclass, Hmul, Hlazy, Hbuf. reflexivity.
  - intros Hesc Hint. unfold step, class_environment.
    rewrite Hesc, Hclass, Hmul, Hlazy, Hbuf, Hint. reflexivity.
Qed.

Lemma C6_caret_in_class_witness :
  step inside_class_a (ch "^")
  = Ok (set_escaped false (set_objbuff (Some (true, [(ch "a", ch "a")])) inside_class_a)).
Proof.
  apply (C6_caret_in_class inside_class_a false [(ch "a", ch "a")]); reflexivity.
Defined.

(** The anchor lambda only looks at the last character. *)
Lemma anchors_escaped_dollar regex :
  anchors (regex ++ [ch "\"; ch "$"])
  = (match regex with
     | [] => false
     | first :: _ => first =? ch "^"
     end, true,
     match regex with
     | [] => [ch "\"]
     | first :: rest => (if first =? ch "^" then rest else first :: rest) ++ [ch "\"]
     end).
Proof.
  unfold anchors.
  assert (Hlast : ∀ l : list char, last (l ++ [ch "\"; ch "$"]) = Some (ch "$")).
  { intros l. change [ch "\"; ch "$"] with ([ch "\"] ++ [ch "$"]).
    by rewrite app_assoc, last_snoc. }
  assert (Hrem : ∀ l : list char, removelast (l ++ [ch "\"; ch "$"]) = l ++ [ch "\"]).
  { intros l. change [ch "\"; ch "$"] with ([ch "\"] ++ [ch "$"]).
    by rewrite app_assoc, removelast_last. }
  destruct regex as [|first rest].
  - reflexivity.
  - change ((first :: rest) ++ [ch "\"; ch "$"]) with (first :: (rest ++ [ch "\"; ch "$"])).
    cbv beta iota zeta.
    change (first :: (rest ++ [ch "\"; ch "$"])) with ((first :: rest) ++ [ch "\"; ch "$"]).
    rewrite Hlast. cbn [default from_option].
    replace (ch "$" =? ch "$") with true by reflexivity.
    destruct (first =? ch "^").
    + cbn [tail app]. by rewrite Hrem.
    + by rewrite Hrem.
Qed.

(** C7.  A pattern that ends in [\$] is read as anchored at the end: the
    [$] is taken off before the loop sees the escape, and the backslash left
    at the end is dropped.  [a\$] becomes [a] with [anchorEnd], which accepts
    [a] and rejects [a$]. *)
Theorem C7_escaped_dollar_at_end_is_an_anchor :
  (∀ regex, (anchors (regex ++ [ch "\"; ch "$"])).1.2 = true)
  ∧ (∀ optimize, buildAST (chars_of_string "a\$") optimize
                 = Ok {| root := Leaf (CharacterMatcher (ch "a"));
                         anchorBegin := false; anchorEnd := true |})
  ∧ (∀ optimize, ∃ nfa,
       compile (chars_of_string "a\$") optimize = Ok nfa
       ∧ powerset nfa (chars_of_string "a$") = Ok false
       ∧ simulate nfa 0 (chars_of_string "a$") = Ok []
       ∧ powerset nfa (chars_of_string "a") = Ok true)
  ∧ buildAST (chars_of_string "a\$b") false
    = Ok {| root := ConcatenationNode [Leaf (CharacterMatcher (ch "a"));
                                       Leaf (CharacterMatcher (ch "$"));
                                       Leaf (CharacterMatcher (ch "b"))];
            anchorBegin := false; anchorEnd := false |}.
Proof.
  split; [|split; [|split]].
  - intros regex. by rewrite anchors_escaped_dollar.
  - by intros [].
  - intros []; eexists; (split; [vm_compute; reflexivity|]); by vm_compute.
  - reflexivity.
Qed.

(** ** The executors on concrete patterns *)

(** C1.  On the pattern [[^a]?] and the empty input the two executors part:
    [powerset] accepts through the epsilon transition, while [simulate] first
    tries the class, which matches the empty rest of the input (the byte
    behind a whole string is the terminator 0), and then asks for
    [substr(1)] of an empty view, which throws. *)
Theorem C1_class_at_end_of_input :
  ∀ optimize, ∃ nfa,
    compile (chars_of_string "[^a]?") optimize = Ok nfa
    ∧ powerset nfa [] = Ok true
    ∧ simulate nfa 0 [] = Err out_of_range.
Proof.
  intros []; eexists; (split; [vm_compute; reflexivity|]); by vm_compute.
Qed.

(** C2.  On the pattern [(a+)??(abc|b)] and the input [aabc] group 0 depends
    on the optimization: the AST optimizer turns the lazy [?] over the greedy
    [+] into a lazy star, which tries one [a] before two. *)
Theorem C2_group_0_depends_on_optimization :
  buildAST (chars_of_string "(a+)??(abc|b)") false
  = Ok {| root := ConcatenationNode
                    [OneOrNoneNode false (OneOrMoreNode true (Leaf (CharacterMatcher (ch "a"))));
                     DisjunctionNode
                       [ConcatenationNode [Leaf (CharacterMatcher (ch "a"));
                                           Leaf (CharacterMatcher (ch "b"));
                                           Leaf (CharacterMatcher (ch "c"))];
                        Leaf (CharacterMatcher (ch "b"))]];
          anchorBegin := false; anchorEnd := false |}
  ∧ buildAST (chars_of_string "(a+)??(abc|b)") true
    = Ok {| root := ConcatenationNode
                      [KleeneStarNode false (Leaf (CharacterMatcher (ch "a")));
                       DisjunctionNode
                         [ConcatenationNode [Leaf (CharacterMatcher (ch "a"));
                                             Leaf (CharacterMatcher (ch "b"));
                                             Leaf (CharacterMatcher (ch "c"))];
                          Leaf (CharacterMatcher (ch "b"))]];
            anchorBegin := false; anchorEnd := false |}
  ∧ ∃ nfa nfa2,
      compile (chars_of_string "(a+)??(abc|b)") false = Ok nfa
      ∧ compile (chars_of_string "(a+)??(abc|b)") true = Ok nfa2
      ∧ powerset nfa (chars_of_string "aabc") = Ok true
      ∧ powerset nfa2 (chars_of_string "aabc") = Ok true
      ∧ simulate nfa 0 (chars_of_string "aabc") = Ok [(Some 0%nat, 3)]
      ∧ simulate nfa2 0 (chars_of_string "aabc") = Ok [(Some 0%nat, 4)].
Proof.
  split; [reflexivity|split; [reflexivity|]].
  do 2 eexists.
  split; [vm_compute; reflexivity|].
  split; [vm_compute; reflexivity|].
  by vm_compute.
Qed.

(** ** The empty pattern *)

Lemma compile_empty_pattern optimize : compile [] optimize = Ok empty_pattern_nfa.
Proof. destruct optimize; vm_compute; reflexivity. Qed.

(** From the final state the loop on [.] eats what is left of the input. *)
Lemma explore_final eos w rest : ∀ k visited caps fuel,
  drop k w = rest →
  (∀ j, (k ≤ j)%nat → (1%nat, j) ∉ visited) →
  (List.length rest < fuel)%nat →
  ∃ visited', exploreTransitions empty_pattern_nfa eos w fuel 1 k (visited, caps)
              = Ok (true, (visited', caps)).
Proof.
  induction rest as [|x rest IH]; intros k visited caps fuel Hdrop Hvis Hfuel.
  - destruct fuel as [|fuel]; [simpl in Hfuel; lia|].
    exists visited. cbn. rewrite Hdrop. reflexivity.
  - destruct fuel as [|fuel]; [simpl in Hfuel; lia|].
    cbn. rewrite Hdrop. cbn.
    rewrite bool_decide_eq_false_2 by (apply Hvis; lia).
    destruct (IH (k + 1)%nat ({[(1%nat, k)]} ∪ visited) caps fuel) as [visited' ->].
    + rewrite <- (drop_drop w 1 k), Hdrop. reflexivity.
    + intros j Hj. rewrite elem_of_union, elem_of_singleton.
      intros [[= ->]|Hin]; [lia|]. apply (Hvis j); [lia|done].
    + simpl in Hfuel. lia.
    + by exists visited'.
Qed.

Lemma simulate_empty_pattern eos w :
  simulate empty_pattern_nfa eos w = Ok [(Some 0%nat, 0)].
Proof.
  unfold simulate, simulate_fuel.
  cbn -[Nat.mul]. rewrite andb_false_r.
  rewrite bool_decide_eq_false_2 by apply not_elem_of_empty.
  match goal with
  | |- context [exploreTransitions _ _ _ ?fuel 1%nat 0%nat (?visited, ?caps)] =>
      destruct (explore_final eos w w 0 visited caps fuel) as [visited' ->]
  end.
  - apply drop_0.
  - intros j _. rewrite elem_of_union, elem_of_singleton, elem_of_empty.
    intros [[=]|[]].
  - lia.
  - reflexivity.
Qed.

Lemma consume_empty_pattern w : ∀ currentStates,
  currentStates = [0%nat] ∨ currentStates = [0%nat; 1%nat] →
  ∃ currentStates',
    consume empty_pattern_nfa w currentStates = Ok currentStates'
    ∧ (currentStates' = [0%nat] ∨ currentStates' = [0%nat; 1%nat]).
Proof.
  induction w as [|x w IH]; intros currentStates Hcur.
  - by exists currentStates.
  - destruct (IH [0%nat; 1%nat]) as (currentStates' & Hcons & Hcur'); [by right|].
    exists currentStates'. split; [|done].
    destruct Hcur as [-> | ->]; exact Hcons.
Qed.

Lemma powerset_empty_pattern w : powerset empty_pattern_nfa w = Ok true.
Proof.
  unfold powerset.
  destruct (consume_empty_pattern w [0%nat]) as (currentStates & Hcons & Hcur); [by left|].
  change (foldl _ _ _) with [0%nat].
  rewrite Hcons.
  destruct Hcur as [-> | ->]; reflexivity.
Qed.

(** C9.  The empty pattern compiles: its AST is the single leaf Epsilon with
    both anchor flags off, and the NFA accepts every input under both
    executors ([simulate] returns a non-empty capture vector). *)
Theorem C9_empty_pattern_accepts_everything :
  ∀ optimize,
    buildAST [] optimize
    = Ok {| root := Leaf EpsilonMatcher; anchorBegin := false; anchorEnd := false |}
    ∧ ∃ nfa,
        compile [] optimize = Ok nfa
        ∧ ∀ eos w,
            powerset nfa w = Ok true
            ∧ ∃ captures, simulate nfa eos w = Ok captures ∧ captures ≠ [].
Proof.
  intros optimize. split; [by destruct optimize|].
  exists empty_pattern_nfa. split; [apply compile_empty_pattern|].
  intros eos w. split; [apply powerset_empty_pattern|].
  exists [(Some 0%nat, 0)]. split; [apply simulate_empty_pattern|done].
Qed.

(** ** The quantifier collapse *)

Lemma foldl_hh_Err retry e pairs :
  foldl (fun acc T => root ← acc; _merge_oneor_hh retry T root) (Err e) pairs = Err e.
Proof. induction pairs as [|T pairs IH]; [done|]. simpl. apply IH. Qed.

Lemma foldl_hh_no_merge retry root pairs :
  no_merge root →
  foldl (fun acc T => root ← acc; _merge_oneor_hh retry T root) (Ok root) pairs = Ok root.
Proof.
  intros Hno. induction pairs as [|T pairs IH]; [done|].
  simpl. unfold _merge_oneor_hh at 2. rewrite Hno. apply IH.
Qed.

Lemma _merge_oneor_h_no_merge fuel root :
  no_merge root → _merge_oneor_h fuel root = Ok root.
Proof. intros Hno. destruct fuel; by apply foldl_hh_no_merge. Qed.

Lemma quantifier_pairs_all T1 T2 : (T1, T2) ∈ quantifier_pairs.
Proof. destruct T1, T2; vm_compute; set_solver. Qed.

(** What the fold over the nine pairs returns: the root itself when no pair
    applies, and otherwise what the retry of the first pair that applies
    returned, provided the retries return trees no pair applies to. *)
Lemma foldl_hh_normal retry root r :
  (∀ merged r, retry merged = Ok r → no_merge r) →
  ∀ pairs,
    foldl (fun acc T => root ← acc; _merge_oneor_hh retry T root) (Ok root) pairs = Ok r →
    no_merge r ∨ (r = root ∧ ∀ T, T ∈ pairs → merge_pair T.1 T.2 root = None).
Proof.
  intros Hretry. induction pairs as [|T pairs IHp]; simpl.
  - intros [= ->]. right. split; [done|]. intros T HT. by apply elem_of_nil in HT.
  - unfold _merge_oneor_hh at 2.
    destruct (merge_pair T.1 T.2 root) as [merged|] eqn:Hm.
    + destruct (retry merged) as [r1|e] eqn:Hr1.
      * pose proof (Hretry _ _ Hr1) as Hno.
        rewrite (foldl_hh_no_merge _ _ _ Hno). intros [= ->]. by left.
      * by rewrite foldl_hh_Err.
    + intros Hf. destruct (IHp Hf) as [Hno|[-> Hall]]; [by left|].
      right. split; [done|].
      intros T' [->|HT']%elem_of_cons; [done|by apply Hall].
Qed.

(** [_merge_oneor_h] returns a tree no pair applies to. *)
Lemma _merge_oneor_h_normal fuel : ∀ root r,
  _merge_oneor_h fuel root = Ok r → no_merge r.
Proof.
  induction fuel as [|fuel IH]; intros root r Hf;
    apply foldl_hh_normal in Hf as [Hno|[-> Hall]]; try done.
  - intros T1 T2. apply (Hall (T1, T2)), quantifier_pairs_all.
  - intros T1 T2. apply (Hall (T1, T2)), quantifier_pairs_all.
Qed.

Lemma optimizeAST_normal root r : optimizeAST root = Ok r → no_merge r.
Proof.
  destruct root; simpl;
    try match goal with
    | |- context [mbind _ ?x] => destruct x as [?|?]; simpl; [|done]
    end; try apply _merge_oneor_h_normal.
  intros [= <-] [] []; reflexivity.
Qed.

Lemma no_merge_KleeneStar greedy greedy' child :
  no_merge (KleeneStarNode greedy child) → no_merge (KleeneStarNode greedy' child).
Proof.
  intros Hno T1 T2.
  pose proof (Hno KleeneStar T2) as H.
  destruct T1, T2, child; try done.
Qed.

Lemma optimizeAST_OneOrNone greedy child :
  optimizeAST (OneOrNoneNode greedy child)
  = (child ← optimizeAST child;
     _merge_oneor_h (S (node_count child)) (OneOrNoneNode greedy child)).
Proof. simpl. destruct (optimizeAST child); reflexivity. Qed.

(** C5, as claimed: the star that replaces a [?] over a star takes the
    greedy flag of the [?].  It fails on [(a*?)?], a greedy [?] over a lazy
    star, which becomes a lazy star. *)
Lemma C5_outer_greedy_not_kept :
  optimizeAST (OneOrNoneNode true (KleeneStarNode false (Leaf (CharacterMatcher (ch "a")))))
  = Ok (KleeneStarNode false (Leaf (CharacterMatcher (ch "a"))))
  ∧ optimizeAST (OneOrNoneNode true (KleeneStarNode false (Leaf (CharacterMatcher (ch "a")))))
    ≠ Ok (KleeneStarNode true (Leaf (CharacterMatcher (ch "a"))))
  ∧ buildAST (chars_of_string "(a*?)?") false
    = Ok {| root := OneOrNoneNode true
                      (KleeneStarNode false (Leaf (CharacterMatcher (ch "a"))));
            anchorBegin := false; anchorEnd := false |}
  ∧ buildAST (chars_of_string "(a*?)?") true
    = Ok {| root := KleeneStarNode false (Leaf (CharacterMatcher (ch "a")));
            anchorBegin := false; anchorEnd := false |}.
Proof. repeat split; done. Qed.

(** C5, amended.  When the optimizer, working bottom-up, reaches a [?] whose
    optimized child is a star, the result is that star with the greedy flag
    "outer and inner": greedy only when both the [?] and the star were. *)
Theorem C5_OneOrNone_over_KleeneStar greedy1 child greedy2 child2 :
  optimizeAST child = Ok (KleeneStarNode greedy2 child2) →
  optimizeAST (OneOrNoneNode greedy1 child)
  = Ok (KleeneStarNode (greedy1 && greedy2) child2).
Proof.
  intros Hchild.
  pose proof (optimizeAST_normal _ _ Hchild) as Hno.
  apply (no_merge_KleeneStar _ (greedy1 && greedy2)) in Hno.
  rewrite optimizeAST_OneOrNone, Hchild.
  change (_merge_oneor_h (S (S (node_count child2)))
            (OneOrNoneNode greedy1 (KleeneStarNode greedy2 child2))
          = Ok (KleeneStarNode (greedy1 && greedy2) child2)).
  unfold _merge_oneor_h at 1; fold _merge_oneor_h.
  change quantifier_pairs with
    ([(KleeneStar, KleeneStar); (KleeneStar, OneOrMore); (KleeneStar, OneOrNone);
      (OneOrMore, KleeneStar); (OneOrMore, OneOrMore); (OneOrMore, OneOrNone)]
     ++ (OneOrNone, KleeneStar) :: [(OneOrNone, OneOrMore); (OneOrNone, OneOrNone)]).
  rewrite foldl_app.
  change (foldl _ _ [(KleeneStar, KleeneStar); (KleeneStar, OneOrMore);
                     (KleeneStar, OneOrNone); (OneOrMore, KleeneStar);
                     (OneOrMore, OneOrMore); (OneOrMore, OneOrNone)])
    with (Ok (A:=ASTNode) (OneOrNoneNode greedy1 (KleeneStarNode greedy2 child2))).
  cbn [foldl mbind result_bind].
  change (_merge_oneor_hh _ (OneOrNone, KleeneStar)
            (OneOrNoneNode greedy1 (KleeneStarNode greedy2 child2)))
    with (_merge_oneor_h (S (node_count child2))
            (KleeneStarNode (greedy1 && greedy2) child2)).
  rewrite (_merge_oneor_h_no_merge _ _ Hno).
  reflexivity.
Qed.

Lemma C5_OneOrNone_over_KleeneStar_witness :
  optimizeAST (OneOrNoneNode true (KleeneStarNode false (Leaf (CharacterMatcher (ch "a")))))
  = Ok (KleeneStarNode (true && false) (Leaf (CharacterMatcher (ch "a")))).
Proof.
  apply (C5_OneOrNone_over_KleeneStar true
           (KleeneStarNode false (Leaf (CharacterMatcher (ch "a")))) false
           (Leaf (CharacterMatcher (ch "a")))).
  reflexivity.
Defined.

(** ** The mirror invariant *)

(** [ASTtoNFA] ends with [nfa.check()]. *)
Lemma ASTtoNFA_check ast optimize_ nfa :
  ASTtoNFA ast optimize_ = Ok nfa → check nfa = true.
Proof.
  unfold ASTtoNFA. intros H.
  repeat (apply bind_Ok in H as (? & ? & H)).
  injection H as <-.
  match goal with
  | Hassert : assert _ = Ok _ |- _ => by apply assert_Ok in Hassert
  end.
Qed.

Lemma check_mirror nfa : check nfa = true → mirror nfa.
Proof.
  unfold check. rewrite forallb_forall. intros Hcheck. split.
  - intros i state matcher t info Hi Htr.
    specialize (Hcheck (i, state)). cbv beta iota in Hcheck.
    rewrite andb_true_iff, !forallb_forall in Hcheck.
    destruct Hcheck as [Hfw _].
    { apply list_elem_of_In, elem_of_lookup_imap. by exists i, state. }
    specialize (Hfw (matcher, t, info)). cbv beta iota in Hfw.
    rewrite !andb_true_iff in Hfw.
    destruct Hfw as [[[_ _] Hrt] _]; [by apply list_elem_of_In|].
    destruct (states nfa !! t) as [target|]; [|done].
    exists target. split; [done|]. by apply bool_decide_eq_true in Hrt.
  - intros t target matcher i info Ht Hrt.
    specialize (Hcheck (t, target)). cbv beta iota in Hcheck.
    rewrite andb_true_iff, !forallb_forall in Hcheck.
    destruct Hcheck as [_ Hbw].
    { apply list_elem_of_In, elem_of_lookup_imap. by exists t, target. }
    specialize (Hbw (matcher, i, info)). cbv beta iota in Hbw.
    rewrite !andb_true_iff in Hbw.
    destruct Hbw as [[[_ _] Hcount] _]; [by apply list_elem_of_In, elem_of_elements|].
    destruct (states nfa !! i) as [state|]; [|done].
    exists state. split; [done|]. by apply Nat.eqb_eq in Hcount.
Qed.

(** ** Group 0 under the backtracking executor *)

Lemma open_groups_lookup0 offset groups : ∀ captures captures',
  open_groups offset groups captures = Ok captures' →
  captures' !! 0%nat
  = if decide (0%nat ∈ groups) then Some (Some offset, 0) else captures !! 0%nat.
Proof.
  induction groups as [|g groups IH]; intros captures captures' H; simpl in H.
  - injection H as ->. case_decide as Hin; [by apply elem_of_nil in Hin|done].
  - apply bind_Ok in H as (c & Hg%deref_Ok & H). apply IH in H. rewrite H.
    destruct (decide (0%nat ∈ g :: groups)) as [Hin|Hnin];
      destruct (decide (0%nat ∈ groups)) as [Hin'|Hnin']; [done| | |].
    + apply elem_of_cons in Hin as [<-|Hin]; [|done].
      apply list_lookup_insert_eq. by eapply lookup_lt_Some.
    + exfalso. apply Hnin. by right.
    + apply list_lookup_insert_ne. intros ->. apply Hnin. by left.
Qed.

Lemma close_groups_lookup0 stop groups : ∀ captures captures' data size,
  close_groups stop groups captures = Ok captures' →
  captures !! 0%nat = Some (Some data, size) →
  captures' !! 0%nat
  = Some (Some data, if decide (0%nat ∈ groups)
                     then size_t_wrap (Z.of_nat stop - Z.of_nat data) else size).
Proof.
  induction groups as [|g groups IH]; intros captures captures' data size H H0; simpl in H.
  - injection H as ->. rewrite H0. case_decide as Hin; [by apply elem_of_nil in Hin|done].
  - apply bind_Ok in H as ([d sz] & Hg%deref_Ok & H).
    apply bind_Ok in H as (d' & ->%deref_Ok & H).
    destruct (decide (g = 0%nat)) as [->|Hne].
    + rewrite H0 in Hg. injection Hg as -> ->.
      eapply IH in H; [|apply list_lookup_insert_eq; by eapply lookup_lt_Some].
      rewrite H. rewrite (decide_True (P:=0%nat ∈ 0%nat :: groups)) by left.
      by destruct (decide (0%nat ∈ groups)).
    + eapply IH in H; [|by rewrite list_lookup_insert_ne].
      rewrite H.
      destruct (decide (0%nat ∈ g :: groups)) as [Hin|Hnin];
        destruct (decide (0%nat ∈ groups)) as [Hin'|Hnin']; [done| | |done].
      * apply elem_of_cons in Hin as [?|Hin]; [congruence|done].
      * exfalso. apply Hnin. by right.
Qed.

Section explore.
Variable nfa : NFA.
Variable eos : char.
Variable str : list char.

Lemma explore_loop_failure explore offset trans :
  (∀ state off s s', explore state off s = Ok (false, s') → s'.2 = s.2) →
  ∀ s s', explore_loop nfa eos str explore offset trans s = Ok (false, s') → s'.2 = s.2.
Proof.
  intros Hexplore. induction trans as [|[[matcher nextState] info] trans IH]; intros s s'; simpl.
  - by intros [= <-].
  - intros (m & _ & H)%bind_Ok.
    destruct (match_ eos m (drop offset str)); [|by apply IH].
    apply bind_Ok in H as (captures & Hcap & H).
    destruct (_ <? _)%nat; [done|].
    destruct (explore _ _ _) as [[[] s1]|] eqn:Hex; [done| |done].
    apply IH in H. apply Hexplore in Hex. simpl in *.
    rewrite H. destruct info; [done|]. rewrite Hex. by injection Hcap.
Qed.

Lemma exploreTransitions_failure fuel : ∀ state off s s',
  exploreTransitions nfa eos str fuel state off s = Ok (false, s') → s'.2 = s.2.
Proof.
  induction fuel as [|fuel IH]; intros state off s s'; simpl; [done|].
  intros (st & _ & H)%bind_Ok.
  destruct (_ && _); [done|].
  destruct (bool_decide _); [by injection H as <-|].
  by apply (explore_loop_failure _ _ _ IH) in H.
Qed.

Lemma exploreTransitions_state fuel state off s r :
  exploreTransitions nfa eos str fuel state off s = Ok r → is_Some (states nfa !! state).
Proof.
  destruct fuel as [|fuel]; simpl; [done|].
  intros (st & ->%deref_Ok & _)%bind_Ok. by eexists.
Qed.

Hypothesis Hframe : group0_frames nfa.
Hypothesis Hsize : Z.of_nat (List.length str) < 2 ^ 64.

Lemma entry_ok_step i st matcher m t info tgt offset s captures :
  states nfa !! i = Some st →
  (matcher, t, info) ∈ transitions st →
  states nfa !! t = Some tgt →
  entry_ok str st offset s →
  match info with
  | None => Ok s
  | Some info =>
      captures ← open_groups offset (begingroups info) s;
      close_groups (offset + length_ m) (endgroups info) captures
  end = Ok captures →
  (List.length (drop offset str) <? length_ m)%nat = false →
  entry_ok str tgt (offset + length_ m) captures.
Proof.
  intros Hi Htr Ht (Hoff & Hinit & Hstart & Hfinal) Hcap Hlen.
  destruct Hframe as [_ Hf].
  destruct (Hf i st matcher t info Hi Htr) as (Hopen & Hnf & Htgt).
  destruct (Htgt tgt Ht) as [Hti Htf].
  apply Nat.ltb_ge in Hlen. rewrite length_drop in Hlen.
  assert (Hstop : (offset + length_ m ≤ List.length str)%nat) by lia.
  assert (Hzero : ∃ size, captures !! 0%nat = Some (Some 0%nat, size)
                  ∧ (closes0 info → size = Z.of_nat (offset + length_ m))).
  { destruct info as [info|].
    - apply bind_Ok in Hcap as (c1 & Hopen1 & Hclose).
      apply open_groups_lookup0 in Hopen1.
      assert (∃ size, c1 !! 0%nat = Some (Some 0%nat, size)) as [size1 H1].
      { rewrite Hopen1. destruct (decide (0%nat ∈ begingroups info)) as [Hin|Hnin].
        - rewrite Hinit by by apply Hopen. by eexists.
        - apply Hstart. destruct (initialState st); [|done].
          exfalso. by apply Hnin, Hopen. }
      eapply close_groups_lookup0 in Hclose; [|done].
      eexists. split; [done|]. simpl. intros Hin. rewrite decide_True by done.
      unfold size_t_wrap. rewrite Z.mod_small; lia.
    - injection Hcap as <-. destruct Hstart as [size Hs].
      { destruct (initialState st); [|done]. exfalso. by apply Hopen. }
      exists size. by split. }
  destruct Hzero as (size & Hz & Hsz).
  repeat split; [done|congruence|by eexists|].
  intros Hfin. rewrite Hz, Hsz; [done|]. by apply Htf.
Qed.

Lemma explore_loop_success explore offset i st trans :
  (∀ state off s r, explore state off s = Ok r → is_Some (states nfa !! state)) →
  (∀ state off s s', explore state off s = Ok (false, s') → s'.2 = s.2) →
  (∀ state st off s s',
     states nfa !! state = Some st → entry_ok str st off s.2 →
     explore state off s = Ok (true, s') →
     s'.2 !! 0%nat = Some (Some 0%nat, Z.of_nat (List.length str))) →
  states nfa !! i = Some st →
  (∀ tr, tr ∈ trans → tr ∈ transitions st) →
  ∀ s s',
    entry_ok str st offset s.2 →
    explore_loop nfa eos str explore offset trans s = Ok (true, s') →
    s'.2 !! 0%nat = Some (Some 0%nat, Z.of_nat (List.length str)).
Proof.
  intros Hstate Hfail Hsucc Hi.
  induction trans as [|[[matcher t] info] trans IH]; intros Hsub s s' Hentry; simpl; [done|].
  intros (m & _ & H)%bind_Ok.
  assert (Hsub' : ∀ tr, tr ∈ trans → tr ∈ transitions st).
  { intros tr Htr. apply Hsub. by right. }
  destruct (match_ eos m (drop offset str)); [|by apply (IH Hsub' s)].
  apply bind_Ok in H as (captures & Hcap & H).
  destruct (_ <? _)%nat eqn:Hlen; [done|].
  destruct (explore _ _ _) as [[[] s1]|] eqn:Hex; [| |done].
  - injection H as <-.
    destruct (Hstate _ _ _ _ Hex) as [tgt Ht].
    eapply (Hsucc _ _ _ _ _ Ht); [|exact Hex]. simpl.
    apply (entry_ok_step i st matcher m t info tgt offset s.2 captures Hi); try done.
    apply Hsub. by left.
  - apply (IH Hsub') in H; [done|]. simpl.
    destruct info; [done|].
    apply Hfail in Hex. simpl in Hex. rewrite Hex. by injection Hcap as <-.
Qed.

Lemma exploreTransitions_success fuel : ∀ state st off s s',
  states nfa !! state = Some st → entry_ok str st off s.2 →
  exploreTransitions nfa eos str fuel state off s = Ok (true, s') →
  s'.2 !! 0%nat = Some (Some 0%nat, Z.of_nat (List.length str)).
Proof.
  induction fuel as [|fuel IH]; intros state st off s s' Hst Hentry; simpl; [done|].
  rewrite Hst. simpl.
  destruct (bool_decide (drop off str = [])) eqn:Hdrop; simpl.
  - destruct (finalState st) eqn:Hfin.
    + intros [= <-]. destruct Hentry as (Hoff & _ & _ & Hfinal).
      rewrite Hfinal by done. apply bool_decide_eq_true in Hdrop.
      apply (f_equal List.length) in Hdrop. rewrite length_drop in Hdrop. simpl in Hdrop.
      do 3 f_equal. lia.
    + destruct (bool_decide ((state, off) ∈ s.1)); [intros [=]|].
      intros Hloop.
      exact (explore_loop_success _ off state st (transitions st)
               (exploreTransitions_state fuel) (exploreTransitions_failure fuel) IH
               Hst (λ tr H, H) ({[(state, off)]} ∪ s.1, s.2) s' Hentry Hloop).
  - destruct (bool_decide ((state, off) ∈ s.1)); [intros [=]|].
    intros Hloop.
    exact (explore_loop_success _ off state st (transitions st)
             (exploreTransitions_state fuel) (exploreTransitions_failure fuel) IH
             Hst (λ tr H, H) ({[(state, off)]} ∪ s.1, s.2) s' Hentry Hloop).
Qed.

Lemma simulate_loop_group0 l : ∀ s captures,
  (∀ i st, (i, st) ∈ l → states nfa !! i = Some st) →
  simulate_loop nfa eos str l s = Ok captures →
  captures ≠ [] →
  captures !! 0%nat = Some (Some 0%nat, Z.of_nat (List.length str)).
Proof.
  induction l as [|[i st] l IH]; intros s captures Hl; cbn [simulate_loop].
  { by intros [= <-]. }
  assert (Hl' : ∀ i st, (i, st) ∈ l → states nfa !! i = Some st).
  { intros i' st' Hin. apply Hl. by right. }
  destruct (initialState st) eqn:Hinit; [|by apply IH].
  destruct (exploreTransitions nfa eos str (simulate_fuel nfa str) i 0 s)
    as [[[] s1]|] eqn:Hex; [| |intros [=]].
  - intros Heq _. assert (captures = s1.2) as -> by congruence.
    apply (exploreTransitions_success (simulate_fuel nfa str) i st 0%nat s s1);
      [by apply Hl; left| |done].
    destruct Hframe as [Hif _]. repeat split; [lia| |].
    + intros Hni. congruence.
    + intros Hfin. rewrite (Hif i st) in Hfin; [done|by apply Hl; left|done].
  - by apply IH.
Qed.

Theorem simulate_group0 captures :
  simulate nfa eos str = Ok captures →
  captures ≠ [] →
  captures !! 0%nat = Some (Some 0%nat, Z.of_nat (List.length str)).
Proof.
  apply simulate_loop_group0.
  intros i st (i' & st' & [= -> ->] & Hi)%elem_of_lookup_imap. done.
Qed.
End explore.

(** ** The lowering keeps the frame of group 0 *)

Lemma lowered_frames nfa : lowered nfa → group0_frames nfa.
Proof.
  intros (_ & _ & Hflags & Htrans). split.
  - intros i st Hi Hinit. destruct (Hflags i st Hi) as [Hi0 Hi1].
    apply Hi0 in Hinit as ->. destruct (finalState st); [|done].
    by destruct Hi1 as [Hi1 _]; specialize (Hi1 eq_refl).
  - intros i st m t info Hi Htr.
    destruct (Htrans i st m t info Hi Htr) as (Ho & Hc & Ht0 & Hi1).
    destruct (Hflags i st Hi) as [Hinit Hfin].
    split; [by rewrite Ho, Hinit|]. split.
    + destruct (finalState st); [|done]. exfalso. by apply Hi1, Hfin.
    + intros tgt Ht. destruct (Hflags t tgt Ht) as [Htinit Htfin]. split.
      * destruct (initialState tgt); [|done]. exfalso. by apply Ht0, Htinit.
      * intros Hf. by apply Hc, Htfin.
Qed.

Lemma newState_lowered nfa x nfa' :
  newState nfa = (x, nfa') → lowered nfa → lowered nfa' ∧ (2 ≤ x)%nat.
Proof.
  unfold newState. intros [= <- <-] (Hlen & Hgroups & Hflags & Htrans).
  split; [|done]. unfold lowered. simpl. rewrite length_app. simpl.
  split; [lia|]. split; [done|]. split.
  - intros i st [[_ Hi]|[Hi [= <-]]]%lookup_snoc_Some; [by apply Hflags|]. simpl.
    subst i. split; (split; [done|intros; exfalso; lia]).
  - intros i st m t info [[_ Hi]|[Hi [= <-]]]%lookup_snoc_Some Htr; [by eapply Htrans|].
    simpl in Htr. by apply elem_of_nil in Htr.
Qed.

Lemma newGroup_lowered nfa g nfa' :
  newGroup nfa = (g, nfa') → lowered nfa → lowered nfa' ∧ g ≠ 0%nat.
Proof.
  unfold newGroup. intros [= <- <-] (Hlen & Hgroups & Hflags & Htrans).
  split; [|lia]. unfold lowered. simpl. repeat split; try done; try lia.
  all: try (by eapply Hflags). all: by eapply Htrans.
Qed.

Lemma elem_of_set_emplace x g l : x ∈ set_emplace g l ↔ x = g ∨ x ∈ l.
Proof.
  induction l as [|y l IH]; simpl.
  - rewrite list_elem_of_singleton. rewrite elem_of_nil. tauto.
  - destruct (g <? y)%nat eqn:Hlt; [by rewrite elem_of_cons|].
    destruct (g =? y)%nat eqn:Heq.
    + apply Nat.eqb_eq in Heq as ->. rewrite elem_of_cons. tauto.
    + rewrite !elem_of_cons, IH. tauto.
Qed.

Lemma addTransition_lowered matcher fromState toState opengroups closegroups nfa nfa' :
  addTransition matcher fromState toState opengroups closegroups nfa = Ok nfa' →
  lowered nfa →
  opens_ok opengroups fromState → closes_ok closegroups toState →
  fromState ≠ 1%nat → toState ≠ 0%nat →
  lowered nfa'.
Proof.
  unfold addTransition.
  intros (from & Hfrom%deref_Ok & H)%bind_Ok (Hlen & Hgroups & Hflags & Htrans) Ho Hc Hf1 Ht0.
  apply bind_Ok in H as (to & Hto%deref_Ok & H).
  apply bind_Ok in H as (_ & _ & [= <-]).
  simpl in *.
  set (info := make_info opengroups closegroups) in *.
  assert (Hinfo : (opens0 info ↔ 0%nat ∈ opengroups) ∧ (0%nat ∈ closegroups → closes0 info)).
  { subst info. destruct opengroups, closegroups; simpl; split; try done.
    all: rewrite elem_of_nil; tauto. }
  assert (Hshape : ∀ i st,
    <[toState:=set_rtransitions
                 ({[(List.length (matchers nfa), fromState, info)]} ∪ rtransitions to) to]>
      (<[fromState:=set_transitions
                      (transitions from ++ [(List.length (matchers nfa), toState, info)]) from]>
         (states nfa)) !! i = Some st →
    ∃ st0, states nfa !! i = Some st0
           ∧ initialState st = initialState st0 ∧ finalState st = finalState st0
           ∧ (transitions st = transitions st0
              ∨ (i = fromState
                 ∧ transitions st = transitions st0
                                    ++ [(List.length (matchers nfa), toState, info)]))).
  { intros i st [(-> & <- & _)|[Hne Hi]]%list_lookup_insert_Some.
    - apply list_lookup_insert_Some in Hto as [(-> & <- & _)|[Hne Hto]].
      + exists from. simpl. repeat split; try done. by right.
      + exists to. simpl. repeat split; try done. by left.
    - apply list_lookup_insert_Some in Hi as [(-> & <- & _)|[Hne' Hi]].
      + exists from. simpl. repeat split; try done. by right.
      + exists st. repeat split; try done. by left. }
  unfold lowered. simpl. rewrite !length_insert.
  split; [done|]. split; [done|]. split.
  - intros i st (st0 & Hi & -> & -> & _)%Hshape. by apply Hflags.
  - intros i st m t inf (st0 & Hi & _ & _ & Htr)%Hshape Hin.
    destruct Htr as [Htr|[-> Htr]]; rewrite Htr in Hin; [by eapply Htrans|].
    apply elem_of_app in Hin as [Hin|[= -> -> ->]%list_elem_of_singleton]; [by eapply Htrans|].
    destruct Hinfo as [Hio Hic]. split; [by rewrite Hio|]. split; [|done].
    intros ->. by apply Hic, Hc.
Qed.

Lemma ASTtoNFA_unfold ast optimize_ :
  ASTtoNFA ast optimize_
  = (nfa ← _ASTtoNFA (root ast) 0 1 [0%nat] [0%nat] initial_nfa;
     nfa ← (if negb (anchorBegin ast)
            then addTransition UniversalMatcher 0 0 [] [] nfa else Ok nfa);
     nfa ← (if negb (anchorEnd ast)
            then addTransition UniversalMatcher 1 1 [] [] nfa else Ok nfa);
     nfa ← (if optimize_ then optimize nfa else Ok nfa);
     _ ← assert (check nfa);
     Ok nfa).
Proof. reflexivity. Qed.

Lemma initial_lowered : lowered initial_nfa.
Proof.
  split; [simpl; lia|]. split; [simpl; lia|]. split.
  - intros [|[|i]] st; simpl; intros [= <-]; simpl; done.
  - intros [|[|i]] st m t info; simpl; intros [= <-]; simpl; intros Hin;
      by apply elem_of_nil in Hin.
Qed.

#[local] Opaque newState newGroup addTransition.

(** Induction on the tree, with the hypothesis for every child of a node
    that has several. *)
Lemma ASTNode_ind' (P : ASTNode → Prop) :
  (∀ m, P (Leaf m)) →
  (∀ capture child, P child → P (BracketNode capture child)) →
  (∀ greedy child, P child → P (KleeneStarNode greedy child)) →
  (∀ greedy child, P child → P (OneOrMoreNode greedy child)) →
  (∀ greedy child, P child → P (OneOrNoneNode greedy child)) →
  (∀ greedy min max unbounded child, P child →
     P (MultiplyNode greedy min max unbounded child)) →
  (∀ childs, Forall P childs → P (ConcatenationNode childs)) →
  (∀ childs, Forall P childs → P (DisjunctionNode childs)) →
  ∀ n, P n.
Proof.
  intros HLeaf HBracket HStar HPlus HOpt HMul HConcat HDisj.
  fix IH 1. intros [m|capture child|greedy child|greedy child|greedy child
                    |greedy min max unbounded child|childs|childs].
  - apply HLeaf.
  - apply HBracket, IH.
  - apply HStar, IH.
  - apply HPlus, IH.
  - apply HOpt, IH.
  - apply HMul, IH.
  - apply HConcat. induction childs as [|child childs IHchilds]; constructor; [apply IH|done].
  - apply HDisj. induction childs as [|child childs IHchilds]; constructor; [apply IH|done].
Qed.

Lemma chain_ok_opens opengroups begin i newbegin :
  opens_ok opengroups begin → chain_ok begin i newbegin →
  opens_ok (if i =? 0 then opengroups else []) newbegin.
Proof.
  intros Ho [Hi [[-> ->]|[Hne Hnb]]]; [done|].
  rewrite (proj2 (Z.eqb_neq i 0) Hne). split.
  - intros Hin. by apply elem_of_nil in Hin.
  - intros ->. lia.
Qed.

Lemma chain_ok_ne begin i newbegin :
  begin ≠ 1%nat → chain_ok begin i newbegin → newbegin ≠ 1%nat.
Proof. intros Hb [Hi [[-> ->]|[Hne Hnb]]]; [done|lia]. Qed.

Lemma chain_ok_next begin i newbegin newend :
  chain_ok begin i newbegin → (2 ≤ newend)%nat → chain_ok begin (i + 1) newend.
Proof. intros [Hi _] Hx. split; [lia|]. right. split; [lia|done]. Qed.

Lemma opens_ok_nil x : (2 ≤ x)%nat → opens_ok [] x.
Proof.
  intros Hx. split; [intros Hin; by apply elem_of_nil in Hin|intros ->; lia].
Qed.

Lemma closes_ok_nil x : (2 ≤ x)%nat → closes_ok [] x.
Proof. intros Hx ->. lia. Qed.

Ltac side :=
  first [ assumption
        | lia
        | apply opens_ok_nil; assumption
        | apply closes_ok_nil; assumption
        | eapply chain_ok_opens; eassumption
        | eapply chain_ok_ne; eassumption ].

Lemma multiply_chain_lowers lower begin opengroups count :
  lowers lower → opens_ok opengroups begin → begin ≠ 1%nat →
  ∀ i newbegin nfa i' newbegin' nfa',
    multiply_chain lower count i newbegin opengroups nfa = Ok (i', newbegin', nfa') →
    lowered nfa → chain_ok begin i newbegin →
    lowered nfa' ∧ chain_ok begin i' newbegin'.
Proof.
  intros Hlower Ho Hb. unfold lowers in Hlower. induction count as [|count IH];
    intros i newbegin nfa i' newbegin' nfa' H Hlow Hchain; cbn in H.
  - by injection H as <- <- <-.
  - destruct (newState nfa) as [newend nfa1] eqn:Hns.
    apply newState_lowered in Hns as [Hlow1 Hx]; [|done].
    apply bind_Ok in H as (nfa2 & H1 & H).
    apply Hlower in H1; [|side..].
    eapply IH; [exact H|done|by eapply chain_ok_next].
Qed.

Lemma multiply_bounded_lowers lower begin end_ opengroups closegroups greedy min count :
  lowers lower → opens_ok opengroups begin → closes_ok closegroups end_ →
  begin ≠ 1%nat → end_ ≠ 0%nat →
  ∀ i newbegin nfa i' newbegin' nfa',
    multiply_bounded lower count i newbegin greedy min end_ opengroups closegroups nfa
    = Ok (i', newbegin', nfa') →
    lowered nfa → chain_ok begin i newbegin →
    lowered nfa' ∧ chain_ok begin i' newbegin'.
Proof.
  intros Hlower Ho Hc Hb He. unfold lowers in Hlower. induction count as [|count IH];
    intros i newbegin nfa i' newbegin' nfa' H Hlow Hchain; cbn in H.
  - by injection H as <- <- <-.
  - destruct (newState nfa) as [newend nfa1] eqn:Hns.
    apply newState_lowered in Hns as [Hlow1 Hx]; [|done].
    apply bind_Ok in H as (nfa2 & H1 & H).
    assert (lowered nfa2) as Hlow2.
    { destruct greedy.
      - apply bind_Ok in H1 as (nfa3 & H1 & H2).
        apply Hlower in H1; [|side..].
        destruct (min <=? i); [|by injection H2 as <-].
        apply addTransition_lowered in H2; [done|side..].
      - apply bind_Ok in H1 as (nfa3 & H1 & H2).
        apply Hlower in H2; [done| |side..].
        destruct (min <=? i); [|by injection H1 as <-].
        apply addTransition_lowered in H1; [done|side..]. }
    eapply IH; [exact H|done|by eapply chain_ok_next].
Qed.

Lemma concatenation_loop_lowers lower begin end_ opengroups closegroups childs :
  Forall (λ child, lowers (lower child)) childs →
  opens_ok opengroups begin → closes_ok closegroups end_ →
  begin ≠ 1%nat → end_ ≠ 0%nat →
  ∀ i newbegin nfa nfa',
    concatenation_loop lower end_ opengroups closegroups childs i newbegin nfa = Ok nfa' →
    lowered nfa →
    (i = 0%nat ∧ newbegin = begin) ∨ (i ≠ 0%nat ∧ (2 ≤ newbegin)%nat) →
    lowered nfa'.
Proof.
  intros Hchilds Ho Hc Hb He.
  induction Hchilds as [|child rest Hchild _ IH]; intros i newbegin nfa nfa' H Hlow Hpos;
    cbn in H.
  - by injection H as <-.
  - unfold lowers in Hchild. assert (Hopen : opens_ok (if Nat.eqb i 0 then opengroups else []) newbegin).
    { destruct Hpos as [[-> ->]|[Hi Hnb]]; [done|].
      rewrite (proj2 (Nat.eqb_neq i 0) Hi). by apply opens_ok_nil. }
    assert (Hnb1 : newbegin ≠ 1%nat).
    { destruct Hpos as [[-> ->]|[Hi Hnb]]; [done|lia]. }
    destruct rest as [|child' rest].
    + apply bind_Ok in H as (nfa1 & H1 & H). injection H as <-.
      by apply Hchild in H1.
    + destruct (newState nfa) as [newend nfa1] eqn:Hns.
      apply newState_lowered in Hns as [Hlow1 Hx]; [|done].
      apply bind_Ok in H as (nfa2 & H1 & H).
      apply Hchild in H1; [|side..].
      apply IH in H; [done|done|]. right. split; [lia|done].
Qed.

Lemma disjunction_loop_lowers lower begin end_ opengroups closegroups childs :
  Forall (λ child, lowers (lower child)) childs →
  opens_ok opengroups begin → closes_ok closegroups end_ →
  begin ≠ 1%nat → end_ ≠ 0%nat →
  ∀ nfa nfa',
    disjunction_loop lower begin end_ opengroups closegroups childs nfa = Ok nfa' →
    lowered nfa → lowered nfa'.
Proof.
  intros Hchilds Ho Hc Hb He.
  induction Hchilds as [|child rest Hchild _ IH]; intros nfa nfa' H Hlow; cbn in H.
  - by injection H as <-.
  - unfold lowers in Hchild. apply bind_Ok in H as (nfa1 & H1 & H).
    apply Hchild in H1; [|done..]. by apply IH in H.
Qed.

Ltac lower_step IH :=
  match goal with
  | H : context [newState ?nfa] |- _ =>
      let x := fresh "x" in
      let n := fresh "nfa" in
      let Hns := fresh "Hns" in
      destruct (newState nfa) as [x n] eqn:Hns;
      apply newState_lowered in Hns as [? ?]; [|assumption]
  | H : (if ?b then _ else _) = Ok _ |- _ => destruct b eqn:?
  | H : (_ ≫= _) = Ok _ |- _ =>
      let n := fresh "nfa" in
      let H1 := fresh "H" in
      apply bind_Ok in H as (n & H1 & H)
  | H : addTransition _ _ _ _ _ _ = Ok _ |- _ =>
      apply addTransition_lowered in H; [|side..]
  | H : _ASTtoNFA _ _ _ _ _ _ = Ok _ |- _ =>
      apply IH in H; [|side..]
  end.

Lemma _ASTtoNFA_lowers root : lowers (_ASTtoNFA root).
Proof.
  induction root as [m|capture child IH|greedy child IH|greedy child IH|greedy child IH
                     |greedy min max unbounded child IH|childs IH|childs IH]
    using ASTNode_ind';
    intros begin end_ opengroups closegroups nfa nfa' H Hlow Ho Hc Hb He;
    try unfold lowers in IH; cbn in H.
  - by eapply addTransition_lowered.
  - destruct capture.
    + destruct (newGroup nfa) as [g nfa1] eqn:Hg.
      apply newGroup_lowered in Hg as [Hlow1 Hg]; [|done].
      eapply IH; [exact H|done| | |done|done].
      * unfold opens_ok in *. rewrite elem_of_set_emplace. split.
        -- intros [?|Hin]; [congruence|by apply Ho].
        -- intros ->. right. by apply Ho.
      * intros ->. apply elem_of_set_emplace. right. by apply Hc.
    + by eapply IH.
  - repeat lower_step IH; done.
  - repeat lower_step IH; done.
  - repeat lower_step IH; done.
  - apply bind_Ok in H as ([[i newbegin] nfa1] & H1 & H).
    assert (lowered nfa1 ∧ chain_ok begin i newbegin) as [Hlow1 Hchain].
    { destruct (negb (min =? 0)).
      - eapply multiply_chain_lowers; [exact IH|done|done|exact H1|done|].
        split; [lia|by left].
      - injection H1 as <- <- <-. split; [done|]. split; [lia|by left]. }
    clear H1. destruct (exact min max unbounded).
    { repeat lower_step IH; done. }
    destruct unbounded.
    { destruct (min =? 0); [repeat lower_step IH; done|].
      destruct (min =? 1); [repeat lower_step IH; done|].
      destruct (newState nfa1) as [newend nfa2] eqn:Hns.
      apply newState_lowered in Hns as [Hlow2 Hx]; [|done].
      apply bind_Ok in H as (u & Hassert%assert_Ok & H).
      apply negb_true_iff, Z.eqb_neq in Hassert.
      destruct Hchain as [_ [[? _]|[_ Hnb]]]; [done|].
      repeat lower_step IH; done. }
    apply bind_Ok in H as ([[j newbegin2] nfa2] & H1 & H).
    eapply multiply_bounded_lowers in H1 as [Hlow2 Hchain2]; [|exact IH|done..].
    repeat lower_step IH; done.
  - by eapply concatenation_loop_lowers; [exact IH| | | | |exact H|..]; try done; left.
  - by eapply disjunction_loop_lowers.
Qed.

(** The NFA of a pattern anchored at both ends, before [NFA::optimize]. *)
Lemma anchored_lowered ast nfa :
  anchorBegin ast = true → anchorEnd ast = true →
  _ASTtoNFA (root ast) 0 1 [0%nat] [0%nat] initial_nfa = Ok nfa →
  lowered nfa.
Proof.
  intros Hb He H. eapply _ASTtoNFA_lowers; [exact H|apply initial_lowered|..]; try done.
  - split; [done|]. intros _. left.
  - intros _. left.
Qed.

(** ** The NFA optimizer keeps the frame of group 0 *)

Lemma remove_node_lookup i j nfa nfa' k' st' :
  remove_node i j nfa = Ok nfa' →
  states nfa' !! k' = Some st' →
  ∃ k st,
    states nfa !! k = Some st ∧ k ≠ i ∧ k' = (if (k <? i)%nat then k else (k - 1)%nat)
    ∧ initialState st' = initialState st ∧ finalState st' = finalState st
    ∧ (∀ m t' info, (m, t', info) ∈ transitions st' →
         ∃ t, (m, t, info) ∈ transitions st ∧ t' = renumber i j t
              ∧ (i = j → t ≠ i)).
Proof.
  unfold remove_node. intros (u & Hassert%assert_Ok & [= <-])%bind_Ok. simpl.
  rewrite list_lookup_fmap, list_lookup_delete.
  destruct (decide (k' < i)%nat) as [Hlt|Hge].
  - destruct (states nfa !! k') as [st|] eqn:Hk; [|done]. simpl. intros [= <-].
    exists k', st. split; [done|]. split; [lia|].
    split; [by rewrite (proj2 (Nat.ltb_lt _ _) Hlt)|].
    split; [done|]. split; [done|]. simpl.
    intros m t' info ([[m0 t] info0] & Heq & Hin)%list_elem_of_fmap.
    exists t.
    assert ((m, t', info) = (m0, renumber i j t, info0)) as [= -> -> ->].
    { rewrite Heq. unfold renumber.
      destruct (i <? t)%nat; [done|]. by destruct (Nat.eqb t i). }
    split; [done|]. split; [done|].
    intros <-. apply orb_true_iff in Hassert as [Hu|Hall].
    { by rewrite Nat.eqb_refl in Hu. }
    rewrite forallb_forall in Hall.
    specialize (Hall st). rewrite andb_true_iff in Hall.
    destruct Hall as [Hall _].
    { apply list_elem_of_In, list_elem_of_lookup. exists k'.
      by rewrite list_lookup_delete, decide_True. }
    rewrite forallb_forall in Hall. specialize (Hall _ (proj1 (list_elem_of_In _ _) Hin)).
    simpl in Hall. apply negb_true_iff, Nat.eqb_neq in Hall. done.
  - destruct (states nfa !! S k') as [st|] eqn:Hk; [|done]. simpl. intros [= <-].
    exists (S k'), st. split; [done|]. split; [lia|].
    split.
    { rewrite (proj2 (Nat.ltb_ge _ _)) by lia. lia. }
    split; [done|]. split; [done|]. simpl.
    intros m t' info ([[m0 t] info0] & Heq & Hin)%list_elem_of_fmap.
    exists t.
    assert ((m, t', info) = (m0, renumber i j t, info0)) as [= -> -> ->].
    { rewrite Heq. unfold renumber.
      destruct (i <? t)%nat; [done|]. by destruct (Nat.eqb t i). }
    split; [done|]. split; [done|].
    intros <-. apply orb_true_iff in Hassert as [Hu|Hall].
    { by rewrite Nat.eqb_refl in Hu. }
    rewrite forallb_forall in Hall.
    specialize (Hall st). rewrite andb_true_iff in Hall.
    destruct Hall as [Hall _].
    { apply list_elem_of_In, list_elem_of_lookup. exists k'.
      by rewrite list_lookup_delete, decide_False. }
    rewrite forallb_forall in Hall. specialize (Hall _ (proj1 (list_elem_of_In _ _) Hin)).
    simpl in Hall. apply negb_true_iff, Nat.eqb_neq in Hall. done.
Qed.

Lemma remove_node_frames i j nfa nfa' :
  remove_node i j nfa = Ok nfa' →
  group0_frames nfa →
  (i ≠ j → ∀ stj, states nfa !! j = Some stj →
             initialState stj = false ∧ finalState stj = false) →
  group0_frames nfa'.
Proof.
  intros Hrem [Hif Htr] Hj. split.
  - intros k' st' Hk' Hinit.
    destruct (remove_node_lookup _ _ _ _ _ _ Hrem Hk') as (k & st & Hk & _ & _ & Hi & Hf & _).
    rewrite Hf. apply (Hif k st Hk). by rewrite <- Hi.
  - intros k' st' m t' info Hk' Hin.
    destruct (remove_node_lookup _ _ _ _ _ _ Hrem Hk')
      as (k & st & Hk & Hki & Hidx & Hi & Hf & Htrans).
    destruct (Htrans m t' info Hin) as (t & Hin0 & Ht' & Hunique).
    destruct (Htr k st m t info Hk Hin0) as (Hopen & Hfin & Htgt).
    split; [by rewrite Hi|]. split; [by rewrite Hf|].
    intros tgt' Htgt'.
    destruct (remove_node_lookup _ _ _ _ _ _ Hrem Htgt')
      as (k2 & st2 & Hk2 & Hk2i & Hidx2 & Hi2 & Hf2 & _).
    rewrite Hi2, Hf2.
    destruct (decide (t = i)) as [->|Hti].
    + destruct (decide (i = j)) as [<-|Hij]; [by destruct Hunique|].
      assert (k2 = j) as ->.
      { unfold renumber in Ht'. rewrite Nat.ltb_irrefl, Nat.eqb_refl in Ht'.
        rewrite Hidx2 in Ht'. revert Ht'.
        destruct (Nat.ltb_spec i j), (Nat.ltb_spec k2 i); lia. }
      destruct (Hj Hij st2 Hk2) as [-> ->]. by split.
    + assert (k2 = t) as ->.
      { unfold renumber in Ht'. rewrite (proj2 (Nat.eqb_neq t i)) in Ht' by done.
        rewrite Hidx2 in Ht'. revert Ht'.
        destruct (Nat.ltb_spec i t), (Nat.ltb_spec k2 i); lia. }
      by apply Htgt.
Qed.

Lemma elem_of_take_or_drop {A} (x : A) n k l : x ∈ take n l ∨ x ∈ drop k l → x ∈ l.
Proof.
  intros [Hin|Hin].
  - rewrite <- (take_drop n l). apply elem_of_app. by left.
  - rewrite <- (take_drop k l). apply elem_of_app. by right.
Qed.

Lemma find_index_elem x l idx : find_index x l = Some idx → x ∈ l.
Proof.
  revert idx. induction l as [|y l IH]; intros idx; simpl; [done|].
  case_bool_decide as Hyx; [intros _; subst; by left|].
  destruct (find_index x l); [|done]. intros _. right. by eapply IH.
Qed.

Lemma merge_into_predecessor_frames i nfa nfa' :
  merge_into_predecessor i nfa = Ok nfa' → group0_frames nfa → group0_frames nfa'.
Proof.
  unfold merge_into_predecessor.
  intros (state & Hi%deref_Ok & H)%bind_Ok Hframes.
  destruct (elements (rtransitions state)) as [|[[matcher j] info] [|]].
  - destruct (negb (initialState state)); [|by injection H as <-].
    apply (remove_node_frames i i nfa nfa' H Hframes). intros Hne. by destruct Hne.
  - destruct (negb (initialState state)) eqn:Hinit; [|by injection H as <-].
    apply negb_true_iff in Hinit.
    apply bind_Ok in H as (m & _ & H).
    destruct (is_EpsilonMatcher m && bool_decide (info = None)) eqn:Heps;
      [|by injection H as <-].
    apply andb_true_iff in Heps as [_ ->%bool_decide_eq_true].
    apply bind_Ok in H as (pred & Hj%deref_Ok & H).
    destruct (find_index (matcher, i, None) (transitions pred)) as [idx|] eqn:Hidx; [|done].
    apply find_index_elem in Hidx as Hpred.
    destruct (Nat.eqb i j) eqn:Hij; [done|]. apply Nat.eqb_neq in Hij.
    destruct Hframes as [Hif Htr].
    destruct (Htr j pred matcher i None Hj Hpred) as (Hopen & Hpf & _).
    assert (Hpi : initialState pred = false).
    { destruct (initialState pred); [|done]. exfalso. by apply Hopen. }
    apply (remove_node_frames i j _ nfa' H).
    + split.
      * intros k st [(<- & <- & _)|[Hne Hk]]%list_lookup_insert_Some; simpl; [done|].
        by apply (Hif k).
      * assert (Hflags : ∀ t tgt,
          <[j:=set_transitions (take idx (transitions pred) ++ transitions state
                                ++ drop (S idx) (transitions pred)) pred]> (states nfa) !! t
          = Some tgt →
          ∃ tgt0, states nfa !! t = Some tgt0 ∧ initialState tgt = initialState tgt0
                  ∧ finalState tgt = finalState tgt0).
        { intros t tgt [(<- & <- & _)|[Hne Ht]]%list_lookup_insert_Some; by eexists. }
        intros k st m0 t inf [(<- & <- & _)|[Hne Hk]]%list_lookup_insert_Some Hin; simpl in *.
        -- assert ((m0, t, inf) ∈ transitions pred ∨ (m0, t, inf) ∈ transitions state)
             as [Hin'|Hin'].
           { apply elem_of_app in Hin as [Hin|Hin].
             - left. apply (elem_of_take_or_drop _ idx 0). by left.
             - apply elem_of_app in Hin as [Hin|Hin]; [by right|].
               left. apply (elem_of_take_or_drop _ 0 (S idx)). by right. }
           ++ destruct (Htr j pred m0 t inf Hj Hin') as (Ho & Hf & Ht).
              split; [done|]. split; [done|].
              intros tgt (tgt0 & Ht0 & -> & ->)%Hflags. by apply Ht.
           ++ destruct (Htr i state m0 t inf Hi Hin') as (Ho & Hf & Ht).
              split; [by rewrite Ho, Hinit, Hpi|]. split; [done|].
              intros tgt (tgt0 & Ht0 & -> & ->)%Hflags. by apply Ht.
        -- destruct (Htr k st m0 t inf Hk Hin) as (Ho & Hf & Ht).
           split; [done|]. split; [done|].
           intros tgt (tgt0 & Ht0 & -> & ->)%Hflags. by apply Ht.
    + intros _ stj [(_ & <- & _)|[Hne Hk]]%list_lookup_insert_Some; simpl; [done|].
      congruence.
  - by injection H as <-.
Qed.

Lemma merge_into_successor_frames i nfa nfa' :
  merge_into_successor i nfa = Ok nfa' → group0_frames nfa → group0_frames nfa'.
Proof.
  unfold merge_into_successor.
  intros (state & Hi%deref_Ok & H)%bind_Ok Hframes.
  destruct (transitions state) as [|[[matcher j] info] [|]] eqn:Htrans.
  - destruct (negb (finalState state)); [|by injection H as <-].
    apply (remove_node_frames i i nfa nfa' H Hframes). intros Hne. by destruct Hne.
  - destruct (negb (finalState state)); [|by injection H as <-].
    apply bind_Ok in H as (m & _ & H).
    destruct (is_EpsilonMatcher m && bool_decide (info = None)) eqn:Heps;
      [|by injection H as <-].
    apply andb_true_iff in Heps as [_ ->%bool_decide_eq_true].
    apply bind_Ok in H as (succ & Hj%deref_Ok & H).
    apply bind_Ok in H as (u & _ & H).
    destruct (Nat.eqb i j); [done|].
    destruct Hframes as [Hif Htr].
    destruct (Htr i state matcher j None Hi) as (_ & _ & Htgt).
    { rewrite Htrans. by left. }
    destruct (Htgt succ Hj) as [Hsi Hsf].
    assert (Hflags : ∀ t tgt,
      <[j:=set_rtransitions (rtransitions succ ∖ {[(matcher, i, None)]} ∪ rtransitions state)
             succ]> (states nfa) !! t = Some tgt →
      ∃ tgt0, states nfa !! t = Some tgt0 ∧ initialState tgt = initialState tgt0
              ∧ finalState tgt = finalState tgt0 ∧ transitions tgt = transitions tgt0).
    { intros t tgt [(<- & <- & _)|[Hne Ht]]%list_lookup_insert_Some; by eexists. }
    apply (remove_node_frames i j _ nfa' H).
    + split.
      * intros k st (st0 & Hk & -> & -> & _)%Hflags. by apply (Hif k).
      * intros k st m0 t inf (st0 & Hk & -> & -> & ->)%Hflags Hin.
        destruct (Htr k st0 m0 t inf Hk Hin) as (Ho & Hf & Ht).
        split; [done|]. split; [done|].
        intros tgt (tgt0 & Ht0 & -> & -> & _)%Hflags. by apply Ht.
    + intros _ stj (st0 & Hk & -> & -> & _)%Hflags.
      assert (st0 = succ) as -> by congruence.
      split; [done|]. destruct (finalState succ); [|done]. by destruct Hsf.
  - by injection H as <-.
Qed.

Lemma downward_frames body n :
  (∀ i nfa nfa', body i nfa = Ok nfa' → group0_frames nfa → group0_frames nfa') →
  ∀ nfa nfa', downward body n nfa = Ok nfa' → group0_frames nfa → group0_frames nfa'.
Proof.
  intros Hbody. induction n as [|n IH]; intros nfa nfa'; simpl.
  - by intros [= <-].
  - intros (nfa1 & H1 & H)%bind_Ok Hframes. eapply IH; [exact H|]. by eapply Hbody.
Qed.

Lemma optimize_frames nfa nfa' :
  optimize nfa = Ok nfa' → group0_frames nfa → group0_frames nfa'.
Proof.
  unfold optimize. intros (nfa1 & H1 & H)%bind_Ok Hframes.
  eapply (downward_frames _ _ merge_into_successor_frames); [exact H|].
  by eapply (downward_frames _ _ merge_into_predecessor_frames).
Qed.

(** [buildAST] returns the flags the anchor lambda computed. *)
Lemma buildAST_anchors regex optimize_ ast :
  buildAST regex optimize_ = Ok ast →
  (anchorBegin ast, anchorEnd ast) = (anchors regex).1.
Proof.
  unfold buildAST. destruct (anchors regex) as [[anchorbegin anchorend] regex'].
  intros (st & _ & H)%bind_Ok.
  repeat (destruct (_ : bool); [done|]).
  by apply bind_Ok in H as (r & _ & [= <-]).
Qed.

Lemma anchors_both body :
  (anchors (ch "^" :: body ++ [ch "$"])).1 = (true, true).
Proof.
  unfold anchors.
  change (ch "^" :: body ++ [ch "$"]) with ((ch "^" :: body) ++ [ch "$"]).
  rewrite last_snoc. simpl. reflexivity.
Qed.

Lemma compile_anchored_frames body optimize_ nfa :
  compile (ch "^" :: body ++ [ch "$"]) optimize_ = Ok nfa → group0_frames nfa.
Proof.
  unfold compile. intros (ast & Hast & H)%bind_Ok.
  apply buildAST_anchors in Hast. rewrite anchors_both in Hast.
  injection Hast as Hb He.
  rewrite ASTtoNFA_unfold, Hb, He in H. cbn [negb] in H.
  apply bind_Ok in H as (nfa1 & H1 & H).
  apply anchored_lowered, lowered_frames in H1; [|done..].
  cbn [mbind result_bind] in H.
  apply bind_Ok in H as (nfa2 & H2 & H).
  apply bind_Ok in H as (u & _ & [= <-]).
  destruct optimize_; [by eapply optimize_frames|by injection H2 as <-].
Qed.

(** C3, as claimed: group 0 spans the whole input whenever [simulate]
    reports a match.  It fails for a pattern without anchors, which is
    wrapped in a loop on [.] at each end: the pattern [a] on the input [xay]
    binds group 0 to offset 1, length 1, and the empty pattern on [abc] binds
    it to offset 0, length 0. *)
Lemma C3_group_0_of_unanchored_pattern :
  (∃ nfa, compile (chars_of_string "a") true = Ok nfa
          ∧ simulate nfa 0 (chars_of_string "xay") = Ok [(Some 1%nat, 1)]
          ∧ [(Some 1%nat, 1)] !! 0%nat
            ≠ Some (Some 0%nat, Z.of_nat (List.length (chars_of_string "xay"))))
  ∧ (∃ nfa, compile (chars_of_string "a") false = Ok nfa
            ∧ simulate nfa 0 (chars_of_string "xay") = Ok [(Some 1%nat, 1)])
  ∧ (∃ nfa, compile [] true = Ok nfa
            ∧ simulate nfa 0 (chars_of_string "abc") = Ok [(Some 0%nat, 0)]).
Proof.
  split; [|split].
  - eexists. split; [vm_compute; reflexivity|]. split; [by vm_compute|done].
  - eexists. split; [vm_compute; reflexivity|]. by vm_compute.
  - exists empty_pattern_nfa. split; [apply compile_empty_pattern|].
    apply simulate_empty_pattern.
Qed.

(** C3, amended.  For a pattern anchored at both ends, [^...$], compiled
    with or without optimization, and an input on which [simulate] reports a
    match, group 0 starts at offset 0 and has the length of the input. *)
Theorem C3_group_0_of_anchored_pattern body optimize_ nfa eos w captures :
  compile (ch "^" :: body ++ [ch "$"]) optimize_ = Ok nfa →
  Z.of_nat (List.length w) < 2 ^ 64 →
  simulate nfa eos w = Ok captures →
  captures ≠ [] →
  captures !! 0%nat = Some (Some 0%nat, Z.of_nat (List.length w)).
Proof.
  intros Hnfa Hsize. apply simulate_group0; [|done]. by eapply compile_anchored_frames.
Qed.

Lemma C3_group_0_of_anchored_pattern_witness :
  ∃ nfa captures,
    compile (ch "^" :: chars_of_string "<a*>b" ++ [ch "$"]) true = Ok nfa
    ∧ simulate nfa 0 (chars_of_string "aab") = Ok captures
    ∧ captures !! 0%nat = Some (Some 0%nat, 3).
Proof.
  eexists _, _. split; [vm_compute; reflexivity|]. split; [vm_compute; reflexivity|].
  eapply (C3_group_0_of_anchored_pattern (chars_of_string "<a*>b") true _ 0
            (chars_of_string "aab")).
  - vm_compute. reflexivity.
  - reflexivity.
  - vm_compute. reflexivity.
  - discriminate.
Defined.

(** ** The bounds on the recursions are never reached *)

(** *** The quantifier collapse *)

Lemma as_quantifier_count T n greedy child :
  as_quantifier T n = Some (greedy, child) → node_count n = S (node_count child).
Proof. destruct T, n; try done; by intros [= _ <-]. Qed.

Lemma merge_pair_count T1 T2 root merged :
  merge_pair T1 T2 root = Some merged → S (node_count merged) = node_count root.
Proof.
  unfold merge_pair. intros H.
  destruct (as_quantifier T1 root) as [[greedy1 child1]|] eqn:H1; [|done].
  destruct (as_quantifier T2 child1) as [[greedy2 child2]|] eqn:H2; [|done].
  apply as_quantifier_count in H1, H2. rewrite H1, H2.
  repeat match type of H with
         | (if ?b then _ else _) = _ => destruct b
         | Some _ = Some _ => injection H as <-
         end; try done; by destruct T1.
Qed.

Lemma foldl_hh_total retry (bound : nat) pairs :
  (∀ root, (node_count root ≤ bound)%nat →
           ∃ r, retry root = Ok r ∧ (node_count r ≤ node_count root)%nat) →
  ∀ root, (node_count root ≤ S bound)%nat →
    ∃ r, foldl (fun acc T => root ← acc; _merge_oneor_hh retry T root) (Ok root) pairs = Ok r
         ∧ (node_count r ≤ node_count root)%nat.
Proof.
  intros Hretry. induction pairs as [|T pairs IH]; intros root Hroot; [by exists root|].
  simpl. unfold _merge_oneor_hh at 2.
  destruct (merge_pair T.1 T.2 root) as [merged|] eqn:Hmerge.
  - apply merge_pair_count in Hmerge.
    destruct (Hretry merged) as (r1 & -> & Hr1); [lia|].
    destruct (IH r1) as (r & Hr & Hle); [lia|].
    exists r. split; [done|lia].
  - by apply IH.
Qed.

(** The bound [optimizeAST] gives the retries is never reached: every merge
    removes a node. *)
Lemma _merge_oneor_h_total fuel : ∀ root,
  (node_count root ≤ S fuel)%nat →
  ∃ r, _merge_oneor_h fuel root = Ok r ∧ (node_count r ≤ node_count root)%nat.
Proof.
  induction fuel as [|fuel IH]; intros root Hroot.
  - apply (foldl_hh_total _ 0); [|done].
    intros r Hr. destruct r; simpl in Hr; lia.
  - by apply (foldl_hh_total _ (S fuel)).
Qed.

Lemma _merge_oneor_h_node_count root :
  ∃ r, _merge_oneor_h (node_count root) root = Ok r.
Proof.
  destruct (_merge_oneor_h_total (node_count root) root) as (r & Hr & _); [lia|].
  by exists r.
Qed.

Local Ltac keep :=
  cbn -[_merge_oneor_h _merge_multiply _merge_node_down_Concatenation
        _merge_node_down_Disjunction node_count].

Theorem optimizeAST_total root : ∃ r, optimizeAST root = Ok r.
Proof.
  induction root as [m|capture child [c IH]|greedy child [c IH]|greedy child [c IH]
                    |greedy child [c IH]|greedy min max unbounded child [c IH]
                    |childs IH|childs IH] using ASTNode_ind';
    keep; rewrite ?IH; keep; try apply _merge_oneor_h_node_count.
  - match goal with
    | |- context [?go childs ≫= _] =>
        assert (∃ cs, go childs = Ok cs) as [cs ->]
    end; [|keep; apply _merge_oneor_h_node_count].
    induction IH as [|child childs [c Hc] _ [cs Hcs]]; [by exists []|].
    rewrite Hc. simpl. rewrite Hcs. by eexists.
  - match goal with
    | |- context [?go childs ≫= _] =>
        assert (∃ cs, go childs = Ok cs) as [cs ->]
    end; [|keep; apply _merge_oneor_h_node_count].
    induction IH as [|child childs [c Hc] _ [cs Hcs]]; [by exists []|].
    rewrite Hc. simpl. rewrite Hcs. by eexists.
Qed.

(** *** The backtracking executor *)

Lemma length_filter_mono {A} (P Q : A → Prop) `{∀ x, Decision (P x)} `{∀ x, Decision (Q x)}
    (l : list A) :
  (∀ x, Q x → P x) → (List.length (filter Q l) ≤ List.length (filter P l))%nat.
Proof.
  intros HQP. induction l as [|x l IH]; [done|].
  rewrite !filter_cons. destruct (decide (Q x)) as [HQ|HQ].
  - rewrite decide_True by auto. simpl. lia.
  - destruct (decide (P x)); simpl; lia.
Qed.

Lemma length_filter_lt {A} (P Q : A → Prop) `{∀ x, Decision (P x)} `{∀ x, Decision (Q x)}
    (l : list A) x :
  (∀ x, Q x → P x) → x ∈ l → P x → ¬ Q x →
  (List.length (filter Q l) < List.length (filter P l))%nat.
Proof.
  intros HQP Hin HP HQ. induction l as [|y l IH]; [by apply elem_of_nil in Hin|].
  rewrite !filter_cons. apply elem_of_cons in Hin as [<-|Hin].
  - rewrite decide_False, decide_True by done. simpl.
    pose proof (length_filter_mono P Q l HQP). lia.
  - specialize (IH Hin). destruct (decide (Q y)) as [HQy|HQy].
    + rewrite decide_True by auto. simpl. lia.
    + destruct (decide (P y)); simpl; lia.
Qed.

Lemma room_mono nfa str visited visited' :
  visited ⊆ visited' → (room nfa str visited' ≤ room nfa str visited)%nat.
Proof. intros Hsub. apply length_filter_mono. set_solver. Qed.

Lemma room_insert nfa str visited state st offset :
  states nfa !! state = Some st → (offset ≤ List.length str)%nat →
  (state, offset) ∉ visited →
  (room nfa str ({[(state, offset)]} ∪ visited) < room nfa str visited)%nat.
Proof.
  intros Hst Hoff Hnin. apply (length_filter_lt _ _ _ (state, offset)).
  - set_solver.
  - apply list_elem_of_In, in_prod_iff. split; apply in_seq.
    + apply lookup_lt_Some in Hst. lia.
    + lia.
  - done.
  - set_solver.
Qed.

Lemma room_bound nfa str visited :
  (room nfa str visited ≤ List.length (states nfa) * S (List.length str))%nat.
Proof.
  unfold room. etrans; [apply length_filter|].
  unfold positions. by rewrite length_prod, !length_seq.
Qed.

Section fuel.
Variable nfa : NFA.
Variable eos : char.
Variable str : list char.

Lemma explore_loop_fuel explore bound offset trans :
  (∀ state off s,
     (off ≤ List.length str)%nat → (room nfa str s.1 < bound)%nat →
     fuel_ok s.1 (explore state off s)) →
  (offset ≤ List.length str)%nat →
  ∀ s, (room nfa str s.1 < bound)%nat →
       fuel_ok s.1 (explore_loop nfa eos str explore offset trans s).
Proof.
  intros Hexplore Hoff.
  induction trans as [|[[matcher nextState] info] trans IH]; intros s Hroom; simpl; [done|].
  destruct (deref (matchers nfa !! matcher)) as [m|e] eqn:Hm; simpl.
  2:{ destruct (matchers nfa !! matcher); simpl in Hm; [done|]. by injection Hm as <-. }
  destruct (match_ eos m (drop offset str)); [|by apply IH].
  match goal with
  | |- fuel_ok _ (?c ≫= _) => destruct c as [captures|e] eqn:Hcap; simpl
  end.
  2:{ intros ->. destruct info as [info|]; [|done].
      assert (∀ off groups caps, open_groups off groups caps ≠ Err out_of_fuel) as Hopen.
      { intros off groups. induction groups as [|g groups IHg]; intros caps; simpl; [done|].
        destruct (caps !! g); simpl; [apply IHg|done]. }
      assert (∀ off groups caps, close_groups off groups caps ≠ Err out_of_fuel) as Hclose.
      { intros off groups. induction groups as [|g groups IHg]; intros caps; simpl; [done|].
        destruct (caps !! g) as [[[d|] sz]|]; simpl; [apply IHg|done|done]. }
      destruct (open_groups offset (begingroups info) s.2) as [c|e] eqn:Ho; simpl in Hcap.
      - by apply Hclose in Hcap.
      - injection Hcap as ->. by apply Hopen in Ho. }
  destruct (_ <? _)%nat eqn:Hlen; [by simpl|].
  apply Nat.ltb_ge in Hlen. rewrite length_drop in Hlen.
  pose proof (Hexplore nextState (offset + length_ m)%nat (s.1, captures)) as Hrec.
  destruct (explore nextState (offset + length_ m)%nat (s.1, captures))
    as [[[] s1]|e]; simpl in *.
  - apply Hrec; [lia|done].
  - assert (s.1 ⊆ s1.1) as Hsub by (apply Hrec; [lia|done]).
    specialize (IH (s1.1, match info with None => s1.2 | Some _ => s.2 end)).
    simpl in IH.
    assert (Hroom1 : (room nfa str s1.1 < bound)%nat).
    { pose proof (room_mono nfa str _ _ Hsub). lia. }
    specialize (IH Hroom1).
    destruct (explore_loop _ _ _ _ _ _ _) as [[b s2]|e]; simpl in *; [|done].
    set_solver.
  - apply Hrec; [lia|done].
Qed.

Lemma exploreTransitions_fuel fuel : ∀ state off s,
  (off ≤ List.length str)%nat → (room nfa str s.1 < fuel)%nat →
  fuel_ok s.1 (exploreTransitions nfa eos str fuel state off s).
Proof.
  induction fuel as [|fuel IH]; intros state off s Hoff Hroom; [lia|]. simpl.
  destruct (states nfa !! state) as [st|] eqn:Hst; simpl; [|done].
  destruct (_ && _); [by simpl|].
  case_bool_decide as Hvis; [by simpl|].
  pose proof (room_insert nfa str s.1 state st off Hst Hoff Hvis) as Hlt.
  pose proof (explore_loop_fuel (exploreTransitions nfa eos str fuel) fuel off
                (transitions st) IH Hoff ({[(state, off)]} ∪ s.1, s.2)) as Hloop.
  simpl in Hloop. specialize (Hloop ltac:(lia)).
  destruct (explore_loop _ _ _ _ _ _ _) as [[b s2]|e]; simpl in *; [|done].
  set_solver.
Qed.

Lemma simulate_loop_fuel l : ∀ s,
  simulate_loop nfa eos str l s ≠ Err out_of_fuel.
Proof.
  induction l as [|[i st] l IH]; intros s; cbn [simulate_loop]; [done|].
  destruct (initialState st); [|apply IH].
  pose proof (exploreTransitions_fuel (simulate_fuel nfa str) i 0%nat s) as Hex.
  destruct (exploreTransitions nfa eos str (simulate_fuel nfa str) i 0 s) as [[[] s1]|e].
  - done.
  - apply IH.
  - intros [= ->]. apply Hex; [lia| |done].
    pose proof (room_bound nfa str s.1). unfold simulate_fuel. lia.
Qed.

(** The bound [simulate] gives the recursion is never reached. *)
Theorem simulate_fuel_suffices : simulate nfa eos str ≠ Err out_of_fuel.
Proof. apply simulate_loop_fuel. Qed.
End fuel.

(** *** The subset-construction executor *)

Lemma bind_fuel {A B} (m : result A) (f : A → result B) :
  m ≠ Err out_of_fuel → (∀ x, m = Ok x → f x ≠ Err out_of_fuel) →
  m ≫= f ≠ Err out_of_fuel.
Proof.
  destruct m as [x|e]; simpl.
  - intros _ Hf. by apply Hf.
  - intros He _ [= ->]. by apply He.
Qed.

Lemma deref_fuel {A} (o : option A) : deref o ≠ Err out_of_fuel.
Proof. by destruct o. Qed.

Lemma assert_fuel b : assert b ≠ Err out_of_fuel.
Proof. by destruct b. Qed.

Lemma set_find_elem x l : set_find x l = true ↔ x ∈ l.
Proof.
  induction l as [|y l IH]; simpl.
  - rewrite elem_of_nil. split; [done|tauto].
  - rewrite orb_true_iff, Nat.eqb_eq, IH, elem_of_cons. tauto.
Qed.

Section closure.
Variable nfa : NFA.
Hypothesis Hrange : targets_in_range nfa.

Lemma unreached_emplace x inputStates :
  (x < List.length (states nfa))%nat → x ∉ inputStates →
  (unreached nfa (set_emplace x inputStates) < unreached nfa inputStates)%nat.
Proof.
  intros Hx Hnin. apply (length_filter_lt _ _ _ x).
  - intros s Hs Hin. apply Hs, elem_of_set_emplace. by right.
  - apply list_elem_of_In, in_seq. lia.
  - done.
  - intros Hs. apply Hs, elem_of_set_emplace. by left.
Qed.

Lemma closure_transitions_fuel trans : ∀ stateStack inputStates,
  (∀ matcher t info, (matcher, t, info) ∈ trans → (t < List.length (states nfa))%nat) →
  match closure_transitions nfa trans stateStack inputStates with
  | Ok (stateStack', inputStates') =>
      (List.length stateStack' + unreached nfa inputStates'
       ≤ List.length stateStack + unreached nfa inputStates)%nat
  | Err e => e ≠ out_of_fuel
  end.
Proof.
  induction trans as [|[[matcher nextState] info] trans IH];
    intros stateStack inputStates Htrans; simpl; [done|].
  assert (Hrest : ∀ matcher t info,
             (matcher, t, info) ∈ trans → (t < List.length (states nfa))%nat).
  { intros m t i Hin. apply (Htrans m t i). by right. }
  destruct (matchers nfa !! matcher) as [m|]; simpl; [|done].
  destruct (is_EpsilonMatcher m); simpl; [|by apply IH].
  destruct (set_find nextState inputStates) eqn:Hfind; simpl; [by apply IH|].
  specialize (IH (nextState :: stateStack) (set_emplace nextState inputStates) Hrest).
  destruct (closure_transitions _ _ _ _) as [[stateStack' inputStates']|e]; [|done].
  assert (nextState ∉ inputStates) as Hnin.
  { intros Hin. apply set_find_elem in Hin. congruence. }
  pose proof (unreached_emplace nextState inputStates
                (Htrans matcher nextState info ltac:(by left)) Hnin).
  simpl in IH. lia.
Qed.

Lemma closure_loop_fuel fuel : ∀ stateStack inputStates,
  (List.length stateStack + unreached nfa inputStates ≤ fuel)%nat →
  closure_loop nfa fuel stateStack inputStates ≠ Err out_of_fuel.
Proof.
  induction fuel as [|fuel IH]; intros [|currentState stateStack] inputStates Hfuel;
    simpl in *; try done; [lia|].
  destruct (states nfa !! currentState) as [state|] eqn:Hstate; simpl; [|done].
  pose proof (closure_transitions_fuel (transitions state) stateStack inputStates
                (λ matcher t info, Hrange currentState state matcher t info Hstate)) as Htr.
  destruct (closure_transitions _ _ _ _) as [[stateStack' inputStates']|e]; simpl.
  - apply IH. lia.
  - by intros [= ->].
Qed.

Lemma epsilonClosure_fuel inputStates :
  epsilonClosure nfa inputStates ≠ Err out_of_fuel.
Proof.
  apply closure_loop_fuel. rewrite length_rev.
  assert (unreached nfa inputStates ≤ List.length (states nfa))%nat; [|lia].
  unfold unreached. etrans; [apply length_filter|]. by rewrite length_seq.
Qed.

Lemma advance_transitions_fuel c trans : ∀ newStates,
  advance_transitions nfa c trans newStates ≠ Err out_of_fuel.
Proof.
  induction trans as [|[[matcher nextState] info] trans IH]; intros newStates; simpl; [done|].
  apply bind_fuel; [apply deref_fuel|]. intros m _.
  apply bind_fuel; [apply assert_fuel|]. intros _ _.
  destruct (_ && _); apply IH.
Qed.

Lemma advance_fuel c currentStates : ∀ newStates,
  advance nfa c currentStates newStates ≠ Err out_of_fuel.
Proof.
  induction currentStates as [|state currentStates IH]; intros newStates; simpl; [done|].
  apply bind_fuel; [apply deref_fuel|]. intros st _.
  apply bind_fuel; [apply advance_transitions_fuel|]. intros ? _. apply IH.
Qed.

Lemma consume_fuel str : ∀ currentStates,
  consume nfa str currentStates ≠ Err out_of_fuel.
Proof.
  induction str as [|c str IH]; intros currentStates; simpl; [done|].
  apply bind_fuel; [apply epsilonClosure_fuel|]. intros ? _.
  apply bind_fuel; [apply advance_fuel|]. intros ? _. apply IH.
Qed.

Lemma any_final_fuel currentStates : any_final nfa currentStates ≠ Err out_of_fuel.
Proof.
  induction currentStates as [|state currentStates IH]; simpl; [done|].
  apply bind_fuel; [apply deref_fuel|]. intros st _. by destruct (finalState st).
Qed.

(** The bound [epsilonClosure] gives its loop is never reached. *)
Theorem powerset_fuel_suffices str : powerset nfa str ≠ Err out_of_fuel.
Proof.
  unfold powerset.
  apply bind_fuel; [apply consume_fuel|]. intros ? _.
  apply bind_fuel; [apply epsilonClosure_fuel|]. intros ? _. apply any_final_fuel.
Qed.
End closure.

Lemma mirror_targets_in_range nfa : mirror nfa → targets_in_range nfa.
Proof.
  intros [Hfw _] i state matcher t info Hi Htr.
  destruct (Hfw i state matcher t info Hi Htr) as (target & Htarget & _).
  by apply lookup_lt_Some in Htarget.
Qed.

(** X21.  On an automaton the constructor returned both executors end: the
    search of [simulate] and the closure loop of [powerset] never reach the
    bound the model gives their recursion, whatever the input. *)
Theorem compiled_fuel_suffices regex optimize_ nfa eos str :
  compile regex optimize_ = Ok nfa →
  simulate nfa eos str ≠ Err out_of_fuel ∧ powerset nfa str ≠ Err out_of_fuel.
Proof.
  unfold compile. intros (ast & _ & H)%bind_Ok. split.
  - apply simulate_fuel_suffices.
  - by eapply powerset_fuel_suffices, mirror_targets_in_range, check_mirror, ASTtoNFA_check.
Qed.

Lemma compiled_fuel_suffices_witness :
  ∃ nfa, compile (chars_of_string "(a|b)*c") true = Ok nfa
         ∧ simulate nfa 0 (chars_of_string "abc") ≠ Err out_of_fuel
         ∧ powerset nfa (chars_of_string "abc") ≠ Err out_of_fuel.
Proof.
  eexists. split; [vm_compute; reflexivity|].
  apply (compiled_fuel_suffices (chars_of_string "(a|b)*c") true).
  vm_compute. reflexivity.
Defined.

(** ** The construction keeps the mirror invariant

    [NFA::check] runs after every [addTransition] and at the end of
    [ASTtoNFA].  This part shows that none of these runs, and no other
    assertion of the lowering or of [NFA::optimize], can fail on a tree the
    parser has built: the invariant is kept by the construction itself.  The
    assertions are those of a build with assertions enabled, as everywhere in
    this development; in [NFA::optimize] the reverse transition of a merged
    state is erased inside one, on source line 1276. *)

(** *** Computations that return *)

Lemma returns_bind {A B} (P : A → Prop) (Q : B → Prop) r (k : A → result B) :
  returns P r → (∀ a, P a → returns Q (k a)) → returns Q (r ≫= k).
Proof. intros (a & -> & Ha) Hk. by apply Hk. Qed.

Lemma returns_Ok {A} (P : A → Prop) a : P a → returns P (Ok a).
Proof. intros Ha. by exists a. Qed.

Lemma returns_impl {A} (P Q : A → Prop) r :
  returns P r → (∀ a, P a → Q a) → returns Q r.
Proof. intros (a & -> & Ha) HPQ. exists a. split; [done|]. by apply HPQ. Qed.

Lemma result_bind_assoc {A B C} (r : result A) (f : A → result B) (g : B → result C) :
  (r ≫= f) ≫= g = r ≫= (λ a, f a ≫= g).
Proof. by destruct r. Qed.

(** *** What [check] asserts, as an invariant *)

(** A value of a list without duplicates occurs once in it. *)
Lemma filter_eq_nil {A} (x : A) `{!∀ t : A, Decision (t = x)} l :
  x ∉ l → filter (λ t, t = x) l = [].
Proof.
  induction l as [|y l IH]; [done|]. intros Hnot.
  rewrite filter_cons. destruct (decide (y = x)) as [->|Hne].
  - exfalso. apply Hnot. by left.
  - apply IH. intros Hin. apply Hnot. by right.
Qed.

Lemma filter_eq_length {A} (x : A) `{!∀ t : A, Decision (t = x)} l :
  NoDup l → x ∈ l → List.length (filter (λ t, t = x) l) = 1%nat.
Proof.
  induction 1 as [|y l Hy Hnd IH]; [by intros ?%elem_of_nil|].
  rewrite filter_cons. destruct (decide (y = x)) as [->|Hne].
  - intros _. simpl. by rewrite filter_eq_nil.
  - intros [?|Hin]%elem_of_cons; [congruence|]. by apply IH.
Qed.

Lemma NoDup_matcher_of l : NoDup (matcher_of <$> l) → NoDup l.
Proof. apply NoDup_fmap_1. Qed.

(** The invariant is what [check] asserts. *)
Lemma consistent_check nfa : consistent nfa → check nfa = true.
Proof.
  intros (Hfw & Hbw & Hnd & Hown). unfold check. apply forallb_forall.
  intros [id state] (k & st & [= -> ->] & Hk)%list_elem_of_In%elem_of_lookup_imap.
  apply andb_true_iff. split; apply forallb_forall.
  - intros [[matcher t] info] Hin%list_elem_of_In.
    destruct (Hfw k st matcher t info Hk Hin) as (Hm & Hinfo & target & Ht & Hrt).
    rewrite Ht, Hinfo. rewrite !andb_true_iff. repeat split.
    + apply Nat.ltb_lt. by eapply lookup_lt_Some.
    + by apply Nat.ltb_lt.
    + by apply bool_decide_eq_true.
  - intros [[matcher s] info] Hin%list_elem_of_In%elem_of_elements.
    destruct (Hbw k st matcher s info Hk Hin) as (source & Hs & Htr).
    destruct (Hfw s source matcher k info Hs Htr) as (Hm & Hinfo & _).
    rewrite Hs, Hinfo. rewrite !andb_true_iff. repeat split.
    + apply Nat.ltb_lt. by eapply lookup_lt_Some.
    + by apply Nat.ltb_lt.
    + apply Nat.eqb_eq, filter_eq_length; [|done].
      eapply NoDup_matcher_of, Hnd. done.
Qed.

Lemma extends_refl nfa : extends nfa nfa.
Proof. by repeat split. Qed.

Lemma extends_trans nfa1 nfa2 nfa3 :
  extends nfa1 nfa2 → extends nfa2 nfa3 → extends nfa1 nfa3.
Proof.
  intros (Hs1 & Hg1 & He1) (Hs2 & Hg2 & He2).
  split; [lia|]. split; [lia|]. intros k t Hkt. by apply He2, He1.
Qed.

Lemma check_info_mono nfa nfa' info :
  (nGroups nfa ≤ nGroups nfa')%nat → check_info nfa info = true → check_info nfa' info = true.
Proof.
  intros Hle. destruct info as [[bg eg]|]; [|done]. simpl.
  rewrite !andb_true_iff, !forallb_forall.
  intros [[Hb He] Hne]. repeat split; [| |done].
  - intros g Hg. apply Hb in Hg. apply Nat.ltb_lt in Hg. apply Nat.ltb_lt. lia.
  - intros g Hg. apply He in Hg. apply Nat.ltb_lt in Hg. apply Nat.ltb_lt. lia.
Qed.

Lemma check_info_make_info nfa opengroups closegroups :
  Forall (λ g, (g < nGroups nfa)%nat) opengroups →
  Forall (λ g, (g < nGroups nfa)%nat) closegroups →
  check_info nfa (make_info opengroups closegroups) = true.
Proof.
  intros Ho Hc. unfold make_info.
  destruct (negb (List.length opengroups =? 0)%nat || negb (List.length closegroups =? 0)%nat)
    eqn:Huse; [|done].
  simpl. rewrite Huse, andb_true_r. apply andb_true_iff.
  split; apply forallb_forall; intros g Hg%list_elem_of_In; apply Nat.ltb_lt.
  - by eapply (proj1 (Forall_forall _ _) Ho).
  - by eapply (proj1 (Forall_forall _ _) Hc).
Qed.

#[local] Transparent newState newGroup addTransition.

(** [newState], [newGroup] and [addTransition] keep the invariant.  For
    [addTransition] this is the [check] it ends with: it passes when the two
    states exist and the groups are below [nGroups]. *)
Lemma newState_consistent nfa x nfa' :
  newState nfa = (x, nfa') → consistent nfa →
  consistent nfa' ∧ extends nfa nfa'
  ∧ x = List.length (states nfa)
  ∧ List.length (states nfa') = S (List.length (states nfa))
  ∧ nGroups nfa' = nGroups nfa.
Proof.
  unfold newState. intros [= <- <-] (Hfw & Hbw & Hnd & Hown).
  assert (Hold : ∀ k st, states nfa !! k = Some st →
                         (states nfa ++ [{| initialState := false; finalState := false;
                                            transitions := []; rtransitions := ∅ |}]) !! k
                         = Some st).
  { intros k st Hk. by apply lookup_app_l_Some. }
  split; [|split; [|split; [done|split; [|done]]]].
  - split; [|split; [|split]]; simpl.
    + intros k st m t info [[_ Hk]|[_ [= <-]]]%lookup_snoc_Some Hin;
        [|by apply elem_of_nil in Hin].
      destruct (Hfw k st m t info Hk Hin) as (Hm & Hinfo & target & Ht & Hrt).
      split; [done|]. split; [done|]. exists target. split; [by apply Hold|done].
    + intros t tgt m k info [[_ Ht]|[_ [= <-]]]%lookup_snoc_Some Hin;
        [|by apply elem_of_empty in Hin].
      destruct (Hbw t tgt m k info Ht Hin) as (st & Hk & Htr).
      exists st. split; [by apply Hold|done].
    + intros k st [[_ Hk]|[_ [= <-]]]%lookup_snoc_Some; [by eapply Hnd|]. constructor.
    + intros k1 k2 st1 st2 m t1 t2 i1 i2
        [[_ Hk1]|[_ [= <-]]]%lookup_snoc_Some [[_ Hk2]|[_ [= <-]]]%lookup_snoc_Some
        Hin1 Hin2; try (by apply elem_of_nil in Hin1); try (by apply elem_of_nil in Hin2).
      by eapply Hown.
  - split; [simpl; rewrite length_app; simpl; lia|]. split; [done|].
    intros k t (st & m & info & Hk & Hin). exists st, m, info. split; [by apply Hold|done].
  - simpl. rewrite length_app. simpl. lia.
Qed.

Lemma newGroup_consistent nfa g nfa' :
  newGroup nfa = (g, nfa') → consistent nfa →
  consistent nfa' ∧ extends nfa nfa'
  ∧ g = nGroups nfa
  ∧ List.length (states nfa') = List.length (states nfa)
  ∧ nGroups nfa' = S (nGroups nfa).
Proof.
  unfold newGroup. intros [= <- <-] (Hfw & Hbw & Hnd & Hown).
  split; [|split; [|done]].
  - split; [|split; [|split]]; simpl; [|done..].
    intros k st m t info Hk Hin.
    destruct (Hfw k st m t info Hk Hin) as (Hm & Hinfo & Htgt).
    split; [done|]. split; [|done].
    eapply check_info_mono; [|exact Hinfo]. simpl. lia.
  - split; [done|]. split; [simpl; lia|]. done.
Qed.

Lemma addTransition_consistent matcher fromState toState opengroups closegroups nfa :
  consistent nfa →
  (fromState < List.length (states nfa))%nat →
  (toState < List.length (states nfa))%nat →
  Forall (λ g, (g < nGroups nfa)%nat) opengroups →
  Forall (λ g, (g < nGroups nfa)%nat) closegroups →
  returns (λ nfa', consistent nfa' ∧ extends nfa nfa'
                   ∧ List.length (states nfa') = List.length (states nfa)
                   ∧ nGroups nfa' = nGroups nfa
                   ∧ edge nfa' fromState toState)
    (addTransition matcher fromState toState opengroups closegroups nfa).
Proof.
  intros (Hfw & Hbw & Hnd & Hown) Hfrom Hto Hog Hcg.
  unfold addTransition. cbn [states matchers nGroups set_states].
  destruct (lookup_lt_is_Some_2 _ _ Hfrom) as [from Hf]. rewrite Hf. cbn [deref mbind result_bind].
  set (info := make_info opengroups closegroups).
  set (tmatcher := List.length (matchers nfa)).
  set (states1 := <[fromState:=set_transitions (transitions from ++ [(tmatcher, toState, info)])
                                 from]> (states nfa)).
  destruct (lookup_lt_is_Some_2 states1 toState) as [to Ht].
  { subst states1. by rewrite length_insert. }
  rewrite Ht. cbn [deref mbind result_bind].
  set (states2 := <[toState:=set_rtransitions ({[(tmatcher, fromState, info)]} ∪ rtransitions to)
                               to]> states1).
  assert (Hshape : ∀ k, 
    match states nfa !! k with
    | Some st0 =>
        ∃ st, states2 !! k = Some st
              ∧ transitions st
                = transitions st0 ++ (if decide (k = fromState)
                                      then [(tmatcher, toState, info)] else [])
              ∧ rtransitions st
                = (if decide (k = toState) then {[(tmatcher, fromState, info)]} else ∅)
                  ∪ rtransitions st0
    | None => states2 !! k = None
    end).
  { intros k. subst states2 states1.
    destruct (states nfa !! k) as [st0|] eqn:Hk.
    - destruct (decide (k = toState)) as [->|Hkt].
      + rewrite list_lookup_insert_eq by (by rewrite length_insert).
        eexists. split; [done|]. simpl.
        destruct (decide (toState = fromState)) as [->|Htf].
        * rewrite list_lookup_insert_eq in Ht by done. injection Ht as <-. simpl.
          assert (from = st0) as -> by congruence. done.
        * rewrite list_lookup_insert_ne in Ht by done.
          assert (to = st0) as -> by congruence. by rewrite app_nil_r.
      + rewrite list_lookup_insert_ne by done.
        destruct (decide (k = fromState)) as [->|Hkf].
        * rewrite list_lookup_insert_eq by done. eexists. split; [done|]. simpl.
          assert (from = st0) as -> by congruence. split; [done|]. by rewrite union_empty_l_L.
        * rewrite list_lookup_insert_ne by done. exists st0.
          split; [done|]. by rewrite app_nil_r, union_empty_l_L.
    - rewrite !list_lookup_insert_ne; [done| |].
      + intros <-. apply lookup_lt_is_Some_2 in Hfrom as [? ?]. congruence.
      + intros <-. apply lookup_lt_is_Some_2 in Hto as [? ?]. congruence. }
  assert (Hnew : ∀ k st, states2 !! k = Some st →
    ∃ st0, states nfa !! k = Some st0
           ∧ transitions st
             = transitions st0 ++ (if decide (k = fromState)
                                   then [(tmatcher, toState, info)] else [])
           ∧ rtransitions st
             = (if decide (k = toState) then {[(tmatcher, fromState, info)]} else ∅)
               ∪ rtransitions st0).
  { intros k st Hk. specialize (Hshape k).
    destruct (states nfa !! k) as [st0|]; [|congruence].
    destruct Hshape as (st' & Hk' & Htr & Hrt). exists st0.
    assert (st' = st) as -> by congruence. done. }
  assert (Hold : ∀ k st0, states nfa !! k = Some st0 →
    ∃ st, states2 !! k = Some st
          ∧ transitions st
            = transitions st0 ++ (if decide (k = fromState)
                                  then [(tmatcher, toState, info)] else [])
          ∧ rtransitions st
            = (if decide (k = toState) then {[(tmatcher, fromState, info)]} else ∅)
              ∪ rtransitions st0).
  { intros k st0 Hk. specialize (Hshape k). by rewrite Hk in Hshape. }
  change (set_states states2 _)
    with {| states := states2; matchers := matchers nfa ++ [matcher];
            nGroups := nGroups nfa |}.
  clearbody states2. clear Hshape Ht states1 to.
  set (nfa2 := {| states := states2 |}).
  assert (Hcons : consistent nfa2).
  { split; [|split; [|split]]; subst nfa2; simpl.
    - intros k st m t inf (st0 & Hk & Htr & _)%Hnew Hin. rewrite Htr in Hin.
      rewrite length_app. simpl.
      apply elem_of_app in Hin as [Hin|Hin].
      + destruct (Hfw k st0 m t inf Hk Hin) as (Hm & Hinfo & target & Htgt & Hrt).
        split; [lia|]. split; [done|].
        destruct (Hold t target Htgt) as (target' & Htgt' & _ & Hrt').
        exists target'. split; [done|]. rewrite Hrt'. apply elem_of_union. by right.
      + destruct (decide (k = fromState)) as [->|]; [|by apply elem_of_nil in Hin].
        apply list_elem_of_singleton in Hin as [= -> -> ->].
        split; [subst tmatcher; lia|]. split; [by apply check_info_make_info|].
        destruct (lookup_lt_is_Some_2 _ _ Hto) as [to0 Hto0].
        destruct (Hold toState to0 Hto0) as (target' & Htgt' & _ & Hrt').
        exists target'. split; [done|]. rewrite Hrt', decide_True by done.
        apply elem_of_union. left. by apply elem_of_singleton.
    - intros t tgt m k inf (tgt0 & Ht & _ & Hrt)%Hnew Hin. rewrite Hrt in Hin.
      apply elem_of_union in Hin as [Hin|Hin].
      + destruct (decide (t = toState)) as [->|]; [|by apply elem_of_empty in Hin].
        apply elem_of_singleton in Hin as [= -> -> ->].
        destruct (Hold fromState from Hf) as (st & Hst & Htr & _).
        exists st. split; [done|]. rewrite Htr, decide_True by done.
        apply elem_of_app. right. by left.
      + destruct (Hbw t tgt0 m k inf Ht Hin) as (st0 & Hk & Htr0).
        destruct (Hold k st0 Hk) as (st & Hst & Htr & _).
        exists st. split; [done|]. rewrite Htr. apply elem_of_app. by left.
    - intros k st (st0 & Hk & Htr & _)%Hnew. rewrite Htr, fmap_app.
      apply NoDup_app. split; [by eapply Hnd|]. split.
      + intros m Hin Hin'. destruct (decide (k = fromState)); [|by apply elem_of_nil in Hin'].
        apply list_elem_of_singleton in Hin'. simpl in Hin'. subst m.
        apply list_elem_of_fmap in Hin as ([[m t] inf] & Hm & Hin). simpl in Hm.
        destruct (Hfw k st0 m t inf Hk Hin) as (Hlt & _). subst tmatcher. unfold matcher_of in Hm. simpl in Hm. lia.
      + destruct (decide (k = fromState)); [apply NoDup_singleton|constructor].
    - intros k1 k2 st1 st2 m t1 t2 i1 i2 (st10 & Hk1 & Htr1 & _)%Hnew
        (st20 & Hk2 & Htr2 & _)%Hnew Hin1 Hin2.
      rewrite Htr1 in Hin1. rewrite Htr2 in Hin2.
      apply elem_of_app in Hin1 as [Hin1|Hin1]; apply elem_of_app in Hin2 as [Hin2|Hin2].
      + by eapply Hown.
      + destruct (decide (k2 = fromState)); [|by apply elem_of_nil in Hin2].
        apply list_elem_of_singleton in Hin2 as [= -> -> ->].
        destruct (Hfw k1 st10 _ _ _ Hk1 Hin1) as (Hlt & _). subst tmatcher. lia.
      + destruct (decide (k1 = fromState)); [|by apply elem_of_nil in Hin1].
        apply list_elem_of_singleton in Hin1 as [= -> -> ->].
        destruct (Hfw k2 st20 _ _ _ Hk2 Hin2) as (Hlt & _). subst tmatcher. lia.
      + destruct (decide (k1 = fromState)); [|by apply elem_of_nil in Hin1].
        destruct (decide (k2 = fromState)); [|by apply elem_of_nil in Hin2].
        congruence. }
  assert (Hlen : List.length states2 = List.length (states nfa)).
  { apply Nat.le_antisymm.
    - destruct (decide (List.length states2 ≤ List.length (states nfa))%nat); [done|].
      destruct (lookup_lt_is_Some_2 states2 (List.length (states nfa))) as [st Hst]; [lia|].
      apply Hnew in Hst as (st0 & Hst0 & _). apply lookup_lt_Some in Hst0. lia.
    - destruct (decide (List.length (states nfa) ≤ List.length states2)%nat); [done|].
      destruct (lookup_lt_is_Some_2 (states nfa) (List.length states2)) as [st Hst]; [lia|].
      apply Hold in Hst as (st0 & Hst0 & _). apply lookup_lt_Some in Hst0. lia. }
  rewrite (consistent_check _ Hcons). cbn [assert mbind result_bind].
  apply returns_Ok. split; [done|]. split; [|split; [done|split; [done|]]].
  - split; [simpl; lia|]. split; [done|].
    intros k t (st0 & m & inf & Hk & Hin).
    destruct (Hold k st0 Hk) as (st & Hst & Htr & _).
    exists st, m, inf. split; [done|]. rewrite Htr. apply elem_of_app. by left.
  - destruct (Hold fromState from Hf) as (st & Hst & Htr & _).
    exists st, tmatcher, info. split; [done|]. rewrite Htr, decide_True by done.
    apply elem_of_app. right. by left.
Qed.

(** What [addTransition] leaves as it was. *)
Lemma addTransition_shape matcher fromState toState opengroups closegroups nfa nfa' :
  addTransition matcher fromState toState opengroups closegroups nfa = Ok nfa' →
  matchers nfa' = matchers nfa ++ [matcher]
  ∧ ∀ k st', states nfa' !! k = Some st' →
      ∃ st, states nfa !! k = Some st
            ∧ initialState st' = initialState st ∧ finalState st' = finalState st
            ∧ ∀ tr, tr ∈ transitions st' →
                    tr ∈ transitions st
                    ∨ tr = (List.length (matchers nfa), toState,
                            make_info opengroups closegroups).
Proof.
  unfold addTransition. intros (from & Hfrom%deref_Ok & H)%bind_Ok.
  apply bind_Ok in H as (to & Hto%deref_Ok & H).
  apply bind_Ok in H as (_ & _ & [= <-]). simpl in *. split; [done|].
  intros k st' Hk. apply list_lookup_insert_Some in Hk as [(-> & <- & _)|[Hne Hk]].
  - apply list_lookup_insert_Some in Hto as [(-> & <- & _)|[Hne Hto]].
    + exists from. simpl. repeat split; try done.
      intros tr [?| ->%list_elem_of_singleton]%elem_of_app; [by left|by right].
    + exists to. simpl. repeat split; try done. intros tr ?. by left.
  - apply list_lookup_insert_Some in Hk as [(-> & <- & _)|[Hne' Hk]].
    + exists from. simpl. repeat split; try done.
      intros tr [?| ->%list_elem_of_singleton]%elem_of_app; [by left|by right].
    + exists st'. repeat split; try done. intros tr ?. by left.
Qed.

#[local] Opaque newState newGroup addTransition.

(** *** The lowering fails no assertion *)

Lemma extends_edge nfa nfa' k t : extends nfa nfa' → edge nfa k t → edge nfa' k t.
Proof. intros (_ & _ & H). apply H. Qed.

Lemma extends_rtc nfa nfa' k t :
  extends nfa nfa' → rtc (edge nfa) k t → rtc (edge nfa') k t.
Proof.
  intros Hext. induction 1 as [|x y z Hxy _ IH]; [done|].
  eapply rtc_l; [|exact IH]. by eapply extends_edge.
Qed.

Lemma extends_connects nfa nfa' lo hi begin end_ :
  extends nfa nfa' → connects nfa lo hi begin end_ → connects nfa' lo hi begin end_.
Proof.
  intros Hext [Hbe Hk]. split; [by eapply extends_rtc|].
  intros k Hr. destruct (Hk k Hr). split; by eapply extends_rtc.
Qed.

Lemma Forall_lt_mono (n n' : nat) (l : list nat) :
  Forall (λ g, (g < n)%nat) l → (n ≤ n')%nat → Forall (λ g, (g < n')%nat) l.
Proof. intros H Hle. eapply Forall_impl; [exact H|]. simpl. intros. lia. Qed.

Lemma Forall_set_emplace (P : nat → Prop) g l :
  P g → Forall P l → Forall P (set_emplace g l).
Proof.
  intros Hg Hl. apply Forall_forall. intros x [->|Hx]%elem_of_set_emplace; [done|].
  by eapply (proj1 (Forall_forall _ _) Hl).
Qed.

(** The tactics that step through a body of the lowering: [build_step] takes
    the next call, with the invariant and the bounds on the states and the
    groups as side conditions, and [finish] puts the states added on paths
    from [begin] to [end_]. *)
Ltac numbers :=
  repeat match goal with
         | H : extends ?a ?b |- _ =>
             lazymatch goal with
             | _ : (List.length (states a) ≤ List.length (states b))%nat |- _ => fail
             | _ => pose proof (proj1 H); pose proof (proj1 (proj2 H))
             end
         end.

Ltac build_side :=
  first [ assumption
        | solve [numbers; lia]
        | apply Forall_nil_2
        | solve [eapply Forall_lt_mono; [eassumption|numbers; lia]]
        | match goal with
          | |- Forall _ (if ?b then _ else _) => destruct b; build_side
          | |- Forall _ (match ?x with _ => _ end) => destruct x; build_side
          end ].

Ltac chain :=
  repeat first [ apply extends_refl
               | eassumption
               | eapply extends_trans; [eassumption|] ].

Ltac lift nfaF :=
  repeat match goal with
         | H : edge ?n _ _ |- _ =>
             tryif constr_eq n nfaF then fail
             else (apply (extends_edge n nfaF) in H; [|solve [chain]])
         | H : connects ?n _ _ _ _ |- _ =>
             tryif constr_eq n nfaF then fail
             else (apply (extends_connects n nfaF) in H; [|solve [chain]])
         | H : rtc (edge ?n) _ _ |- _ =>
             tryif constr_eq n nfaF then fail
             else (apply (extends_rtc n nfaF) in H; [|solve [chain]])
         end;
  repeat match goal with
         | H : connects _ _ _ _ _ |- _ => destruct H as [? ?]
         end.

Ltac path :=
  repeat match goal with
         | H : edge ?n ?a ?b |- _ =>
             pose proof (λ z, rtc_l (edge n) a b z H); clear H
         | H : rtc (edge ?n) ?a ?b |- _ =>
             pose proof (λ z, rtc_trans (R := edge n) a b z H); clear H
         end;
  eauto 7 using rtc_refl.

Ltac ranges k :=
  first
    [ solve [exfalso; numbers; lia]
    | match goal with
      | Hr : ∀ k', (?lo ≤ k' < ?hi)%nat → _ |- _ =>
          let Hin := fresh "Hin" in
          destruct (decide (lo ≤ k < hi)%nat) as [Hin|Hin];
          [ destruct (Hr k Hin) as [? ?]; clear Hr; solve [split; path]
          | clear Hr; ranges k ]
      end
    | match goal with
      | H : List.length (states ?n') = S (List.length (states ?n)) |- _ =>
          lazymatch goal with
          | _ : k ≠ List.length (states n) |- _ => fail
          | _ => idtac
          end;
          let Hk := fresh "Hk" in
          destruct (decide (k = List.length (states n))) as [Hk|Hk];
          [ rewrite Hk; solve [split; path] | ranges k ]
      end ].

Ltac finish nfaF :=
  lift nfaF;
  split; [assumption|]; split; [solve [chain]|];
  split; [solve [path]|];
  let k := fresh "k" in
  let Hk := fresh "Hrange" in
  intros k Hk; ranges k.

Ltac build_step IH :=
  lazymatch goal with
  | |- returns _ ((if ?b then _ else _) ≫= _) => destruct b eqn:?
  | |- returns _ ((_ ≫= _) ≫= _) => rewrite result_bind_assoc
  | |- returns _ (let '(_, _) := newState ?nfa in _) =>
      let x := fresh "x" in
      let n := fresh "nfa" in
      let Hns := fresh "Hns" in
      destruct (newState nfa) as [x n] eqn:Hns;
      apply newState_consistent in Hns as (? & ? & -> & ? & ?); [|assumption]
  | |- returns _ (if ?b then _ else _) => destruct b eqn:?
  | |- returns _ (addTransition _ _ _ _ _ _ ≫= _) =>
      eapply returns_bind; [apply addTransition_consistent; build_side|];
      intros ? (? & ? & ? & ? & ?)
  | |- returns _ (addTransition _ _ _ _ _ _) =>
      eapply returns_impl; [apply addTransition_consistent; build_side|];
      intros ? (? & ? & ? & ? & ?)
  | |- returns _ (_ASTtoNFA _ _ _ _ _ _ ≫= _) =>
      eapply returns_bind; [apply IH; build_side|];
      intros ? (? & ? & ?)
  | |- returns _ (_ASTtoNFA _ _ _ _ _ _) =>
      eapply returns_impl; [apply IH; build_side|];
      intros ? (? & ? & ?)
  end.

Ltac build IH :=
  repeat build_step IH;
  lazymatch goal with
  | |- builds _ _ _ ?nfaF => finish nfaF
  end.

(** The loops of the lowering. *)
Lemma multiply_chain_builds lower opengroups count :
  built lower →
  ∀ i newbegin nfa,
    consistent nfa → (newbegin < List.length (states nfa))%nat →
    Forall (λ g, (g < nGroups nfa)%nat) opengroups →
    returns (λ r, r.1.1 = i + Z.of_nat count
                  ∧ consistent r.2 ∧ extends nfa r.2
                  ∧ (r.1.2 < List.length (states r.2))%nat
                  ∧ connects r.2 (List.length (states nfa)) (List.length (states r.2))
                      newbegin r.1.2)
      (multiply_chain lower count i newbegin opengroups nfa).
Proof.
  intros Hlower. induction count as [|count IH]; intros i newbegin nfa Hc Hnb Hog; cbn.
  - apply returns_Ok. simpl. split; [lia|]. split; [done|]. split; [apply extends_refl|].
    split; [done|]. split; [done|]. intros k Hk. lia.
  - destruct (newState nfa) as [newend nfa1] eqn:Hns.
    apply newState_consistent in Hns as (? & ? & -> & ? & ?); [|assumption].
    eapply returns_bind; [apply Hlower; build_side|]. intros nfa2 (? & ? & ?).
    eapply returns_impl; [apply IH; build_side|].
    intros [[i' newbegin'] nfa3]. simpl. intros (-> & ? & ? & ? & ?).
    split; [lia|]. split; [done|]. split; [solve [chain]|]. split; [done|].
    lift nfa3. split; [solve [path]|]. intros k Hrange. ranges k.
Qed.

Lemma multiply_bounded_builds lower opengroups closegroups greedy min end_ count :
  built lower →
  ∀ i newbegin nfa,
    consistent nfa → (newbegin < List.length (states nfa))%nat →
    (end_ < List.length (states nfa))%nat →
    Forall (λ g, (g < nGroups nfa)%nat) opengroups →
    Forall (λ g, (g < nGroups nfa)%nat) closegroups →
    returns (λ r, r.1.1 = i + Z.of_nat count
                  ∧ consistent r.2 ∧ extends nfa r.2
                  ∧ (r.1.2 < List.length (states r.2))%nat
                  ∧ connects r.2 (List.length (states nfa)) (List.length (states r.2))
                      newbegin r.1.2)
      (multiply_bounded lower count i newbegin greedy min end_ opengroups closegroups nfa).
Proof.
  intros Hlower. induction count as [|count IH]; intros i newbegin nfa Hc Hnb He Hog Hcg; cbn.
  - apply returns_Ok. simpl. split; [lia|]. split; [done|]. split; [apply extends_refl|].
    split; [done|]. split; [done|]. intros k Hk. lia.
  - destruct (newState nfa) as [newend nfa1] eqn:Hns.
    apply newState_consistent in Hns as (? & ? & -> & ? & ?); [|assumption].
    eapply (returns_bind (λ nfa2, consistent nfa2 ∧ extends nfa1 nfa2
                                  ∧ connects nfa2 (List.length (states nfa1))
                                      (List.length (states nfa2)) newbegin
                                      (List.length (states nfa)))).
    { destruct greedy.
      - eapply returns_bind; [apply Hlower; build_side|]. intros nfa2 (? & ? & ?).
        destruct (min <=? i).
        + eapply returns_impl; [apply addTransition_consistent; build_side|].
          intros nfa3 (? & ? & ? & ? & ?).
          split; [done|]. split; [solve [chain]|].
          match goal with H : List.length (states nfa3) = _ |- _ => rewrite H end.
          by eapply extends_connects.
        + by apply returns_Ok.
      - eapply (returns_bind (λ nfa2, consistent nfa2 ∧ extends nfa1 nfa2
                                      ∧ List.length (states nfa2) = List.length (states nfa1)
                                      ∧ nGroups nfa2 = nGroups nfa1)).
        { destruct (min <=? i).
          - eapply returns_impl; [apply addTransition_consistent; build_side|].
            intros nfa3 (? & ? & ? & ? & ?). done.
          - apply returns_Ok. split; [done|]. split; [apply extends_refl|]. done. }
        intros nfa2 (? & ? & Hlen2 & ?).
        eapply returns_impl; [apply Hlower; build_side|]. intros nfa3 (? & ? & Hconn).
        split; [done|]. split; [solve [chain]|]. by rewrite <- Hlen2. }
    intros nfa2 (? & ? & ?).
    eapply returns_impl; [apply IH; build_side|].
    intros [[i' newbegin'] nfa3]. simpl. intros (-> & ? & ? & ? & ?).
    split; [lia|]. split; [done|]. split; [solve [chain]|]. split; [done|].
    lift nfa3. split; [solve [path]|]. intros k Hrange. ranges k.
Qed.

Lemma concatenation_loop_builds lower end_ opengroups closegroups childs :
  Forall (λ child, built (lower child)) childs →
  childs ≠ [] →
  ∀ i newbegin nfa,
    consistent nfa → (newbegin < List.length (states nfa))%nat →
    (end_ < List.length (states nfa))%nat →
    Forall (λ g, (g < nGroups nfa)%nat) opengroups →
    Forall (λ g, (g < nGroups nfa)%nat) closegroups →
    returns (builds nfa newbegin end_)
      (concatenation_loop lower end_ opengroups closegroups childs i newbegin nfa).
Proof.
  induction 1 as [|child rest Hchild _ IH]; [done|]. intros _ i newbegin nfa Hc Hnb He Hog Hcg.
  destruct rest as [|child' rest]; cbn.
  - eapply returns_bind; [apply Hchild; build_side|]. intros nfa1 Hbuilds.
    by apply returns_Ok.
  - destruct (newState nfa) as [newend nfa1] eqn:Hns.
    apply newState_consistent in Hns as (? & ? & -> & ? & ?); [|assumption].
    eapply returns_bind; [apply Hchild; build_side|]. intros nfa2 (? & ? & ?).
    eapply returns_impl; [apply IH; [done|build_side..]|]. intros nfa3 (? & ? & ?).
    finish nfa3.
Qed.

Lemma disjunction_loop_builds lower begin end_ opengroups closegroups childs :
  Forall (λ child, built (lower child)) childs →
  ∀ nfa,
    consistent nfa → (begin < List.length (states nfa))%nat →
    (end_ < List.length (states nfa))%nat →
    Forall (λ g, (g < nGroups nfa)%nat) opengroups →
    Forall (λ g, (g < nGroups nfa)%nat) closegroups →
    childs ≠ [] ∨ rtc (edge nfa) begin end_ →
    returns (builds nfa begin end_)
      (disjunction_loop lower begin end_ opengroups closegroups childs nfa).
Proof.
  induction 1 as [|child rest Hchild _ IH]; intros nfa Hc Hb He Hog Hcg Hne; cbn.
  - destruct Hne as [?|Hpath]; [done|]. apply returns_Ok.
    split; [done|]. split; [apply extends_refl|]. split; [done|]. intros k Hk. lia.
  - eapply returns_bind; [apply Hchild; build_side|]. intros nfa1 (? & ? & Hconn).
    eapply returns_impl; [apply IH; [build_side..|]|].
    { right. exact (proj1 Hconn). }
    intros nfa2 (? & ? & ?). finish nfa2.
Qed.

Lemma well_formed_childs childs :
  forallb well_formed childs = true →
  Forall (λ child, well_formed child = true) childs.
Proof. intros H. apply Forall_forall. intros x Hx%list_elem_of_In. revert x Hx. by apply forallb_forall. Qed.

(** [_ASTtoNFA] returns on a well-formed tree, keeps the invariant, and puts
    the states it adds on paths from [begin] to [end_].  The [assert(i != 0)]
    of an unbounded repetition holds because [min] is at least 2 there. *)
Lemma _ASTtoNFA_builds root : well_formed root = true → built (_ASTtoNFA root).
Proof.
  induction root as [m|capture child IH|greedy child IH|greedy child IH|greedy child IH
                     |greedy min max unbounded child IH|childs IH|childs IH]
    using ASTNode_ind';
    intros Hwf begin end_ opengroups closegroups nfa Hc Hb He Hog Hcg;
    cbn [well_formed] in Hwf; try specialize (IH Hwf); try unfold built in IH; cbn.
  - build I.
  - destruct capture.
    + destruct (newGroup nfa) as [g nfa1] eqn:Hg.
      apply newGroup_consistent in Hg as (? & ? & -> & Hlen & Hgroups); [|done].
      eapply returns_impl.
      { apply IH; [done|lia|lia| |].
        - apply Forall_set_emplace; [lia|]. eapply Forall_lt_mono; [done|lia].
        - apply Forall_set_emplace; [lia|]. eapply Forall_lt_mono; [done|lia]. }
      intros nfa2 (? & ? & Hconn). split; [done|]. split; [solve [chain]|].
      by rewrite <- Hlen.
    + build IH.
  - build IH.
  - build IH.
  - build IH.
  - apply andb_true_iff in Hwf as [Hmin%Z.leb_le Hwf]. specialize (IH Hwf).
    unfold built in IH.
    destruct (min =? 0) eqn:Hmin0; cbn.
    + destruct (exact min max unbounded); [build IH|].
      destruct unbounded; [build IH|].
      eapply returns_bind; [apply multiply_bounded_builds; [exact IH|build_side..]|].
      intros [[j newbegin2] nfa2]. simpl. intros (Hj & ? & ? & ? & ?).
      build IH.
    + apply Z.eqb_neq in Hmin0. destruct (min =? 1) eqn:Hmin1.
      { apply Z.eqb_eq in Hmin1 as ->. change (Z.to_nat (1 - 1)) with 0%nat. cbn.
        destruct (exact 1 max unbounded); [build IH|].
        destruct unbounded; [build IH|].
        eapply returns_bind; [apply multiply_bounded_builds; [exact IH|build_side..]|].
        intros [[j newbegin2] nfa2]. simpl. intros (Hj & ? & ? & ? & ?).
        build IH. }
      apply Z.eqb_neq in Hmin1.
      eapply returns_bind; [by apply multiply_chain_builds|].
      intros [[i newbegin] nfa1]. simpl. intros (Hi & ? & ? & ? & ?).
      destruct (exact min max unbounded); [build IH|].
      destruct unbounded.
      { destruct (newState nfa1) as [newend nfa2] eqn:Hns.
        apply newState_consistent in Hns as (? & ? & -> & ? & ?); [|assumption].
        assert (negb (i =? 0) = true) as ->.
        { apply negb_true_iff, Z.eqb_neq. lia. }
        cbn [assert mbind result_bind]. build IH. }
      eapply returns_bind; [apply multiply_bounded_builds; [exact IH|build_side..]|].
      intros [[j newbegin2] nfa2]. simpl. intros (Hj & ? & ? & ? & ?).
      build IH.
  - apply andb_true_iff in Hwf as [Hne Hwf].
    apply concatenation_loop_builds; try done.
    + apply well_formed_childs in Hwf. 
      apply Forall_forall. intros child Hin.
      exact (proj1 (Forall_forall _ _) IH child Hin
               (proj1 (Forall_forall _ _) Hwf child Hin)).
    + intros ->. done.
  - apply andb_true_iff in Hwf as [Hne Hwf].
    apply disjunction_loop_builds; try done.
    + apply well_formed_childs in Hwf. 
      apply Forall_forall. intros child Hin.
      exact (proj1 (Forall_forall _ _) IH child Hin
               (proj1 (Forall_forall _ _) Hwf child Hin)).
    + left. intros ->. done.
Qed.

(** *** [NFA::optimize] fails no assertion *)

(** The renumbering of [remove_node]. *)
Lemma renumber_unshift i j k' : renumber i j (unshift i k') = k'.
Proof.
  unfold renumber, unshift. destruct (decide (k' < i)%nat).
  - rewrite (proj2 (Nat.ltb_ge i k')) by lia. by rewrite (proj2 (Nat.eqb_neq k' i)) by lia.
  - rewrite (proj2 (Nat.ltb_lt i (S k'))) by lia. lia.
Qed.

Lemma unshift_ne i k' : unshift i k' ≠ i.
Proof. unfold unshift. destruct (decide (k' < i)%nat); lia. Qed.

Lemma unshift_renumber i j k : k ≠ i → unshift i (renumber i j k) = k.
Proof.
  intros Hk. unfold renumber, unshift. destruct (Nat.ltb_spec i k).
  - destruct (decide (k - 1 < i)%nat); lia.
  - rewrite (proj2 (Nat.eqb_neq k i)) by done. destruct (decide (k < i)%nat); lia.
Qed.

Lemma renumber_inj i j a b :
  a ≠ i → b ≠ i → renumber i j a = renumber i j b → a = b.
Proof.
  intros Ha Hb Heq. rewrite <- (unshift_renumber i j a), <- (unshift_renumber i j b) by done.
  by rewrite Heq.
Qed.

Lemma renumber_merged i j : i ≠ j → renumber i j i = renumber i j j.
Proof.
  intros Hij. unfold renumber. rewrite Nat.ltb_irrefl, Nat.eqb_refl.
  destruct (Nat.ltb_spec i j); [done|]. by rewrite (proj2 (Nat.eqb_neq j i)) by done.
Qed.

(** [remove_node i j] for [i ≠ j], where it asserts nothing: the state [k']
    it leaves is the state [unshift i k'], with its transitions and reverse
    transitions renumbered. *)
Lemma remove_node_spec i j nfa :
  i ≠ j →
  ∃ nfa', remove_node i j nfa = Ok nfa'
    ∧ matchers nfa' = matchers nfa ∧ nGroups nfa' = nGroups nfa
    ∧ List.length (states nfa') = List.length (delete i (states nfa))
    ∧ ∀ k',
        match states nfa !! unshift i k' with
        | Some st =>
            ∃ st', states nfa' !! k' = Some st'
              ∧ initialState st' = initialState st ∧ finalState st' = finalState st
              ∧ (∀ m t' a, (m, t', a) ∈ transitions st'
                           ↔ ∃ t, (m, t, a) ∈ transitions st ∧ t' = renumber i j t)
              ∧ (∀ m s' a, (m, s', a) ∈ rtransitions st'
                           ↔ ∃ s, (m, s, a) ∈ rtransitions st ∧ s' = renumber i j s)
              ∧ matcher_of <$> transitions st' = matcher_of <$> transitions st
        | None => states nfa' !! k' = None
        end.
Proof.
  intros Hij. unfold remove_node.
  rewrite (proj2 (Nat.eqb_neq i j) Hij). cbn [negb orb assert mbind result_bind].
  eexists. split; [done|]. split; [done|]. split; [done|].
  split; [cbn [states set_states]; by rewrite length_map|].
  intros k'. cbn [states set_states]. rewrite list_lookup_fmap, list_lookup_delete.
  unfold unshift.
  destruct (decide (k' < i)%nat) as [Hlt|Hge];
    (match goal with
     | |- match ?o with _ => _ end => destruct o as [st|]; [|done]
     end);
    (eexists; split; [done|];
     cbn [initialState finalState transitions rtransitions set_transitions set_rtransitions];
     split; [done|]; split; [done|]; split; [|split]).
  all: try (intros m t' a; rewrite list_elem_of_fmap; split;
            [ intros ([[m0 t] a0] & Heq & Hin); exists t;
              assert ((m, t', a) = (m0, renumber i j t, a0)) as [= -> -> ->];
              [ rewrite Heq; unfold renumber;
                destruct (i <? t)%nat; [done|]; by destruct (Nat.eqb t i)
              | done ]
            | intros (t & Hin & ->); exists (m, t, a); split; [|done];
              unfold renumber; destruct (i <? t)%nat; [done|]; by destruct (Nat.eqb t i) ]).
  all: try (intros m s' a; rewrite elem_of_list_to_set, list_elem_of_fmap; split;
            [ intros ([[m0 s] a0] & Heq & Hin%elem_of_elements); exists s;
              assert ((m, s', a) = (m0, renumber i j s, a0)) as [= -> -> ->];
              [ rewrite Heq; unfold renumber;
                destruct (Nat.ltb_spec i s); [done|];
                destruct (Nat.ltb_spec s i);
                [ by rewrite (proj2 (Nat.eqb_neq s i)) by lia
                | by rewrite (proj2 (Nat.eqb_eq s i)) by lia ]
              | done ]
            | intros (s & Hin & ->); exists (m, s, a); split; [|by apply elem_of_elements];
              unfold renumber;
              destruct (Nat.ltb_spec i s); [done|];
              destruct (Nat.ltb_spec s i);
              [ by rewrite (proj2 (Nat.eqb_neq s i)) by lia
              | by rewrite (proj2 (Nat.eqb_eq s i)) by lia ] ]).
  all: rewrite <- list_fmap_compose; apply list_fmap_ext; intros ? [[m t] a] _;
         simpl; unfold matcher_of; simpl;
         destruct (i <? t)%nat; [done|by destruct (Nat.eqb t i)].
Qed.

(** What a contraction keeps. *)
Lemma contracts_consistent i j e0 nfa nfa' :
  consistent nfa → contracts i j e0 nfa nfa' → consistent nfa'.
Proof.
  intros (Hfw & Hbw & Hnd & Hown) (Hm & Hg & Hlen & HA1 & HA2 & HB & HC & HD).
  split; [|split; [|split]].
  - intros k' st' m t' a Hk' Hin.
    apply (HB k' st' m t' a Hk') in Hin as (k & st & t & Hk & Hin & Hne & <- & <-).
    destruct (Hfw k st m t a Hk Hin) as (Hlt & Hinfo & tgt & Ht & Hrt).
    rewrite Hm. split; [done|]. split.
    { eapply check_info_mono; [|exact Hinfo]. lia. }
    destruct (HA2 t tgt Ht) as (tgt' & Ht' & _). exists tgt'. split; [done|].
    apply (HC _ tgt' m _ a Ht'). by exists k, st, t.
  - intros t' tgt' m k' a Ht' Hin.
    apply (HC t' tgt' m k' a Ht') in Hin as (k & st & t & Hk & Hin & Hne & <- & <-).
    destruct (HA2 k st Hk) as (st' & Hk' & _). exists st'. split; [done|].
    apply (HB _ st' m _ a Hk'). by exists k, st, t.
  - exact HD.
  - intros k1' k2' st1' st2' m t1' t2' a1 a2 Hk1 Hk2 Hin1 Hin2.
    apply (HB _ _ _ _ _ Hk1) in Hin1 as (k1 & st1 & t1 & Hk1o & Hin1 & _ & <- & _).
    apply (HB _ _ _ _ _ Hk2) in Hin2 as (k2 & st2 & t2 & Hk2o & Hin2 & _ & <- & _).
    f_equal. by eapply Hown.
Qed.

Lemma contracts_edge i j e0 nfa nfa' k t :
  contracts i j e0 nfa nfa' →
  renumber i j e0.1 = renumber i j e0.2.1.2 →
  edge nfa k t →
  renumber i j k = renumber i j t ∨ edge nfa' (renumber i j k) (renumber i j t).
Proof.
  intros (Hm & Hg & Hlen & HA1 & HA2 & HB & HC & HD) He0 (st & m & a & Hk & Hin).
  destruct (decide ((k, (m, t, a)) = e0)) as [<-|Hne]; [by left|]. right.
  destruct (HA2 k st Hk) as (st' & Hk' & _). exists st', m, a. split; [done|].
  apply (HB _ _ _ _ _ Hk'). by exists k, st, t.
Qed.

Lemma contracts_rtc i j e0 nfa nfa' k t :
  contracts i j e0 nfa nfa' →
  renumber i j e0.1 = renumber i j e0.2.1.2 →
  rtc (edge nfa) k t →
  rtc (edge nfa') (renumber i j k) (renumber i j t).
Proof.
  intros Hc He0. induction 1 as [|x y z Hxy _ IH]; [done|].
  destruct (contracts_edge _ _ _ _ _ _ _ Hc He0 Hxy) as [->|Hedge]; [done|].
  by eapply rtc_l.
Qed.

Lemma contracts_reachable i j e0 nfa nfa' :
  reachable nfa → contracts i j e0 nfa nfa' →
  renumber i j e0.1 = renumber i j e0.2.1.2 →
  (∀ st, states nfa !! i = Some st → initialState st = false) →
  reachable nfa'.
Proof.
  intros Hr Hc He0 Hi k' st' Hk'.
  pose proof Hc as (Hm & Hg & Hlen & HA1 & HA2 & HB & HC & HD).
  destruct (HA1 k' st' Hk') as (k & st & Hk & Hki & -> & _).
  destruct (Hr k st Hk) as (s0 & st0 & Hs0 & Hinit & Hpath).
  assert (s0 ≠ i) as Hs0i.
  { intros ->. rewrite (Hi _ Hs0) in Hinit. done. }
  destruct (HA2 s0 st0 Hs0) as (st0' & Hs0' & Hflags). destruct (Hflags Hs0i) as [Hi' _].
  exists (renumber i j s0), st0'. split; [done|]. split; [congruence|].
  by eapply contracts_rtc.
Qed.

Lemma contracts_coreachable i j e0 nfa nfa' :
  coreachable nfa → contracts i j e0 nfa nfa' →
  renumber i j e0.1 = renumber i j e0.2.1.2 →
  (∀ st, states nfa !! i = Some st → finalState st = false) →
  coreachable nfa'.
Proof.
  intros Hr Hc He0 Hi k' st' Hk'.
  pose proof Hc as (Hm & Hg & Hlen & HA1 & HA2 & HB & HC & HD).
  destruct (HA1 k' st' Hk') as (k & st & Hk & Hki & -> & _).
  destruct (Hr k st Hk) as (f & stf & Hf & Hfin & Hpath).
  assert (f ≠ i) as Hfi.
  { intros ->. rewrite (Hi _ Hf) in Hfin. done. }
  destruct (HA2 f stf Hf) as (stf' & Hf' & Hflags). destruct (Hflags Hfi) as [_ Hf''].
  exists (renumber i j f), stf'. split; [done|]. split; [congruence|].
  by eapply contracts_rtc.
Qed.

Lemma contracts_final_entries i j e0 nfa nfa' :
  final_entries nfa → contracts i j e0 nfa nfa' →
  (∀ k st m a, states nfa !! k = Some st → (m, i, a) ∈ transitions st →
               (k, (m, i, a)) = e0) →
  final_entries nfa'.
Proof.
  intros Hf (Hm & Hg & Hlen & HA1 & HA2 & HB & HC & HD) Hinto
    k' st' m t' a tgt' mm Hk' Hin Ht' Hfin Hmm Heps.
  apply (HB _ _ _ _ _ Hk') in Hin as (k & st & t & Hk & Hin & Hne & <- & <-).
  destruct (HA1 _ tgt' Ht') as (u & stu & Hu & Hui & Hrn & _ & Hfu).
  destruct (decide (t = i)) as [->|Hti].
  { exfalso. apply Hne. by eapply Hinto. }
  apply renumber_inj in Hrn; [|done..]. subst u.
  eapply Hf; [exact Hk|exact Hin|exact Hu|congruence|by rewrite <- Hm|done].
Qed.

(** The states as they are when [remove_node i j] is called determine the
    contraction. *)
Lemma remove_node_contracts i j e0 nfa mid :
  i ≠ j →
  (i < List.length (states nfa))%nat → (j < List.length (states nfa))%nat →
  matchers mid = matchers nfa → nGroups mid = nGroups nfa →
  List.length (states mid) = List.length (states nfa) →
  (∀ k st, states nfa !! k = Some st → k ≠ i →
     ∃ stm, states mid !! k = Some stm
       ∧ initialState stm = initialState st ∧ finalState stm = finalState st
       ∧ (∀ m t a, (m, t, a) ∈ transitions stm
                   ↔ ∃ k2 st2, states nfa !! k2 = Some st2 ∧ (m, t, a) ∈ transitions st2
                               ∧ (k2, (m, t, a)) ≠ e0
                               ∧ renumber i j k2 = renumber i j k)
       ∧ (∀ m s a, (m, s, a) ∈ rtransitions stm
                   ↔ ∃ st2 t2, states nfa !! s = Some st2 ∧ (m, t2, a) ∈ transitions st2
                               ∧ (s, (m, t2, a)) ≠ e0
                               ∧ renumber i j t2 = renumber i j k)
       ∧ NoDup (matcher_of <$> transitions stm)) →
  returns (contracts i j e0 nfa) (remove_node i j mid).
Proof.
  intros Hij Hi Hj Hm Hg Hlen Hmid.
  destruct (remove_node_spec i j mid Hij) as (nfa' & -> & Hm' & Hg' & Hlen' & Hspec).
  apply returns_Ok.
  assert (Hnew : ∀ k st, states nfa !! k = Some st → k ≠ i →
    ∃ stm st', states mid !! k = Some stm ∧ states nfa' !! renumber i j k = Some st'
      ∧ initialState st' = initialState st ∧ finalState st' = finalState st
      ∧ (∀ m t' a, (m, t', a) ∈ transitions st'
                   ↔ ∃ t, (m, t, a) ∈ transitions stm ∧ t' = renumber i j t)
      ∧ (∀ m s' a, (m, s', a) ∈ rtransitions st'
                   ↔ ∃ s, (m, s, a) ∈ rtransitions stm ∧ s' = renumber i j s)
      ∧ matcher_of <$> transitions st' = matcher_of <$> transitions stm).
  { intros k st Hk Hki. destruct (Hmid k st Hk Hki) as (stm & Hkm & Hfi & Hff & _).
    specialize (Hspec (renumber i j k)). rewrite unshift_renumber, Hkm in Hspec by done.
    destruct Hspec as (st' & Hk' & Hi' & Hf' & Htr & Hrt & Hmat).
    exists stm, st'. rewrite Hi', Hf'. done. }
  assert (Hold : ∀ k' st', states nfa' !! k' = Some st' →
    ∃ k st, states nfa !! k = Some st ∧ k ≠ i ∧ k' = renumber i j k).
  { intros k' st' Hk'. specialize (Hspec k').
    destruct (states mid !! unshift i k') as [stm|] eqn:Hkm; [|congruence].
    destruct (lookup_lt_is_Some_2 (states nfa) (unshift i k')) as [st Hst].
    { rewrite <- Hlen. by eapply lookup_lt_Some. }
    exists (unshift i k'), st. split; [done|]. split; [apply unshift_ne|].
    by rewrite renumber_unshift. }
  split; [by rewrite Hm'|]. split; [by rewrite Hg'|]. split.
  { rewrite Hlen', <- Hlen.
    rewrite delete_take_drop, length_app, length_take, length_drop. lia. }
  split; [|split; [|split; [|split]]].
  - intros k' st' Hk'. destruct (Hold k' st' Hk') as (k & st & Hk & Hki & ->).
    destruct (Hnew k st Hk Hki) as (stm & st2 & _ & Hk2 & Hfi & Hff & _).
    assert (st2 = st') as -> by congruence. by exists k, st.
  - intros k st Hk. destruct (decide (k = i)) as [->|Hki].
    + destruct (lookup_lt_is_Some_2 _ _ Hj) as [stj Hstj].
      destruct (Hnew j stj Hstj) as (stm & st' & _ & Hk' & _); [done|].
      exists st'. rewrite renumber_merged by done. done.
    + destruct (Hnew k st Hk Hki) as (stm & st' & _ & Hk' & Hfi & Hff & _).
      exists st'. done.
  - intros k' st' m t' a Hk'. destruct (Hold k' st' Hk') as (k & st & Hk & Hki & ->).
    destruct (Hnew k st Hk Hki) as (stm & st2 & Hkm & Hk2 & _ & _ & Htr & _).
    assert (st2 = st') as -> by congruence.
    destruct (Hmid k st Hk Hki) as (stm2 & Hkm2 & _ & _ & HF & _).
    assert (stm2 = stm) as -> by congruence.
    rewrite Htr. split.
    + intros (t & Hin & ->). apply HF in Hin as (k2 & st2 & Hk2' & Hin & Hne & Hrn).
      by exists k2, st2, t.
    + intros (k2 & st2 & t & Hk2' & Hin & Hne & Hrn & <-). exists t. split; [|done].
      apply HF. by exists k2, st2.
  - intros t' tgt' m k' a Ht'. destruct (Hold t' tgt' Ht') as (t & tgt & Ht & Hti & ->).
    destruct (Hnew t tgt Ht Hti) as (stm & st2 & Hkm & Hk2 & _ & _ & _ & Hrt & _).
    assert (st2 = tgt') as -> by congruence.
    destruct (Hmid t tgt Ht Hti) as (stm2 & Hkm2 & _ & _ & _ & HR & _).
    assert (stm2 = stm) as -> by congruence.
    rewrite Hrt. split.
    + intros (s & Hin & ->). apply HR in Hin as (st2 & t2 & Hs & Hin & Hne & Hrn).
      by exists s, st2, t2.
    + intros (k & st & t2 & Hk & Hin & Hne & <- & Hrn). exists k. split; [|done].
      apply HR. by exists st, t2.
  - intros k' st' Hk'. destruct (Hold k' st' Hk') as (k & st & Hk & Hki & ->).
    destruct (Hnew k st Hk Hki) as (stm & st2 & Hkm & Hk2 & _ & _ & _ & _ & Hmat).
    assert (st2 = st') as -> by congruence. rewrite Hmat.
    destruct (Hmid k st Hk Hki) as (stm2 & Hkm2 & _ & _ & _ & _ & Hnd).
    by assert (stm2 = stm) as -> by congruence.
Qed.

(** [std::find] finds what is there. *)
Lemma find_index_lookup x l :
  x ∈ l → ∃ idx, find_index x l = Some idx ∧ l !! idx = Some x.
Proof.
  induction l as [|y l IH]; [by intros ?%elem_of_nil|]. intros Hin. simpl.
  case_bool_decide as Hyx; [exists 0%nat; by subst|].
  apply elem_of_cons in Hin as [?|Hin]; [congruence|].
  destruct (IH Hin) as (idx & -> & Hidx). by exists (S idx).
Qed.

(** A path between two states enters the last and leaves the first. *)
Lemma rtc_enters (R : relation nat) x y :
  rtc R x y → x ≠ y → ∃ p, p ≠ y ∧ R p y.
Proof.
  revert y. apply (rtc_ind_r (λ y, x ≠ y → ∃ p, p ≠ y ∧ R p y)); [done|].
  intros y z _ Hyz IH Hxz. destruct (decide (y = z)) as [->|Hne]; [by apply IH|]. by exists y.
Qed.

Lemma rtc_leaves (R : relation nat) x y :
  rtc R x y → x ≠ y → ∃ p, p ≠ x ∧ R x p.
Proof.
  induction 1 as [|x p y Hxp Hpy IH]; [done|].
  intros Hxy. destruct (decide (p = x)) as [->|Hne]; [by apply IH|]. by exists p.
Qed.

Lemma NoDup_splice {A} (l1 l2 mid : list A) y :
  NoDup (l1 ++ y :: l2) → NoDup mid →
  (∀ x, x ∈ mid → (x ∉ l1) ∧ (x ∉ l2)) →
  NoDup (l1 ++ mid ++ l2).
Proof.
  rewrite !NoDup_app, NoDup_cons. intros (H1 & H12 & Hy & H2) Hmid Hdisj.
  split; [done|]. split.
  - intros x Hx [Hin|Hin]%elem_of_app.
    + by destruct (Hdisj x Hin).
    + apply (H12 x Hx). by right.
  - split; [done|]. split; [|done]. intros x Hx. by destruct (Hdisj x Hx).
Qed.

Lemma NoDup_middle {A} (l1 l2 : list A) y x :
  NoDup (l1 ++ y :: l2) → x ∈ l1 ++ l2 → x ≠ y.
Proof.
  rewrite NoDup_app, NoDup_cons. intros (H1 & H12 & Hy & H2) [Hin|Hin]%elem_of_app ->.
  - apply (H12 y Hin). by left.
  - done.
Qed.

(** The body of the first loop.  A state that is not initial is reached from
    another state, so it has a reverse transition and, when it has only one,
    that is not a loop on the state: [remove_node(i, i)] is not called and
    the merge inserts no vector into itself.  The transition to erase is
    found because the reverse transition has its forward transition. *)
Lemma merge_into_predecessor_returns i nfa :
  consistent nfa → reachable nfa → coreachable nfa → final_entries nfa →
  (i < List.length (states nfa))%nat →
  returns (λ nfa', consistent nfa' ∧ reachable nfa' ∧ coreachable nfa' ∧ final_entries nfa'
                   ∧ (i ≤ List.length (states nfa'))%nat)
    (merge_into_predecessor i nfa).
Proof.
  intros Hc Hr Hco Hf Hi. unfold merge_into_predecessor.
  destruct (lookup_lt_is_Some_2 _ _ Hi) as [state Hst]. rewrite Hst.
  cbn [deref mbind result_bind].
  assert (Hsame : returns (λ nfa', consistent nfa' ∧ reachable nfa' ∧ coreachable nfa'
                                   ∧ final_entries nfa'
                                   ∧ (i ≤ List.length (states nfa'))%nat) (Ok nfa)).
  { apply returns_Ok. split; [done|]. split; [done|]. split; [done|]. split; [done|]. lia. }
  pose proof Hc as (Hfw & Hbw & Hnd & Hown).
  assert (Hentry : initialState state = false →
                   ∃ p m a, p ≠ i ∧ (m, p, a) ∈ rtransitions state).
  { intros Hinit. destruct (Hr i state Hst) as (s0 & st0 & Hs0 & Hi0 & Hpath).
    destruct (rtc_enters _ _ _ Hpath) as (p & Hp & stp & m & a & Hstp & Hin).
    { intros ->. congruence. }
    destruct (Hfw p stp m i a Hstp Hin) as (_ & _ & tgt & Htgt & Hrt).
    exists p, m, a. split; [done|]. congruence. }
  destruct (elements (rtransitions state)) as [|[[matcher j] info] [|]] eqn:Hel.
  - destruct (initialState state) eqn:Hinit; [exact Hsame|]. exfalso.
    destruct (Hentry eq_refl) as (p & m & a & _ & Hin).
    apply elem_of_elements in Hin. rewrite Hel in Hin. by apply elem_of_nil in Hin.
  - destruct (initialState state) eqn:Hinit; [exact Hsame|]. cbn [negb].
    assert (Hrt : ∀ x, x ∈ rtransitions state ↔ x = (matcher, j, info)).
    { intros x. rewrite <- elem_of_elements, Hel. apply list_elem_of_singleton. }
    destruct (Hbw i state matcher j info Hst) as (pred & Hpred & Hin0); [by apply Hrt|].
    destruct (Hfw j pred matcher i info Hpred Hin0) as (Hlt & _).
    destruct (lookup_lt_is_Some_2 _ _ Hlt) as [m Hm]. rewrite Hm.
    cbn [deref mbind result_bind].
    destruct (is_EpsilonMatcher m && bool_decide (info = None)) eqn:Heps; [|exact Hsame].
    apply andb_true_iff in Heps as [Heps ->%bool_decide_eq_true].
    rewrite Hpred. cbn [deref mbind result_bind].
    destruct (find_index_lookup _ _ Hin0) as (idx & -> & Hidx).
    assert (i ≠ j) as Hij.
    { destruct (Hentry eq_refl) as (p & m' & a' & Hp & Hin). apply Hrt in Hin. congruence. }
    rewrite (proj2 (Nat.eqb_neq i j) Hij).
    assert (Hinto : ∀ k st m' a, states nfa !! k = Some st → (m', i, a) ∈ transitions st →
                                 (k, (m', i, a)) = (j, (matcher, i, None))).
    { intros k st m' a Hk Hin. destruct (Hfw k st m' i a Hk Hin) as (_ & _ & tgt & Htgt & Hr').
      assert (tgt = state) as -> by congruence. apply Hrt in Hr'. congruence. }
    assert (Hnotfinal : finalState state = false).
    { destruct (finalState state) eqn:Hfin; [|done]. exfalso.
      by eapply (Hf j pred matcher i None state m). }
    pose proof (take_drop_middle _ _ _ Hidx) as Hdec.
    pose proof (NoDup_matcher_of _ (Hnd j pred Hpred)) as Hndj.
    rewrite <- Hdec in Hndj.
    eapply returns_impl.
    { apply (remove_node_contracts i j (j, (matcher, i, None)) nfa);
        [done|done|by eapply lookup_lt_Some|done|done|by cbn; rewrite length_insert|].
      intros k st Hk Hki.
      assert (HR : ∀ m' s a, (m', s, a) ∈ rtransitions st
                 ↔ ∃ st2 t2, states nfa !! s = Some st2 ∧ (m', t2, a) ∈ transitions st2
                             ∧ (s, (m', t2, a)) ≠ (j, (matcher, i, None))
                             ∧ renumber i j t2 = renumber i j k).
      { intros m' s a. split.
        - intros Hin. destruct (Hbw k st m' s a Hk Hin) as (st2 & Hs & Htr).
          exists st2, k. split; [done|]. split; [done|]. split; [|done]. congruence.
        - intros (st2 & t2 & Hs & Htr & Hne & Hrn).
          destruct (decide (t2 = i)) as [->|Ht2]; [exfalso; by eapply Hne, Hinto|].
          apply renumber_inj in Hrn; [|done..]. subst t2.
          destruct (Hfw s st2 m' k a Hs Htr) as (_ & _ & tgt & Htgt & Hr').
          congruence. }
      cbn [states set_states].
      destruct (decide (k = j)) as [->|Hkj].
      - assert (st = pred) as -> by congruence.
        eexists. split; [apply list_lookup_insert_eq; by eapply lookup_lt_Some|].
        cbn [initialState finalState transitions rtransitions set_transitions].
        split; [done|]. split; [done|]. split; [|split; [exact HR|]].
        + intros m' t a. split.
          * intros Hin.
            assert ((m', t, a) ∈ take idx (transitions pred) ++ drop (S idx) (transitions pred)
                    ∨ (m', t, a) ∈ transitions state) as [Hin'|Hin'].
            { rewrite !elem_of_app in Hin. rewrite elem_of_app. tauto. }
            -- exists j, pred. split; [done|]. split.
               { rewrite <- Hdec. rewrite elem_of_app in Hin'. rewrite elem_of_app, elem_of_cons.
                 tauto. }
               split; [|done]. intros [= -> -> ->]. by eapply NoDup_middle.
            -- exists i, state. split; [done|]. split; [done|]. split; [congruence|].
               by apply renumber_merged.
          * intros (k2 & st2 & Hk2 & Hin & Hne & Hrn).
            destruct (decide (k2 = i)) as [->|Hk2i].
            { assert (st2 = state) as -> by congruence.
              rewrite !elem_of_app. tauto. }
            apply renumber_inj in Hrn; [|done..]. subst k2.
            assert (st2 = pred) as -> by congruence.
            rewrite <- Hdec in Hin. rewrite elem_of_app, elem_of_cons in Hin.
            rewrite !elem_of_app. destruct Hin as [Hin|[Hin|Hin]]; [tauto| |tauto].
            congruence.
        + rewrite !fmap_app. eapply (NoDup_splice _ _ _ matcher).
          * specialize (Hnd j pred Hpred). rewrite <- Hdec, fmap_app, fmap_cons in Hnd.
            exact Hnd.
          * by eapply Hnd.
          * intros x ([[m1 t1] a1] & -> & Hin1)%list_elem_of_fmap.
            assert (∀ tr, tr ∈ transitions pred → matcher_of tr ≠ m1) as Hother.
            { intros [[m2 t2] a2] Hin2 Heq. unfold matcher_of in Heq. simpl in Heq. subst m2.
              apply Hij. by eapply (Hown i j state pred m1). }
            split; intros ([[m2 t2] a2] & Heq & Hin2)%list_elem_of_fmap;
              eapply (Hother (m2, t2, a2)); try done.
            -- apply (elem_of_take_or_drop _ idx 0). by left.
            -- apply (elem_of_take_or_drop _ 0 (S idx)). by right.
      - exists st. split; [by rewrite list_lookup_insert_ne|].
        split; [done|]. split; [done|]. split; [|split; [exact HR|by eapply Hnd]].
        intros m' t a. split.
        + intros Hin. exists k, st. split; [done|]. split; [done|]. split; [congruence|done].
        + intros (k2 & st2 & Hk2 & Hin & Hne & Hrn).
          destruct (decide (k2 = i)) as [->|Hk2i].
          { rewrite renumber_merged in Hrn by done.
            apply renumber_inj in Hrn; [|done..]. congruence. }
          apply renumber_inj in Hrn; [|done..]. subst k2. congruence. }
    intros nfa' Hcontr. split; [by eapply contracts_consistent|].
    split; [|split; [|split]].
    + eapply contracts_reachable; [done|done|symmetry; by apply renumber_merged|].
      intros st' Hst'. congruence.
    + eapply contracts_coreachable; [done|done|symmetry; by apply renumber_merged|].
      intros st' Hst'. congruence.
    + by eapply contracts_final_entries.
    + destruct Hcontr as (_ & _ & Hlen & _). lia.
  - exact Hsame.
Qed.

(** The body of the second loop, in the same way from the paths to a final
    state. *)
Lemma merge_into_successor_returns i nfa :
  consistent nfa → coreachable nfa →
  (i < List.length (states nfa))%nat →
  returns (λ nfa', consistent nfa' ∧ coreachable nfa'
                   ∧ (i ≤ List.length (states nfa'))%nat)
    (merge_into_successor i nfa).
Proof.
  intros Hc Hco Hi. unfold merge_into_successor.
  destruct (lookup_lt_is_Some_2 _ _ Hi) as [state Hst]. rewrite Hst.
  cbn [deref mbind result_bind].
  assert (Hsame : returns (λ nfa', consistent nfa' ∧ coreachable nfa'
                                   ∧ (i ≤ List.length (states nfa'))%nat) (Ok nfa)).
  { apply returns_Ok. split; [done|]. split; [done|]. lia. }
  pose proof Hc as (Hfw & Hbw & Hnd & Hown).
  assert (Hexit : finalState state = false →
                  ∃ p m a, p ≠ i ∧ (m, p, a) ∈ transitions state).
  { intros Hfin. destruct (Hco i state Hst) as (f & stf & Hf & Hff & Hpath).
    destruct (rtc_leaves _ _ _ Hpath) as (p & Hp & st & m & a & Hst' & Hin).
    { intros ->. congruence. }
    exists p, m, a. split; [done|]. congruence. }
  destruct (transitions state) as [|[[matcher j] info] [|]] eqn:Htr.
  - destruct (finalState state) eqn:Hfin; [exact Hsame|]. exfalso.
    destruct (Hexit eq_refl) as (p & m & a & _ & Hin). by apply elem_of_nil in Hin.
  - destruct (finalState state) eqn:Hfin; [exact Hsame|]. cbn [negb].
    assert (Hout : ∀ x, x ∈ transitions state ↔ x = (matcher, j, info)).
    { intros x. rewrite Htr. apply list_elem_of_singleton. }
    destruct (Hfw i state matcher j info Hst) as (Hlt & _ & succ & Hsucc & Hin0);
      [by apply Hout|].
    destruct (lookup_lt_is_Some_2 _ _ Hlt) as [m Hm]. rewrite Hm.
    cbn [deref mbind result_bind].
    destruct (is_EpsilonMatcher m && bool_decide (info = None)) eqn:Heps; [|exact Hsame].
    apply andb_true_iff in Heps as [Heps ->%bool_decide_eq_true].
    rewrite Hsucc. cbn [deref mbind result_bind].
    rewrite (bool_decide_eq_true_2 _ Hin0). cbn [assert mbind result_bind].
    assert (i ≠ j) as Hij.
    { destruct (Hexit eq_refl) as (p & m' & a' & Hp & Hin).
      apply list_elem_of_singleton in Hin. congruence. }
    rewrite (proj2 (Nat.eqb_neq i j) Hij).
    eapply returns_impl.
    { apply (remove_node_contracts i j (i, (matcher, j, None)) nfa);
        [done|done|by eapply lookup_lt_Some|done|done|by cbn; rewrite length_insert|].
      intros k st Hk Hki.
      assert (HF : ∀ m' t a, (m', t, a) ∈ transitions st
                 ↔ ∃ k2 st2, states nfa !! k2 = Some st2 ∧ (m', t, a) ∈ transitions st2
                             ∧ (k2, (m', t, a)) ≠ (i, (matcher, j, None))
                             ∧ renumber i j k2 = renumber i j k).
      { intros m' t a. split.
        - intros Hin. exists k, st. split; [done|]. split; [done|]. split; [congruence|done].
        - intros (k2 & st2 & Hk2 & Hin & Hne & Hrn).
          destruct (decide (k2 = i)) as [->|Hk2i].
          { assert (st2 = state) as -> by congruence. apply Hout in Hin. congruence. }
          apply renumber_inj in Hrn; [|done..]. subst k2. congruence. }
      cbn [states set_states].
      destruct (decide (k = j)) as [->|Hkj].
      - assert (st = succ) as -> by congruence.
        eexists. split; [apply list_lookup_insert_eq; by eapply lookup_lt_Some|].
        cbn [initialState finalState transitions rtransitions set_rtransitions].
        split; [done|]. split; [done|]. split; [exact HF|]. split; [|by eapply Hnd].
        intros m' s a. rewrite elem_of_union, elem_of_difference, elem_of_singleton. split.
        + intros [[Hin Hne]|Hin].
          * destruct (Hbw j succ m' s a Hsucc Hin) as (st2 & Hs & Hin2).
            exists st2, j. split; [done|]. split; [done|]. split; [congruence|done].
          * destruct (Hbw i state m' s a Hst Hin) as (st2 & Hs & Hin2).
            exists st2, i. split; [done|]. split; [done|]. split; [congruence|].
            by apply renumber_merged.
        + intros (st2 & t2 & Hs & Hin & Hne & Hrn).
          destruct (decide (t2 = i)) as [->|Ht2].
          * right. destruct (Hfw s st2 m' i a Hs Hin) as (_ & _ & tgt & Htgt & Hr').
            congruence.
          * apply renumber_inj in Hrn; [|done..]. subst t2. left.
            destruct (Hfw s st2 m' j a Hs Hin) as (_ & _ & tgt & Htgt & Hr').
            split; [congruence|]. congruence.
      - exists st. split; [by rewrite list_lookup_insert_ne|].
        split; [done|]. split; [done|]. split; [exact HF|]. split; [|by eapply Hnd].
        intros m' s a. split.
        + intros Hin. destruct (Hbw k st m' s a Hk Hin) as (st2 & Hs & Hin2).
          exists st2, k. split; [done|]. split; [done|]. split; [congruence|done].
        + intros (st2 & t2 & Hs & Hin & Hne & Hrn).
          destruct (decide (t2 = i)) as [->|Ht2].
          { rewrite renumber_merged in Hrn by done.
            apply renumber_inj in Hrn; [|done..]. congruence. }
          apply renumber_inj in Hrn; [|done..]. subst t2.
          destruct (Hfw s st2 m' k a Hs Hin) as (_ & _ & tgt & Htgt & Hr').
          congruence. }
    intros nfa' Hcontr. split; [by eapply contracts_consistent|]. split.
    + eapply contracts_coreachable; [done|done|by apply renumber_merged|].
      intros st' Hst'. congruence.
    + destruct Hcontr as (_ & _ & Hlen & _). lia.
  - exact Hsame.
Qed.

(** The loops run down from the last state, and a turn removes at most the
    state it is at. *)
Lemma downward_returns (Inv : NFA → Prop) body :
  (∀ i nfa, Inv nfa → (i < List.length (states nfa))%nat →
            returns (λ nfa', Inv nfa' ∧ (i ≤ List.length (states nfa'))%nat) (body i nfa)) →
  ∀ n nfa, Inv nfa → (n ≤ List.length (states nfa))%nat →
           returns Inv (downward body n nfa).
Proof.
  intros Hbody. induction n as [|n IH]; intros nfa HInv Hn; simpl.
  - by apply returns_Ok.
  - eapply returns_bind; [apply Hbody; [done|lia]|].
    intros nfa' [HInv' Hlen]. by apply IH.
Qed.

(** [NFA::optimize] fails none of its assertions, keeps what [check]
    asserts and leaves no state from which no final state is reached. *)
Lemma optimize_returns nfa :
  consistent nfa → reachable nfa → coreachable nfa → final_entries nfa →
  returns (λ nfa', consistent nfa' ∧ coreachable nfa') (optimize nfa).
Proof.
  intros Hc Hr Hco Hf. unfold optimize.
  eapply returns_bind.
  { apply (downward_returns
             (λ nfa, consistent nfa ∧ reachable nfa ∧ coreachable nfa ∧ final_entries nfa));
      [|done|done].
    intros i nfa0 (? & ? & ? & ?) Hi.
    eapply returns_impl; [by apply merge_into_predecessor_returns|].
    intros nfa' (? & ? & ? & ? & ?). done. }
  intros nfa1 (Hc1 & _ & Hco1 & _).
  eapply returns_impl.
  { apply (downward_returns (λ nfa, consistent nfa ∧ coreachable nfa)); [|done|done].
    intros i nfa0 (? & ?) Hi.
    eapply returns_impl; [by apply merge_into_successor_returns|].
    intros nfa' (? & ? & ?). done. }
  by intros nfa2 ?.
Qed.

(** *** The trees of the parser are well formed *)

(** The parser rewrites the tree at the top slot of its stack only, with
    nodes built from well-formed parts. *)
Lemma forallb_insert {A} (f : A → bool) l k x :
  forallb f l = true → f x = true → forallb f (<[k:=x]> l) = true.
Proof.
  revert k. induction l as [|y l IH]; intros k; [done|]. simpl.
  intros [Hy Hl]%andb_true_iff Hx. destruct k as [|k]; simpl.
  - by rewrite Hx, Hl.
  - by rewrite Hy, IH.
Qed.

Lemma forallb_lookup {A} (f : A → bool) l k x :
  forallb f l = true → l !! k = Some x → f x = true.
Proof.
  intros Hl Hk. rewrite forallb_forall in Hl. apply Hl.
  by eapply list_elem_of_In, list_elem_of_lookup_2.
Qed.

Lemma child_slot_well_formed n k c :
  child_slot n k = Some c → well_formed n = true → well_formed c = true.
Proof.
  destruct n as [m|capture child|greedy child|greedy child|greedy child
                 |greedy min max unbounded child|childs|childs]; simpl; try done.
  1-4: by destruct k; [intros [= <-]|].
  - destruct k; [intros [= <-]|done]. by intros [_ ?]%andb_true_iff.
  - intros Hk [_ Hall]%andb_true_iff. by eapply forallb_lookup.
  - intros Hk [_ Hall]%andb_true_iff. by eapply forallb_lookup.
Qed.

Lemma set_child_slot_well_formed n k x :
  well_formed n = true → well_formed x = true →
  well_formed (set_child_slot n k x) = true.
Proof.
  destruct n as [m|capture child|greedy child|greedy child|greedy child
                 |greedy min max unbounded child|childs|childs]; simpl; try done.
  - intros [-> _]%andb_true_iff ->. done.
  - intros [Hne Hall]%andb_true_iff Hx. rewrite length_insert, Hne. by apply forallb_insert.
  - intros [Hne Hall]%andb_true_iff Hx. rewrite length_insert, Hne. by apply forallb_insert.
Qed.

Lemma get_slot_well_formed p : ∀ root n,
  get_slot root p = Some n → well_formed root = true → well_formed n = true.
Proof.
  induction p as [|k p IH]; intros root n; simpl; [by intros [= <-]|].
  destruct (child_slot root k) as [child|] eqn:Hk; [|done]. simpl.
  intros Hn Hwf. eapply IH; [exact Hn|]. by eapply child_slot_well_formed.
Qed.

Lemma set_slot_well_formed p : ∀ root x root',
  set_slot root p x = Some root' →
  well_formed root = true → well_formed x = true → well_formed root' = true.
Proof.
  induction p as [|k p IH]; intros root x root'; simpl; [by intros [= <-]|].
  destruct (child_slot root k) as [child|] eqn:Hk; [|done]. simpl.
  destruct (set_slot child p x) as [child'|] eqn:Hs; [|done]. simpl.
  intros [= <-] Hwf Hx. apply set_child_slot_well_formed; [done|].
  eapply IH; [exact Hs| |done]. by eapply child_slot_well_formed.
Qed.

Lemma top_node_well_formed st n :
  top_node st = Ok n → well_formed (ast_root st) = true → well_formed n = true.
Proof.
  unfold top_node. intros (p & _ & Hn%deref_Ok)%bind_Ok. by eapply get_slot_well_formed.
Qed.

Lemma set_top_well_formed x st st' :
  set_top x st = Ok st' →
  well_formed (ast_root st) = true → well_formed x = true →
  well_formed (ast_root st') = true.
Proof.
  unfold set_top. intros (p & _ & H)%bind_Ok.
  apply bind_Ok in H as (root & Hr%deref_Ok & [= <-]). simpl.
  by eapply set_slot_well_formed.
Qed.

Lemma size_t_wrap_nonneg z : (0 <=? size_t_wrap z) = true.
Proof. apply Z.leb_le. unfold size_t_wrap. apply Z.mod_pos_bound. lia. Qed.

Lemma well_formed_snoc childs x :
  forallb well_formed childs = true → well_formed x = true →
  negb (List.length (childs ++ [x]) =? 0)%nat && forallb well_formed (childs ++ [x]) = true.
Proof.
  intros Hall Hx. rewrite length_app, forallb_app, Hall. simpl. rewrite Hx.
  by rewrite Nat.add_1_r.
Qed.

Lemma make_lazy_well_formed n : well_formed n = true → well_formed (make_lazy n) = true.
Proof. by destruct n. Qed.

Lemma currmatcher_well_formed c st matcher st' :
  currmatcher c st = Ok (matcher, st') →
  well_formed matcher = true ∧ ast_root st' = ast_root st.
Proof.
  unfold currmatcher. intros H.
  repeat match goal with
         | H : (if ?b then _ else _) = Ok _ |- _ => destruct b eqn:?
         | H : match ?x with _ => _ end = Ok _ |- _ => destruct x eqn:?
         | H : (let '(_, _) := ?x in _) = Ok _ |- _ => destruct x
         end; try discriminate; by injection H as <- <-.
Qed.

(** The cases of a turn of the parser's loop that returned. *)
Ltac step_case :=
  match goal with
  | H : Err _ = Ok _ |- _ => discriminate H
  | H : Ok _ = Ok _ |- _ => injection H as <-
  | H : (_ ≫= _) = Ok _ |- _ => apply bind_Ok in H as (? & ? & H)
  | H : (let '(_, _) := ?x in _) = Ok _ |- _ => destruct x
  | H : (if ?b then _ else _) = Ok _ |- _ => destruct b eqn:?
  | H : match ?x with _ => _ end = Ok _ |- _ => destruct x eqn:?
  | H : context [match parent ?r ?p with _ => _ end] |- _ =>
      destruct (parent r p) as [[]|] eqn:?
  | H : _ = Ok _ |- _ => progress cbv zeta in H
  end.

Ltac well_formed_solve :=
  simpl;
  repeat match goal with
         | H : well_formed (_ _) = true |- _ => progress simpl in H
         | H : _ && _ = true |- _ => apply andb_true_iff in H as [? ?]
         end;
  first [ assumption
        | apply size_t_wrap_nonneg
        | by apply well_formed_snoc
        | by apply make_lazy_well_formed
        | rewrite ?size_t_wrap_nonneg;
          repeat match goal with H : _ = true |- _ => rewrite H end; done ].

Ltac well_formed_step :=
  match goal with
  | H : currmatcher _ ?st = Ok (_, _) |- _ =>
      let Hr := fresh "Hroot" in
      apply currmatcher_well_formed in H as [? Hr];
      match goal with
      | Hwf : well_formed (ast_root st) = true |- _ => rewrite <- Hr in Hwf
      end
  | H : top_node ?st = Ok ?n |- _ =>
      apply top_node_well_formed in H; [|simpl; assumption]
  | H : set_top ?x ?st = Ok ?st' |- _ =>
      apply set_top_well_formed in H; [|simpl; assumption|well_formed_solve]
  end.

Ltac well_formed_goal :=
  simpl;
  repeat match goal with
         | |- context [if ?b then _ else _] => destruct b; simpl
         end;
  done.

Lemma class_environment_root c st f :
  class_environment c st = Ok f →
  match f with Continue st' | Next st' => ast_root st' = ast_root st end.
Proof. unfold class_environment. intros H. repeat step_case; done. Qed.

Lemma class_brackets_root c st f :
  class_brackets c st = Ok f →
  match f with Continue st' | Next st' => ast_root st' = ast_root st end.
Proof. unfold class_brackets. intros H. repeat step_case; done. Qed.

Lemma multiply_environment_step_well_formed c st f :
  multiply_environment_step c st = Ok f →
  well_formed (ast_root st) = true →
  match f with Continue st' | Next st' => well_formed (ast_root st') = true end.
Proof.
  unfold multiply_environment_step. intros H Hwf.
  repeat step_case; repeat well_formed_step; simpl; done.
Qed.

Lemma multiply_brackets_well_formed c st f :
  multiply_brackets c st = Ok f →
  well_formed (ast_root st) = true →
  match f with Continue st' | Next st' => well_formed (ast_root st') = true end.
Proof.
  unfold multiply_brackets. intros H Hwf.
  repeat step_case; repeat well_formed_step; simpl; done.
Qed.

Lemma normal_environment_well_formed c st st' :
  normal_environment c st = Ok st' →
  well_formed (ast_root st) = true →
  well_formed (ast_root st') = true.
Proof.
  unfold normal_environment. intros H Hwf.
  repeat step_case; repeat well_formed_step; well_formed_goal.
Qed.

Lemma step_well_formed st c st' :
  step st c = Ok st' →
  well_formed (ast_root st) = true → well_formed (ast_root st') = true.
Proof.
  unfold step. intros H Hwf.
  destruct ((c =? ch "\") && negb (escaped st)); [by injection H as <-|].
  apply bind_Ok in H as (f1 & H1%class_environment_root & H).
  destruct f1 as [st1|st1]; [injection H as <-; by rewrite H1|].
  apply bind_Ok in H as (f2 & H2%class_brackets_root & H).
  destruct f2 as [st2|st2]; [injection H as <-; by rewrite H2, H1|].
  rewrite <- H1, <- H2 in Hwf.
  apply bind_Ok in H as (f3 & H3 & H).
  apply multiply_environment_step_well_formed in H3; [|done].
  destruct f3 as [st3|st3]; [by injection H as <-|].
  apply bind_Ok in H as (f4 & H4 & H).
  apply multiply_brackets_well_formed in H4; [|done].
  destruct f4 as [st4|st4]; [by injection H as <-|].
  by eapply normal_environment_well_formed.
Qed.

Lemma parse_loop_well_formed regex : ∀ st st',
  parse_loop regex st = Ok st' →
  well_formed (ast_root st) = true → well_formed (ast_root st') = true.
Proof.
  unfold parse_loop. induction regex as [|c regex IH]; intros st st'; simpl.
  - by intros [= <-].
  - destruct (step st c) as [st1|e] eqn:Hstep.
    + intros H Hwf. eapply IH; [exact H|]. by eapply step_well_formed.
    + intros H. exfalso. revert H. clear. induction regex as [|c' regex IH]; simpl; [done|].
      exact IH.
Qed.

(** [optimizeAST] on a node: the children first, then [optimize_node]. *)
Lemma optimizeAST_eq root :
  optimizeAST root
  = (root ← match root with
            | Leaf m => Ok root
            | BracketNode capture child =>
                child ← optimizeAST child; Ok (BracketNode capture child)
            | KleeneStarNode greedy child =>
                child ← optimizeAST child; Ok (KleeneStarNode greedy child)
            | OneOrMoreNode greedy child =>
                child ← optimizeAST child; Ok (OneOrMoreNode greedy child)
            | OneOrNoneNode greedy child =>
                child ← optimizeAST child; Ok (OneOrNoneNode greedy child)
            | MultiplyNode greedy min max unbounded child =>
                child ← optimizeAST child; Ok (MultiplyNode greedy min max unbounded child)
            | ConcatenationNode childs =>
                childs ← optimize_childs childs; Ok (ConcatenationNode childs)
            | DisjunctionNode childs =>
                childs ← optimize_childs childs; Ok (DisjunctionNode childs)
            end;
     optimize_node root).
Proof. destruct root; reflexivity. Qed.

#[local] Opaque optimizeAST.

(** An induction principle for [optimizeAST]: a relation between a tree
    and its optimized form that [optimize_node] keeps, in the sense below,
    holds of every tree. *)
Section optimizeAST_ind.
Variable R : ASTNode → ASTNode → Prop.
Hypothesis HLeaf : ∀ m r, optimize_node (Leaf m) = Ok r → R (Leaf m) r.
Hypothesis HBracket : ∀ capture child child' r,
  R child child' → optimize_node (BracketNode capture child') = Ok r →
  R (BracketNode capture child) r.
Hypothesis HStar : ∀ greedy child child' r,
  R child child' → optimize_node (KleeneStarNode greedy child') = Ok r →
  R (KleeneStarNode greedy child) r.
Hypothesis HPlus : ∀ greedy child child' r,
  R child child' → optimize_node (OneOrMoreNode greedy child') = Ok r →
  R (OneOrMoreNode greedy child) r.
Hypothesis HOpt : ∀ greedy child child' r,
  R child child' → optimize_node (OneOrNoneNode greedy child') = Ok r →
  R (OneOrNoneNode greedy child) r.
Hypothesis HMul : ∀ greedy min max unbounded child child' r,
  R child child' → optimize_node (MultiplyNode greedy min max unbounded child') = Ok r →
  R (MultiplyNode greedy min max unbounded child) r.
Hypothesis HConcat : ∀ childs childs' r,
  Forall2 R childs childs' → optimize_node (ConcatenationNode childs') = Ok r →
  R (ConcatenationNode childs) r.
Hypothesis HDisj : ∀ childs childs' r,
  Forall2 R childs childs' → optimize_node (DisjunctionNode childs') = Ok r →
  R (DisjunctionNode childs) r.

Lemma optimize_childs_rel childs :
  Forall (λ child, ∀ r, optimizeAST child = Ok r → R child r) childs →
  ∀ childs', optimize_childs childs = Ok childs' → Forall2 R childs childs'.
Proof.
  induction 1 as [|child childs Hchild _ IH]; intros childs'; simpl.
  - intros [= <-]. constructor.
  - intros (child' & Hc & H)%bind_Ok. apply bind_Ok in H as (rest & Hrest & [= <-]).
    constructor; [by apply Hchild|by apply IH].
Qed.

Lemma optimizeAST_rel root : ∀ r, optimizeAST root = Ok r → R root r.
Proof.
  induction root as [m|capture child IH|greedy child IH|greedy child IH|greedy child IH
                     |greedy min max unbounded child IH|childs IH|childs IH]
    using ASTNode_ind'; intros r; rewrite optimizeAST_eq;
    intros (root1 & H1 & H)%bind_Ok.
  - injection H1 as <-. by apply HLeaf.
  - apply bind_Ok in H1 as (child' & Hc & [= <-]). eapply HBracket; [by apply IH|done].
  - apply bind_Ok in H1 as (child' & Hc & [= <-]). eapply HStar; [by apply IH|done].
  - apply bind_Ok in H1 as (child' & Hc & [= <-]). eapply HPlus; [by apply IH|done].
  - apply bind_Ok in H1 as (child' & Hc & [= <-]). eapply HOpt; [by apply IH|done].
  - apply bind_Ok in H1 as (child' & Hc & [= <-]). eapply HMul; [by apply IH|done].
  - apply bind_Ok in H1 as (childs' & Hc & [= <-]).
    eapply HConcat; [by apply optimize_childs_rel|done].
  - apply bind_Ok in H1 as (childs' & Hc & [= <-]).
    eapply HDisj; [by apply optimize_childs_rel|done].
Qed.
End optimizeAST_ind.

(** An invariant of the quantifier collapse: what a merge keeps, the
    retries keep. *)
Lemma foldl_hh_invariant (Q : ASTNode → Prop) retry :
  (∀ T1 T2 root merged, Q root → merge_pair T1 T2 root = Some merged → Q merged) →
  (∀ merged r, Q merged → retry merged = Ok r → Q r) →
  ∀ pairs root r,
    Q root →
    foldl (fun acc T => root ← acc; _merge_oneor_hh retry T root) (Ok root) pairs = Ok r →
    Q r.
Proof.
  intros Hmerge Hretry. induction pairs as [|T pairs IH]; intros root r HQ; simpl.
  - by intros [= <-].
  - unfold _merge_oneor_hh at 2.
    destruct (merge_pair T.1 T.2 root) as [merged|] eqn:Hm.
    + destruct (retry merged) as [r1|e] eqn:Hr1; [|by rewrite foldl_hh_Err].
      apply IH. eapply Hretry; [|done]. by eapply Hmerge.
    + by apply IH.
Qed.

Lemma _merge_oneor_h_invariant (Q : ASTNode → Prop) :
  (∀ T1 T2 root merged, Q root → merge_pair T1 T2 root = Some merged → Q merged) →
  ∀ fuel root r, Q root → _merge_oneor_h fuel root = Ok r → Q r.
Proof.
  intros Hmerge. induction fuel as [|fuel IH]; intros root r HQ.
  - apply (foldl_hh_invariant Q); done.
  - apply (foldl_hh_invariant Q); [done| |done]. intros merged r1. apply IH.
Qed.

Lemma as_quantifier_Some T n greedy child :
  as_quantifier T n = Some (greedy, child) → n = make_quantifier T greedy child.
Proof. destruct T, n; try done; by intros [= -> ->]. Qed.

Lemma merge_pair_shape T1 T2 root merged :
  merge_pair T1 T2 root = Some merged →
  ∃ greedy1 greedy2 T greedy child2,
    root = make_quantifier T1 greedy1 (make_quantifier T2 greedy2 child2)
    ∧ merged = make_quantifier T greedy child2.
Proof.
  unfold merge_pair. intros H.
  destruct (as_quantifier T1 root) as [[greedy1 child1]|] eqn:H1; [|done].
  destruct (as_quantifier T2 child1) as [[greedy2 child2]|] eqn:H2; [|done].
  apply as_quantifier_Some in H1 as ->. apply as_quantifier_Some in H2 as ->.
  exists greedy1, greedy2.
  repeat match type of H with
         | (if ?b then _ else _) = _ => destruct b
         end; try done; injection H as <-.
  - by eexists T1, _, child2.
  - by eexists KleeneStar, _, child2.
  - by eexists KleeneStar, _, child2.
  - by eexists KleeneStar, _, child2.
Qed.

(** [optimizeAST] keeps the trees well formed. *)
Lemma well_formed_make_quantifier T greedy child :
  well_formed (make_quantifier T greedy child) = well_formed child.
Proof. by destruct T. Qed.

Lemma merge_pair_well_formed T1 T2 root merged :
  well_formed root = true → merge_pair T1 T2 root = Some merged →
  well_formed merged = true.
Proof.
  intros Hwf (greedy1 & greedy2 & T & greedy & child2 & -> & ->)%merge_pair_shape.
  by rewrite !well_formed_make_quantifier in *.
Qed.

Lemma splice_Concatenation_well_formed childs :
  forallb well_formed childs = true →
  let childs' := foldr (fun child done =>
                          match child with
                          | ConcatenationNode arg => arg ++ done
                          | _ => child :: done
                          end) [] childs in
  forallb well_formed childs' = true ∧ (childs ≠ [] → childs' ≠ []).
Proof.
  induction childs as [|child childs IH]; simpl; [done|].
  intros [Hchild Hall]%andb_true_iff. destruct (IH Hall) as [IH1 _].
  destruct child as [| | | | | |arg|]; simpl in *;
    try (split; [by rewrite ?Hchild, IH1|done]).
  apply andb_true_iff in Hchild as [Hne Harg]. split.
  - by rewrite forallb_app, Harg, IH1.
  - intros _. by destruct arg.
Qed.

Lemma splice_Disjunction_well_formed childs :
  forallb well_formed childs = true →
  let childs' := foldr (fun child done =>
                          match child with
                          | DisjunctionNode arg => arg ++ done
                          | _ => child :: done
                          end) [] childs in
  forallb well_formed childs' = true ∧ (childs ≠ [] → childs' ≠ []).
Proof.
  induction childs as [|child childs IH]; simpl; [done|].
  intros [Hchild Hall]%andb_true_iff. destruct (IH Hall) as [IH1 _].
  destruct child as [| | | | | | |arg]; simpl in *;
    try (split; [by rewrite ?Hchild, IH1|done]).
  apply andb_true_iff in Hchild as [Hne Harg]. split.
  - by rewrite forallb_app, Harg, IH1.
  - intros _. by destruct arg.
Qed.

Lemma length_eqb_0 {A} (l : list A) : negb (List.length l =? 0)%nat = true ↔ l ≠ [].
Proof. by destruct l. Qed.

Lemma _merge_node_down_Concatenation_well_formed root :
  well_formed root = true → well_formed (_merge_node_down_Concatenation root) = true.
Proof.
  destruct root as [| | | | | |childs|]; simpl; try done.
  intros [Hne Hall]%andb_true_iff.
  destruct (splice_Concatenation_well_formed childs Hall) as [H1 H2].
  rewrite H1, andb_true_r. apply length_eqb_0, H2. by apply length_eqb_0.
Qed.

Lemma _merge_node_down_Disjunction_well_formed root :
  well_formed root = true → well_formed (_merge_node_down_Disjunction root) = true.
Proof.
  destruct root as [| | | | | | |childs]; simpl; try done.
  intros [Hne Hall]%andb_true_iff.
  destruct (splice_Disjunction_well_formed childs Hall) as [H1 H2].
  rewrite H1, andb_true_r. apply length_eqb_0, H2. by apply length_eqb_0.
Qed.

Lemma _merge_multiply_well_formed root :
  well_formed root = true → well_formed (_merge_multiply root) = true.
Proof.
  destruct root as [| | | | |greedy min max unbounded child| |]; simpl; try done.
  intros [Hmin Hchild]%andb_true_iff.
  destruct child as [| | | | |greedy2 min2 max2 unbounded2 child2| |];
    try (repeat match goal with
                | |- context [if ?b then _ else _] => destruct b; simpl
                end; by rewrite ?Hmin, ?Hchild).
  simpl in Hchild. apply andb_true_iff in Hchild as [Hmin2 Hchild2].
  destruct (exact min max unbounded && exact min2 max2 unbounded2);
    repeat match goal with
           | |- context [if ?b then _ else _] => destruct b; simpl
           end; by rewrite ?size_t_wrap_nonneg, ?Hmin, ?Hmin2, ?Hchild2.
Qed.

Lemma optimize_node_well_formed root r :
  optimize_node root = Ok r → well_formed root = true → well_formed r = true.
Proof.
  unfold optimize_node. intros H Hwf.
  eapply (_merge_oneor_h_invariant (λ n, well_formed n = true)); [| |exact H].
  - intros T1 T2 n merged. apply merge_pair_well_formed.
  - by apply _merge_multiply_well_formed, _merge_node_down_Disjunction_well_formed,
      _merge_node_down_Concatenation_well_formed.
Qed.

Lemma Forall2_well_formed childs childs' :
  Forall2 (λ root r, well_formed root = true → well_formed r = true) childs childs' →
  negb (List.length childs =? 0)%nat && forallb well_formed childs = true →
  negb (List.length childs' =? 0)%nat && forallb well_formed childs' = true.
Proof.
  intros H [Hne Hall]%andb_true_iff. rewrite <- (Forall2_length _ _ _ H), Hne. simpl.
  clear Hne. induction H as [|child child' childs childs' Hc _ IH]; [done|].
  simpl in *. apply andb_true_iff in Hall as [H1 H2]. by rewrite Hc, IH.
Qed.

Lemma optimizeAST_well_formed root r :
  optimizeAST root = Ok r → well_formed root = true → well_formed r = true.
Proof.
  revert r. apply (optimizeAST_rel (λ root r, well_formed root = true → well_formed r = true)).
  - intros m r H _. by eapply optimize_node_well_formed.
  - intros capture child child' r Hc H Hwf. eapply optimize_node_well_formed; [exact H|].
    simpl in *. by apply Hc.
  - intros greedy child child' r Hc H Hwf. eapply optimize_node_well_formed; [exact H|].
    simpl in *. by apply Hc.
  - intros greedy child child' r Hc H Hwf. eapply optimize_node_well_formed; [exact H|].
    simpl in *. by apply Hc.
  - intros greedy child child' r Hc H Hwf. eapply optimize_node_well_formed; [exact H|].
    simpl in *. by apply Hc.
  - intros greedy min max unbounded child child' r Hc H Hwf.
    eapply optimize_node_well_formed; [exact H|].
    simpl in *. apply andb_true_iff in Hwf as [-> Hwf]. by apply Hc.
  - intros childs childs' r Hc H Hwf. eapply optimize_node_well_formed; [exact H|].
    simpl in *. by eapply Forall2_well_formed.
  - intros childs childs' r Hc H Hwf. eapply optimize_node_well_formed; [exact H|].
    simpl in *. by eapply Forall2_well_formed.
Qed.

(** Every tree the parser returns is well formed. *)
Lemma buildAST_well_formed regex optimize_ ast :
  buildAST regex optimize_ = Ok ast → well_formed (root ast) = true.
Proof.
  unfold buildAST. destruct (anchors regex) as [[anchorbegin anchorend] regex'].
  intros (st & Hst & H)%bind_Ok.
  apply parse_loop_well_formed in Hst; [|done].
  repeat (destruct (_ : bool) in H; [done|]).
  apply bind_Ok in H as (r & Hr & [= <-]). simpl.
  destruct optimize_; [by eapply optimizeAST_well_formed|by injection Hr as <-].
Qed.

(** *** The constructor *)

(** The automaton before the lowering, after it, and after the loops on [.]
    of an unanchored pattern. *)
Lemma initial_consistent : consistent initial_nfa.
Proof.
  split; [|split; [|split]].
  - intros [|[|k]] st m t a; simpl; intros [= <-]; simpl; by intros ?%elem_of_nil.
  - intros [|[|k]] st m t a; simpl; intros [= <-]; simpl; by intros ?%elem_of_empty.
  - intros [|[|k]] st; simpl; intros [= <-]; simpl; constructor.
  - intros [|[|k]] k2 st st2 m t t2 a a2; simpl; intros [= <-]; simpl;
      by intros _ ?%elem_of_nil.
Qed.

Lemma lowered_framed nfa :
  consistent nfa → lowered nfa →
  connects nfa 2 (List.length (states nfa)) 0 1 →
  framed nfa.
Proof.
  intros Hc (Hlen & _ & Hflags & Htrans) [Hpath Hconn].
  split; [done|]. split; [|split; [|split]].
  - intros k Hk. destruct k as [|[|k]]; [done|done|]. apply Hconn. lia.
  - destruct (lookup_lt_is_Some_2 (states nfa) 0) as [st0 H0]; [lia|].
    exists st0. split; [done|]. by apply (Hflags 0%nat st0 H0).
  - destruct (lookup_lt_is_Some_2 (states nfa) 1) as [st1 H1]; [lia|].
    exists st1. split; [done|]. by apply (Hflags 1%nat st1 H1).
  - intros k st m t info tgt mm Hk Hin Ht Hfin _ _ ->.
    destruct (Htrans k st m t None Hk Hin) as (_ & Hclose & _).
    apply (Hflags t tgt Ht) in Hfin. by apply Hclose in Hfin.
Qed.

(** The loop on [.] that an unanchored pattern gets at state 0 or 1. *)
Lemma universal_loop_framed k nfa :
  framed nfa → (k < 2)%nat →
  returns framed (addTransition UniversalMatcher k k [] [] nfa).
Proof.
  intros (Hc & Hpaths & (st0 & H0 & Hinit) & (st1 & H1 & Hfin) & Hfe) Hk.
  assert (2 ≤ List.length (states nfa))%nat as Hlen.
  { apply lookup_lt_Some in H1. lia. }
  destruct (addTransition_consistent UniversalMatcher k k [] [] nfa)
    as (nfa' & Hadd & Hc' & Hext & Hlen' & Hg' & Hedge); [done|lia|lia|done|done|].
  rewrite Hadd. apply returns_Ok.
  destruct (addTransition_shape _ _ _ _ _ _ _ Hadd) as [Hm Hshape].
  assert (Hflags : ∀ i st, states nfa !! i = Some st →
            ∃ st', states nfa' !! i = Some st'
                   ∧ initialState st' = initialState st ∧ finalState st' = finalState st).
  { intros i st Hi. destruct (lookup_lt_is_Some_2 (states nfa') i) as [st' Hi'].
    { rewrite Hlen'. by eapply lookup_lt_Some. }
    destruct (Hshape i st' Hi') as (st2 & Hi2 & ? & ? & _).
    exists st'. split; [done|]. by assert (st2 = st) as <- by congruence. }
  split; [done|]. split; [|split; [|split]].
  - intros i Hi. rewrite Hlen' in Hi. destruct (Hpaths i Hi). split; by eapply extends_rtc.
  - destruct (Hflags 0%nat st0 H0) as (st' & ? & ? & ?). exists st'. split; [done|congruence].
  - destruct (Hflags 1%nat st1 H1) as (st' & ? & ? & ?). exists st'. split; [done|congruence].
  - intros i st' m t info tgt' mm Hi Hin Ht Hf Hmm Heps.
    destruct (Hshape i st' Hi) as (st & Hi0 & _ & _ & Htr).
    destruct (Hshape t tgt' Ht) as (tgt & Ht0 & _ & Hf0 & _).
    destruct (Htr _ Hin) as [Hold|[= -> -> ->]].
    + destruct Hc as (Hfw & _). destruct (Hfw i st m t info Hi0 Hold) as (Hlt & _).
      eapply Hfe; [exact Hi0|exact Hold|exact Ht0|congruence| |done].
      rewrite Hm, lookup_app_l in Hmm by done. done.
    + rewrite Hm, lookup_app_r, Nat.sub_diag in Hmm by done. simpl in Hmm.
      injection Hmm as <-. done.
Qed.

Lemma framed_reachable nfa : framed nfa → reachable nfa ∧ coreachable nfa.
Proof.
  intros (Hc & Hpaths & (st0 & H0 & Hinit) & (st1 & H1 & Hfin) & Hfe). split.
  - intros k st Hk. exists 0%nat, st0. split; [done|]. split; [done|].
    apply Hpaths. by eapply lookup_lt_Some.
  - intros k st Hk. exists 1%nat, st1. split; [done|]. split; [done|].
    apply Hpaths. by eapply lookup_lt_Some.
Qed.

(** [ASTtoNFA] fails no assertion on a well-formed tree, with or without
    optimization; what it returns passes [check] by construction and has no
    state from which no final state is reached. *)
Lemma ASTtoNFA_total ast optimize_ :
  well_formed (root ast) = true →
  returns (λ nfa, consistent nfa ∧ coreachable nfa) (ASTtoNFA ast optimize_).
Proof.
  intros Hwf. rewrite ASTtoNFA_unfold.
  destruct (_ASTtoNFA_builds (root ast) Hwf 0%nat 1%nat [0%nat] [0%nat] initial_nfa)
    as (nfa1 & H1 & Hc1 & Hext1 & Hconn1);
    [apply initial_consistent|simpl; lia|simpl; lia
    |repeat constructor|repeat constructor|].
  rewrite H1. cbn [mbind result_bind].
  assert (framed nfa1) as Hframed.
  { apply lowered_framed; [done| |done].
    eapply _ASTtoNFA_lowers; [exact H1|apply initial_lowered|..]; try done.
    - split; [done|]. intros _. left.
    - intros _. left. }
  eapply (returns_bind framed).
  { destruct (negb (anchorBegin ast)); [|by apply returns_Ok].
    apply universal_loop_framed; [done|lia]. }
  intros nfa2 Hframed2. eapply (returns_bind framed).
  { destruct (negb (anchorEnd ast)); [|by apply returns_Ok].
    apply universal_loop_framed; [done|lia]. }
  intros nfa3 Hframed3.
  eapply (returns_bind (λ nfa, consistent nfa ∧ coreachable nfa)).
  { destruct (framed_reachable nfa3 Hframed3) as [Hr Hco].
    destruct optimize_.
    - apply optimize_returns; [apply Hframed3|done|done|apply Hframed3].
    - apply returns_Ok. split; [apply Hframed3|done]. }
  intros nfa4 [Hc4 Hco4]. rewrite (consistent_check _ Hc4). cbn [assert mbind result_bind].
  by apply returns_Ok.
Qed.

(** C8.  Once a pattern has been parsed, the constructor returns an
    automaton, with or without optimization: none of the assertions of the
    lowering, of [NFA::optimize] or of [NFA::check] fails.  The automaton
    satisfies the mirror invariant: each forward transition [(m, t, a)] of a
    state [i] has its reverse [(m, i, a)] in the set of state [t], and each
    reverse transition stands for exactly one forward transition. *)
Theorem C8_compiled_nfa_is_mirrored regex optimize_ ast :
  buildAST regex optimize_ = Ok ast →
  ∃ nfa, compile regex optimize_ = Ok nfa ∧ mirror nfa.
Proof.
  intros Hast. unfold compile. rewrite Hast. cbn [mbind result_bind].
  destruct (ASTtoNFA_total ast optimize_) as (nfa & H & Hc & _);
    [by eapply buildAST_well_formed|].
  exists nfa. split; [done|]. by apply check_mirror, consistent_check.
Qed.

Lemma C8_compiled_nfa_is_mirrored_witness :
  ∃ ast, buildAST (chars_of_string "(a|b)*c") true = Ok ast
         ∧ ∃ nfa, compile (chars_of_string "(a|b)*c") true = Ok nfa ∧ mirror nfa.
Proof.
  eexists. split.
  - vm_compute. reflexivity.
  - eapply (C8_compiled_nfa_is_mirrored (chars_of_string "(a|b)*c") true).
    vm_compute. reflexivity.
Defined.

(** ** The constructor on well-formed trees *)



(** X23.  An automaton the constructor returned has no dead end: from each of
    its states a final state can be reached. *)
Theorem compiled_reaches_final regex optimize_ nfa :
  compile regex optimize_ = Ok nfa → coreachable nfa.
Proof.
  unfold compile. intros (ast & Hast & H)%bind_Ok.
  destruct (ASTtoNFA_total ast optimize_) as (nfa' & H' & _ & Hco);
    [by eapply buildAST_well_formed|].
  rewrite H' in H. by injection H as <-.
Qed.

Lemma compiled_reaches_final_witness :
  ∃ nfa, compile (chars_of_string "a{2,}|<b?>") true = Ok nfa ∧ coreachable nfa.
Proof.
  eexists. split; [vm_compute; reflexivity|].
  apply (compiled_reaches_final (chars_of_string "a{2,}|<b?>") true).
  vm_compute. reflexivity.
Defined.

(** ** The normal form of a character class *)

Lemma pair_lt_false a b : CharClass.pair_lt a b = false → b.1 ≤ a.1.
Proof. unfold CharClass.pair_lt. intros H. apply orb_false_iff in H as [H _]. lia. Qed.

Lemma pair_lt_true a b : CharClass.pair_lt a b = true → a.1 ≤ b.1.
Proof.
  unfold CharClass.pair_lt. intros [H|[H _]%andb_true_iff]%orb_true_iff; lia.
Qed.

Lemma elem_of_sort_insert x y l : x ∈ CharClass.sort_insert y l ↔ x = y ∨ x ∈ l.
Proof.
  induction l as [|z l IH]; simpl.
  - rewrite list_elem_of_singleton, elem_of_nil. tauto.
  - destruct (CharClass.pair_lt z y); rewrite !elem_of_cons; [rewrite IH|]; tauto.
Qed.

Lemma elem_of_sort x l : x ∈ CharClass.sort l ↔ x ∈ l.
Proof.
  unfold CharClass.sort. induction l as [|y l IH]; simpl; [done|].
  rewrite elem_of_sort_insert, elem_of_cons, IH. tauto.
Qed.

Lemma sort_insert_fst_sorted y l :
  fst_sorted l → fst_sorted (CharClass.sort_insert y l).
Proof.
  induction l as [|z l IH]; simpl; [by intros _; split|].
  intros [Hz Hl]. destruct (CharClass.pair_lt z y) eqn:Hlt; simpl.
  - split; [|by apply IH]. apply Forall_forall. intros j [->|Hj]%elem_of_sort_insert.
    + by apply pair_lt_true.
    + by eapply Forall_forall in Hz.
  - apply pair_lt_false in Hlt. split; [|done].
    constructor; [done|]. eapply Forall_impl; [exact Hz|]. simpl. intros. lia.
Qed.

Lemma sort_fst_sorted l : fst_sorted (CharClass.sort l).
Proof.
  unfold CharClass.sort. induction l as [|y l IH]; simpl; [done|].
  by apply sort_insert_fst_sorted.
Qed.

Lemma existsb_elem_of {A} (f : A → bool) l : existsb f l = true ↔ ∃ x, x ∈ l ∧ f x = true.
Proof.
  rewrite existsb_exists. split; intros (x & Hx & Hf); exists x; split; try done;
    by apply list_elem_of_In.
Qed.

Lemma existsb_ext_elem {A} (f : A → bool) l l' :
  (∀ x, x ∈ l ↔ x ∈ l') → existsb f l = existsb f l'.
Proof.
  intros Hl. apply eq_true_iff_eq. rewrite !existsb_elem_of.
  split; intros (x & Hx & Hf); exists x; split; try done; by apply Hl.
Qed.

Lemma separated_snoc_widen l a b b' :
  separated (l ++ [(a, b)]) → b ≤ b' → separated (l ++ [(a, b')]).
Proof.
  intros H Hb. induction l as [|i l IH]; simpl in *.
  - destruct H as (H & _). repeat split; lia.
  - destruct H as (Hi & Hgap & Hl). split; [done|]. split; [|by apply IH].
    destruct l; simpl in *; done.
Qed.

Lemma separated_snoc l a b :
  separated (l ++ [a]) → a.2 + 1 < b.1 → b.1 ≤ b.2 → separated ((l ++ [a]) ++ [b]).
Proof.
  intros H Hgap Hb. induction l as [|i l IH]; simpl in *.
  - destruct H as (H & _). repeat split; done.
  - destruct H as (Hi & Hg & Hl). split; [done|]. split; [|by apply IH].
    destruct l; simpl in *; done.
Qed.

Lemma covers_merge x cur interval :
  cur.1 ≤ cur.2 → interval.1 ≤ interval.2 →
  cur.1 ≤ interval.1 → interval.1 ≤ cur.2 + 1 →
  covers x (cur.1, Z.max interval.2 cur.2) = covers x cur || covers x interval.
Proof.
  intros. unfold covers. simpl. apply eq_true_iff_eq.
  rewrite orb_true_iff, !andb_true_iff, !Z.leb_le. unfold char in *. lia.
Qed.

Lemma merge_loop_spec rest : ∀ merged cur,
  cur.1 ≤ cur.2 → Forall (λ j, j.1 ≤ j.2) rest →
  Forall (λ j, cur.1 ≤ j.1) rest → fst_sorted rest →
  separated (merged ++ [cur]) →
  separated (CharClass.merge_loop merged cur rest)
  ∧ ∀ x, existsb (covers x) (CharClass.merge_loop merged cur rest)
         = existsb (covers x) (merged ++ cur :: rest).
Proof.
  induction rest as [|interval rest IH]; intros merged cur Hcur Hord Hge Hsorted Hsep; simpl.
  { done. }
  apply Forall_cons in Hord as [Hint Hord]. apply Forall_cons in Hge as [Hci Hge].
  destruct Hsorted as [Hir Hsorted].
  match goal with |- context [if ?b then _ else _] => destruct b eqn:Htest end.
  - apply Z.leb_le in Htest.
    destruct (IH merged (cur.1, Z.max interval.2 cur.2)) as [Hs Hc]; simpl; try done.
    + unfold char in *. lia.
    + destruct cur as [a b]. simpl in *. eapply separated_snoc_widen; [exact Hsep|].
      unfold char in *. lia.
    + split; [done|]. intros x. rewrite Hc, !existsb_app. simpl.
      rewrite covers_merge by (unfold char in *; lia).
      f_equal. by rewrite <- orb_assoc.
  - apply Z.leb_gt in Htest.
    destruct (IH (merged ++ [cur]) interval) as [Hs Hc]; try done.
    + apply separated_snoc; [done|unfold char in *; lia|done].
    + split; [done|]. intros x. rewrite Hc. by rewrite <- app_assoc.
Qed.

Lemma normalize_spec intervals :
  separated (CharClass.normalize intervals)
  ∧ ∀ x, existsb (covers x) (CharClass.normalize intervals)
         = existsb (λ i, covers x (Z.min i.1 i.2, Z.max i.1 i.2)) intervals.
Proof.
  destruct intervals as [|i0 intervals]; [done|].
  unfold CharClass.normalize.
  set (ordered := map (λ interval, (Z.min interval.1 interval.2,
                                    Z.max interval.1 interval.2)) (i0 :: intervals)).
  assert (Hord : Forall (λ j, j.1 ≤ j.2) (CharClass.sort ordered)).
  { apply Forall_forall. intros j Hj. apply (proj1 (elem_of_sort j ordered)) in Hj.
    apply list_elem_of_fmap in Hj as (i & -> & _). simpl. unfold char in *. lia. }
  pose proof (sort_fst_sorted ordered) as Hsorted.
  assert (Hcov : ∀ x, existsb (covers x) (CharClass.sort ordered)
                      = existsb (λ i, covers x (Z.min i.1 i.2, Z.max i.1 i.2))
                                (i0 :: intervals)).
  { intros x. rewrite (existsb_ext_elem _ _ ordered) by (intros; apply elem_of_sort).
    subst ordered. generalize (i0 :: intervals). intros l.
    induction l as [|i l IH]; simpl; [done|]. by rewrite IH. }
  destruct (CharClass.sort ordered) as [|first sorted] eqn:Hs.
  { split; [done|]. intros x. by rewrite <- Hcov. }
  apply Forall_cons in Hord as [Hfirst Hord]. destruct Hsorted as [Hge Hsorted].
  destruct (merge_loop_spec sorted [] first) as [Hsep Hc]; try done.
  split; [done|]. intros x. by rewrite Hc, <- Hcov.
Qed.

Lemma separated_lookup l : separated l →
  (∀ i a b, l !! i = Some (a, b) → a ≤ b)
  ∧ (∀ i j a b c d, l !! i = Some (a, b) → l !! j = Some (c, d) → (i < j)%nat → b + 1 < c).
Proof.
  induction l as [|[a0 b0] l IH]; simpl.
  { intros _. split; intros; by rewrite lookup_nil in *. }
  intros (H0 & Hgap & Hl). destruct (IH Hl) as [IH1 IH2]. split.
  - intros [|i] a b; simpl; [by intros [= <- <-]|apply IH1].
  - assert (Hfirst : ∀ j c d, l !! j = Some (c, d) → b0 + 1 < c).
    { intros j c d Hj. destruct l as [|[c0 d0] l']; [by rewrite lookup_nil in Hj|].
      simpl in Hgap. destruct j as [|j]; simpl in Hj; [by injection Hj as <- <-|].
      assert (c0 ≤ d0) by (by apply (IH1 0%nat)).
      assert (d0 + 1 < c) by (by apply (IH2 0%nat (S j) c0 d0 c d); [| |lia]).
      lia. }
    intros [|i] [|j] a b c d; simpl; intros Hi Hj Hij; try lia.
    + injection Hi as <- <-. by eapply Hfirst.
    + eapply IH2; [exact Hi|exact Hj|lia].
Qed.

(** X1.  [normalize] leaves intervals whose ends are in order and which lie in
    increasing order, neither overlapping nor touching. *)
Theorem normalize_sorted_disjoint intervals :
  (∀ i a b, CharClass.normalize intervals !! i = Some (a, b) → a ≤ b)
  ∧ (∀ i j a b c d,
       CharClass.normalize intervals !! i = Some (a, b) →
       CharClass.normalize intervals !! j = Some (c, d) →
       (i < j)%nat → b + 1 < c).
Proof. apply separated_lookup, normalize_spec. Qed.

(** X2.  A normalized class covers a character exactly when the character
    lies between the two ends, taken in either order, of one of the
    intervals as written. *)
Theorem normalize_keeps_characters eos intervals x str :
  _non_inverting_match eos (CharClass.normalize intervals) (x :: str)
  = existsb (λ i, (Z.min i.1 i.2 <=? x) && (x <=? Z.max i.1 i.2)) intervals.
Proof. apply (proj2 (normalize_spec intervals) x). Qed.

Lemma sort_separated l : separated l → CharClass.sort l = l.
Proof.
  unfold CharClass.sort. induction l as [|i l IH]; simpl; [done|].
  intros (Hi & Hgap & Hl). rewrite IH by done.
  destruct l as [|j l]; simpl; [done|].
  destruct Hl as (Hj & _). unfold CharClass.pair_lt.
  replace (j.1 <? i.1) with false by (symmetry; apply Z.ltb_ge; lia).
  replace (j.1 =? i.1) with false by (symmetry; apply Z.eqb_neq; lia). done.
Qed.

Lemma merge_loop_separated rest : ∀ merged cur,
  separated (cur :: rest) → CharClass.merge_loop merged cur rest = merged ++ cur :: rest.
Proof.
  induction rest as [|interval rest IH]; intros merged cur; simpl; [done|].
  intros (Hcur & Hgap & Hrest).
  replace (interval.1 <=? cur.2 + 1) with false by (symmetry; apply Z.leb_gt; lia).
  rewrite IH by done. by rewrite <- app_assoc.
Qed.

Lemma normalize_separated l : separated l → CharClass.normalize l = l.
Proof.
  destruct l as [|i l]; [done|]. intros Hsep. unfold CharClass.normalize.
  assert (map (λ interval, (Z.min interval.1 interval.2, Z.max interval.1 interval.2))
              (i :: l) = i :: l) as ->.
  { clear -Hsep. induction (i :: l) as [|[a b] l' IH]; [done|].
    simpl in *. destruct Hsep as (Hab & _ & Hl'). rewrite IH by done.
    by rewrite Z.min_l, Z.max_r by lia. }
  rewrite sort_separated by done. by rewrite merge_loop_separated.
Qed.

(** X3.  Normalizing twice is normalizing once. *)
Theorem normalize_idempotent intervals :
  CharClass.normalize (CharClass.normalize intervals) = CharClass.normalize intervals.
Proof. apply normalize_separated, normalize_spec. Qed.

(** ** [EqualAST] *)

Lemma EqualAST_loop childs1 : ∀ childs2,
  Forall (λ child1, ∀ child2, EqualAST child1 child2 = true
                              ↔ compared child1 = compared child2) childs1 →
  List.length childs1 = List.length childs2 →
  (fix loop (childs1 childs2 : list ASTNode) : bool :=
     match childs1, childs2 with
     | child1 :: childs1, child2 :: childs2 =>
         if negb (EqualAST child1 child2) then false else loop childs1 childs2
     | _, _ => true
     end) childs1 childs2 = true
  ↔ map compared childs1 = map compared childs2.
Proof.
  induction childs1 as [|child1 childs1 IH]; intros [|child2 childs2] Hall Hlen;
    try done.
  apply Forall_cons in Hall as [Hchild Hall]. simpl in Hlen.
  specialize (IH childs2 Hall ltac:(lia)). specialize (Hchild child2). simpl.
  destruct (EqualAST child1 child2); simpl.
  - rewrite IH. split; [intros ->|intros [= _ ->]]; [|done].
    f_equal. by apply Hchild.
  - split; [done|]. intros [= H _]. by apply Hchild in H.
Qed.

Lemma eqb_negb_if (a b : bool) (x : bool) :
  (if negb (Bool.eqb a b) then false else x) = true ↔ a = b ∧ x = true.
Proof. destruct a, b, x; simpl; intuition congruence. Qed.

Lemma EqualAST_compared root1 : ∀ root2,
  EqualAST root1 root2 = true ↔ compared root1 = compared root2.
Proof.
  induction root1 as [m|capture child IH|greedy child IH|greedy child IH|greedy child IH
                      |greedy min max unbounded child IH|childs IH|childs IH]
    using ASTNode_ind'; intros root2.
  - destruct m as [|c| |invert intervals], root2 as [[|c'| |invert' intervals']| | | | | | |];
      simpl; try (split; [done|intros [=]]); try done.
    + rewrite Z.eqb_eq. split; [by intros ->|by intros [= ->]].
    + unfold class_equal. rewrite andb_true_iff, bool_decide_eq_true, Bool.eqb_true_iff.
      split; [by intros [-> ->]|by intros [= -> ->]].
  - destruct root2; simpl; try (split; [done|intros [=]]).
    rewrite IH. split; [by intros ->|by intros [= ->]].
  - destruct root2; simpl; try (split; [done|intros [=]]).
    rewrite eqb_negb_if, IH. split; [by intros [-> ->]|by intros [= -> ->]].
  - destruct root2; simpl; try (split; [done|intros [=]]).
    rewrite eqb_negb_if, IH. split; [by intros [-> ->]|by intros [= -> ->]].
  - destruct root2; simpl; try (split; [done|intros [=]]).
    rewrite eqb_negb_if, IH. split; [by intros [-> ->]|by intros [= -> ->]].
  - destruct root2 as [| | | | |greedy' min' max' unbounded' child'| |]; simpl;
      try (split; [done|intros [=]]).
    destruct (Bool.eqb greedy greedy') eqn:Hg; simpl.
    2:{ split; [done|]. intros [= -> _ _ _ _]. by destruct greedy'. }
    apply Bool.eqb_prop in Hg as ->.
    destruct (min =? min') eqn:Hmin; simpl.
    2:{ split; [done|]. intros [= -> _ _ _]. by rewrite Z.eqb_refl in Hmin. }
    apply Z.eqb_eq in Hmin as ->.
    destruct (Bool.eqb unbounded unbounded') eqn:Hu; simpl.
    2:{ split; [done|]. intros [= _ -> _]. by destruct unbounded'. }
    apply Bool.eqb_prop in Hu as ->.
    destruct unbounded'; simpl.
    + rewrite IH. split; [by intros ->|by intros [= ->]].
    + destruct (max =? max') eqn:Hmax; simpl.
      * apply Z.eqb_eq in Hmax as ->. rewrite IH.
        split; [by intros ->|by intros [= ->]].
      * split; [done|]. intros [= -> _]. by rewrite Z.eqb_refl in Hmax.
  - destruct root2 as [| | | | | |childs'|]; simpl; try (split; [done|intros [=]]).
    destruct (Nat.eqb (List.length childs) (List.length childs')) eqn:Hlen; simpl.
    + apply Nat.eqb_eq in Hlen. rewrite (EqualAST_loop childs childs' IH Hlen).
      split; [by intros ->|by intros [= ->]].
    + split; [done|]. intros [= H]. apply (f_equal List.length) in H.
      rewrite !length_map in H. rewrite H, Nat.eqb_refl in Hlen. done.
  - destruct root2 as [| | | | | | |childs']; simpl; try (split; [done|intros [=]]).
    destruct (Nat.eqb (List.length childs) (List.length childs')) eqn:Hlen; simpl.
    + apply Nat.eqb_eq in Hlen. rewrite (EqualAST_loop childs childs' IH Hlen).
      split; [by intros ->|by intros [= ->]].
    + split; [done|]. intros [= H]. apply (f_equal List.length) in H.
      rewrite !length_map in H. rewrite H, Nat.eqb_refl in Hlen. done.
Qed.

(** X4.  Two ASTs are equal for [EqualAST] exactly when their anchors agree
    and their trees agree up to the capture flags of brackets and the [max]
    of unbounded repetitions. *)
Theorem EqualAST_compares ast1 ast2 :
  EqualAST_ast ast1 ast2 = true
  ↔ anchorBegin ast1 = anchorBegin ast2 ∧ anchorEnd ast1 = anchorEnd ast2
    ∧ compared (root ast1) = compared (root ast2).
Proof.
  unfold EqualAST_ast.
  rewrite !andb_true_iff, !Bool.eqb_true_iff, EqualAST_compared. tauto.
Qed.

(** X5.  [EqualAST] is an equivalence on trees. *)
Theorem EqualAST_equivalence : Equivalence (λ root1 root2, EqualAST root1 root2 = true).
Proof.
  split.
  - intros root. by apply EqualAST_compared.
  - intros root1 root2 H. apply EqualAST_compared. apply EqualAST_compared in H. done.
  - intros root1 root2 root3 H1 H2. apply EqualAST_compared.
    apply EqualAST_compared in H1, H2. congruence.
Qed.

(** ** The normal form of [optimizeAST] *)

(** The same for a property of the optimized tree alone, given as what the
    children of the node satisfy when [optimize_node] is reached. *)

Lemma optimizeAST_post (P : ASTNode → Prop) :
  (∀ root r, Forall P (childs_of root) → optimize_node root = Ok r → P r) →
  ∀ root r, optimizeAST root = Ok r → P r.
Proof.
  intros Hnode root r. apply (optimizeAST_rel (λ _ r, P r)); clear root r.
  - intros m r. by apply Hnode.
  - intros capture child child' r Hc. apply Hnode. by constructor.
  - intros greedy child child' r Hc. apply Hnode. by constructor.
  - intros greedy child child' r Hc. apply Hnode. by constructor.
  - intros greedy child child' r Hc. apply Hnode. by constructor.
  - intros greedy min max unbounded child child' r Hc. apply Hnode. by constructor.
  - intros childs childs' r Hc. apply Hnode. simpl.
    induction Hc; constructor; done.
  - intros childs childs' r Hc. apply Hnode. simpl.
    induction Hc; constructor; done.
Qed.

Lemma everywhere_eq p n :
  everywhere p n = p n && forallb (everywhere p) (childs_of n).
Proof. destruct n; simpl; by rewrite ?andb_true_r. Qed.

Lemma collapsed_no_merge n : collapsed n = true ↔ no_merge n.
Proof.
  unfold collapsed. rewrite forallb_forall. split.
  - intros H T1 T2.
    assert (Hin : In (T1, T2) quantifier_pairs)
      by apply list_elem_of_In, quantifier_pairs_all.
    apply H in Hin. simpl in Hin. by destruct (merge_pair T1 T2 n).
  - intros H [T1 T2] _. simpl. by rewrite H.
Qed.

Lemma flat_make_quantifier T greedy child : flat (make_quantifier T greedy child) = true.
Proof. by destruct T. Qed.

Lemma multiplied_make_quantifier T greedy child :
  multiplied (make_quantifier T greedy child) = true.
Proof. by destruct T. Qed.

Lemma childs_of_make_quantifier T greedy child :
  childs_of (make_quantifier T greedy child) = [child].
Proof. by destruct T. Qed.

Lemma merge_pair_half_normal T1 T2 root merged :
  half_normal root → merge_pair T1 T2 root = Some merged → half_normal merged.
Proof.
  intros (_ & _ & Hchilds) (greedy1 & greedy2 & T & greedy & child2 & -> & ->)%merge_pair_shape.
  split; [apply flat_make_quantifier|]. split; [apply multiplied_make_quantifier|].
  rewrite childs_of_make_quantifier in *.
  apply Forall_cons in Hchilds as [Hchild _].
  rewrite everywhere_eq, childs_of_make_quantifier in Hchild.
  apply andb_true_iff in Hchild as [_ Hchild]. simpl in Hchild.
  apply andb_true_iff in Hchild as [Hchild _]. by constructor.
Qed.

Lemma splice_Concatenation childs :
  Forall (λ child, everywhere normal_node child = true) childs →
  let childs' := foldr (fun child done =>
                          match child with
                          | ConcatenationNode arg => arg ++ done
                          | _ => child :: done
                          end) [] childs in
  Forall (λ child, everywhere normal_node child = true) childs'
  ∧ forallb (λ child, negb (is_Concatenation child)) childs' = true.
Proof.
  induction 1 as [|child childs Hchild _ [IH1 IH2]]; simpl; [done|].
  destruct child as [| | | | | |arg|]; simpl;
    try (split; [by constructor|done]).
  rewrite everywhere_eq in Hchild. simpl in Hchild.
  apply andb_true_iff in Hchild as [Hnode Harg].
  unfold normal_node in Hnode. simpl in Hnode.
  apply andb_true_iff in Hnode as [[Hflat _]%andb_true_iff _].
  split.
  - apply Forall_app. split; [|done]. apply Forall_forall. intros x Hx.
    rewrite forallb_forall in Harg. by apply Harg, list_elem_of_In.
  - by rewrite forallb_app, Hflat, IH2.
Qed.

Lemma splice_Disjunction childs :
  Forall (λ child, everywhere normal_node child = true) childs →
  let childs' := foldr (fun child done =>
                          match child with
                          | DisjunctionNode arg => arg ++ done
                          | _ => child :: done
                          end) [] childs in
  Forall (λ child, everywhere normal_node child = true) childs'
  ∧ forallb (λ child, negb (is_Disjunction child)) childs' = true.
Proof.
  induction 1 as [|child childs Hchild _ [IH1 IH2]]; simpl; [done|].
  destruct child as [| | | | | | |arg]; simpl;
    try (split; [by constructor|done]).
  rewrite everywhere_eq in Hchild. simpl in Hchild.
  apply andb_true_iff in Hchild as [Hnode Harg].
  unfold normal_node in Hnode. simpl in Hnode.
  apply andb_true_iff in Hnode as [[Hflat _]%andb_true_iff _].
  split.
  - apply Forall_app. split; [|done]. apply Forall_forall. intros x Hx.
    rewrite forallb_forall in Harg. by apply Harg, list_elem_of_In.
  - by rewrite forallb_app, Hflat, IH2.
Qed.

Lemma _merge_multiply_half_normal root :
  flat root = true →
  Forall (λ child, everywhere normal_node child = true) (childs_of root) →
  half_normal (_merge_multiply root).
Proof.
  intros Hflat Hchilds.
  destruct root as [| | | | |greedy min max unbounded child| |]; try done.
  apply Forall_cons in Hchilds as [Hchild _]. unfold _merge_multiply.
  assert (Hsub : ∃ min' max' child',
    (match child with
     | MultiplyNode _ min2 max2 unbounded2 child2 =>
         if exact min max unbounded && exact min2 max2 unbounded2
         then (size_t_wrap (min * min2), size_t_wrap (min * min2), child2)
         else (min, max, child)
     | _ => (min, max, child)
     end) = (min', max', child')
    ∧ everywhere normal_node child' = true
    ∧ (exact min' max' unbounded && is_exact_Multiply child' = false)).
  { destruct child as [| | | | |greedy2 min2 max2 unbounded2 child2| |];
      try (eexists _, _, _; split; [done|]; split; [done|]; simpl; apply andb_false_r).
    destruct (exact min max unbounded) eqn:He; simpl.
    2:{ eexists _, _, _. split; [done|]. split; [done|]. by rewrite He. }
    destruct (exact min2 max2 unbounded2) eqn:He2.
    2:{ eexists _, _, _. split; [done|]. split; [done|]. simpl. by rewrite He, He2. }
    eexists _, _, _. split; [done|].
    rewrite everywhere_eq in Hchild. apply andb_true_iff in Hchild as [Hnode Hc2].
    simpl in Hc2. apply andb_true_iff in Hc2 as [Hc2 _]. split; [done|].
    unfold normal_node in Hnode. apply andb_true_iff in Hnode as [[_ Hm]%andb_true_iff _].
    simpl in Hm. rewrite He2 in Hm. simpl in Hm.
    apply andb_true_iff in Hm as [[Hm _]%andb_true_iff _].
    apply negb_true_iff in Hm. rewrite Hm. apply andb_false_r. }
  destruct Hsub as (min' & max' & child' & -> & Hchild' & Hexact).
  destruct (unbounded && ((min' =? 0) || (min' =? 1))) eqn:Hu.
  { destruct (min' =? 0); (split; [done|]; split; [done|]; by constructor). }
  destruct (exact min' max' unbounded && (min' =? 0)) eqn:Hz.
  { split; [done|]. split; [done|]. constructor. }
  split; [done|]. split; [|by constructor]. simpl. by rewrite Hexact, Hu, Hz.
Qed.

Lemma optimize_node_normal root r :
  Forall (λ child, everywhere normal_node child = true) (childs_of root) →
  optimize_node root = Ok r → everywhere normal_node r = true.
Proof.
  intros Hchilds. unfold optimize_node.
  set (root1 := _merge_node_down_Concatenation root).
  assert (H1 : Forall (λ child, everywhere normal_node child = true) (childs_of root1)
               ∧ (is_Concatenation root1 = true → flat root1 = true)
               ∧ (is_Concatenation root1 = false → root1 = root)).
  { subst root1. destruct root; try done. simpl in *.
    destruct (splice_Concatenation _ Hchilds) as [? ?]. done. }
  destruct H1 as (Hchilds1 & Hflat1 & Hsame1).
  set (root2 := _merge_node_down_Disjunction root1).
  assert (H2 : Forall (λ child, everywhere normal_node child = true) (childs_of root2)
               ∧ flat root2 = true).
  { subst root2. destruct root1 as [| | | | | |childs|childs] eqn:Hr1; try done.
    - split; [done|]. by apply Hflat1.
    - simpl in *. by destruct (splice_Disjunction _ Hchilds1) as [? ?]. }
  destruct H2 as (Hchilds2 & Hflat2).
  pose proof (_merge_multiply_half_normal root2 Hflat2 Hchilds2) as Hhalf.
  intros H.
  pose proof (_merge_oneor_h_normal _ _ _ H) as Hno.
  apply (_merge_oneor_h_invariant half_normal merge_pair_half_normal) in H; [|done].
  destruct H as (Hflat & Hmult & Hc).
  rewrite everywhere_eq. unfold normal_node.
  rewrite Hflat, Hmult, (proj2 (collapsed_no_merge r) Hno). simpl.
  apply forallb_forall. intros x Hx. apply list_elem_of_In in Hx.
  by eapply Forall_forall in Hc.
Qed.

Lemma optimizeAST_normal_form root r :
  optimizeAST root = Ok r → everywhere normal_node r = true.
Proof.
  apply (optimizeAST_post (λ r, everywhere normal_node r = true)).
  apply optimize_node_normal.
Qed.

Lemma everywhere_impl (p q : ASTNode → bool) n :
  (∀ n, p n = true → q n = true) → everywhere p n = true → everywhere q n = true.
Proof.
  intros Hpq. induction n using ASTNode_ind'; simpl;
    rewrite !andb_true_iff; intros [Hp Hc]; (split; [by apply Hpq|]); auto.
  - rewrite forallb_forall in *. intros x Hx. pose proof Hx as Hx'.
    apply list_elem_of_In in Hx'. eapply Forall_forall in H; [|done]. by apply H, Hc.
  - rewrite forallb_forall in *. intros x Hx. pose proof Hx as Hx'.
    apply list_elem_of_In in Hx'. eapply Forall_forall in H; [|done]. by apply H, Hc.
Qed.

(** *** Idempotence *)

Lemma splice_Concatenation_flat childs :
  forallb (λ child, negb (is_Concatenation child)) childs = true →
  foldr (fun child done =>
           match child with
           | ConcatenationNode arg => arg ++ done
           | _ => child :: done
           end) [] childs = childs.
Proof.
  induction childs as [|child childs IH]; simpl; [done|].
  intros [Hc Hrest]%andb_true_iff. rewrite IH by done. by destruct child.
Qed.

Lemma splice_Disjunction_flat childs :
  forallb (λ child, negb (is_Disjunction child)) childs = true →
  foldr (fun child done =>
           match child with
           | DisjunctionNode arg => arg ++ done
           | _ => child :: done
           end) [] childs = childs.
Proof.
  induction childs as [|child childs IH]; simpl; [done|].
  intros [Hc Hrest]%andb_true_iff. rewrite IH by done. by destruct child.
Qed.

Lemma _merge_multiply_multiplied root : multiplied root = true → _merge_multiply root = root.
Proof.
  destruct root as [| | | | |greedy min max unbounded child| |]; try done. simpl.
  intros [[H1 H2]%andb_true_iff H3]%andb_true_iff.
  apply negb_true_iff in H1, H2, H3.
  assert ((match child with
           | MultiplyNode _ min2 max2 unbounded2 child2 =>
               if exact min max unbounded && exact min2 max2 unbounded2
               then (size_t_wrap (min * min2), size_t_wrap (min * min2), child2)
               else (min, max, child)
           | _ => (min, max, child)
           end) = (min, max, child)) as ->.
  { destruct child; try done. simpl in H1. by rewrite H1. }
  by rewrite H2, H3.
Qed.

Lemma optimize_node_normal_node root :
  normal_node root = true → optimize_node root = Ok root.
Proof.
  unfold normal_node. intros [[Hflat Hmult]%andb_true_iff Hcoll]%andb_true_iff.
  unfold optimize_node.
  assert (_merge_node_down_Concatenation root = root) as ->.
  { destruct root; try done. simpl in *. by rewrite splice_Concatenation_flat. }
  assert (_merge_node_down_Disjunction root = root) as ->.
  { destruct root; try done. simpl in *. by rewrite splice_Disjunction_flat. }
  rewrite _merge_multiply_multiplied by done.
  by apply _merge_oneor_h_no_merge, collapsed_no_merge.
Qed.

Lemma optimizeAST_normal_fixed root :
  everywhere normal_node root = true → optimizeAST root = Ok root.
Proof.
  induction root as [m|capture child IH|greedy child IH|greedy child IH|greedy child IH
                     |greedy min max unbounded child IH|childs IH|childs IH]
    using ASTNode_ind'; intros Hn; pose proof Hn as Hroot;
    rewrite everywhere_eq in Hn; apply andb_true_iff in Hn as [Hnode Hchilds];
    simpl in Hchilds; rewrite optimizeAST_eq;
    rewrite ?andb_true_r in Hchilds; rewrite ?IH by done; simpl;
    try by apply optimize_node_normal_node.
  - assert (optimize_childs childs = Ok childs) as ->.
    { clear -IH Hchilds. induction IH as [|child childs Hc _ IHc]; [done|]. simpl in *.
      apply andb_true_iff in Hchilds as [H1 H2]. by rewrite Hc, IHc. }
    simpl. by apply optimize_node_normal_node.
  - assert (optimize_childs childs = Ok childs) as ->.
    { clear -IH Hchilds. induction IH as [|child childs Hc _ IHc]; [done|]. simpl in *.
      apply andb_true_iff in Hchilds as [H1 H2]. by rewrite Hc, IHc. }
    simpl. by apply optimize_node_normal_node.
Qed.

(** *** The size of the tree *)

Lemma count_sum childs : ∀ a,
  foldr (fun child acc => (node_count child + acc)%nat) a childs
  = (foldr (fun child acc => (node_count child + acc)%nat) 0%nat childs + a)%nat.
Proof. induction childs as [|c cs IH]; intros a; simpl; [done|]. rewrite IH. lia. Qed.

Lemma splice_Concatenation_count childs :
  (foldr (fun child acc => (node_count child + acc)%nat) 0%nat
     (foldr (fun child done =>
               match child with
               | ConcatenationNode arg => arg ++ done
               | _ => child :: done
               end) [] childs)
   ≤ foldr (fun child acc => (node_count child + acc)%nat) 0%nat childs)%nat.
Proof.
  induction childs as [|child childs IH]; simpl; [done|].
  destruct child; simpl; try lia.
  rewrite foldr_app, count_sum. lia.
Qed.

Lemma splice_Disjunction_count childs :
  (foldr (fun child acc => (node_count child + acc)%nat) 0%nat
     (foldr (fun child done =>
               match child with
               | DisjunctionNode arg => arg ++ done
               | _ => child :: done
               end) [] childs)
   ≤ foldr (fun child acc => (node_count child + acc)%nat) 0%nat childs)%nat.
Proof.
  induction childs as [|child childs IH]; simpl; [done|].
  destruct child; simpl; try lia.
  rewrite foldr_app, count_sum. lia.
Qed.

Lemma _merge_multiply_count root : (node_count (_merge_multiply root) ≤ node_count root)%nat.
Proof.
  destruct root as [| | | | |greedy min max unbounded child| |]; try done. simpl.
  destruct child as [| | | | |greedy2 min2 max2 unbounded2 child2| |]; simpl;
    repeat match goal with
           | |- context [if ?b then _ else _] => destruct b; simpl
           end; lia.
Qed.

Lemma optimize_node_count root :
  ∃ r, optimize_node root = Ok r ∧ (node_count r ≤ node_count root)%nat.
Proof.
  unfold optimize_node.
  set (root3 := _merge_multiply _).
  assert (node_count root3 ≤ node_count root)%nat as Hle.
  { subst root3. etrans; [apply _merge_multiply_count|].
    etrans; [|instantiate (1 := node_count (_merge_node_down_Concatenation root))].
    - destruct (_merge_node_down_Concatenation root); simpl; try done.
      pose proof (splice_Disjunction_count childs). lia.
    - destruct root; simpl; try done.
      pose proof (splice_Concatenation_count childs). lia. }
  destruct (_merge_oneor_h_total (node_count root3) root3) as (r & Hr & Hle'); [lia|].
  exists r. split; [done|lia].
Qed.

Lemma single_counts_is_Multiply greedy min max unbounded child :
  single_counts (MultiplyNode greedy min max unbounded child) = negb (is_Multiply child).
Proof. by destruct child. Qed.

Lemma splice_Concatenation_accept childs :
  forallb accept_epsilon
    (foldr (fun child done =>
              match child with
              | ConcatenationNode arg => arg ++ done
              | _ => child :: done
              end) [] childs)
  = forallb accept_epsilon childs.
Proof.
  induction childs as [|child childs IH]; [done|].
  destruct child; cbn [foldr forallb]; rewrite <- ?IH; try done.
  by rewrite forallb_app.
Qed.

Lemma splice_Disjunction_accept childs :
  existsb accept_epsilon
    (foldr (fun child done =>
              match child with
              | DisjunctionNode arg => arg ++ done
              | _ => child :: done
              end) [] childs)
  = existsb accept_epsilon childs.
Proof.
  induction childs as [|child childs IH]; [done|].
  destruct child; cbn [foldr existsb]; rewrite <- ?IH; try done.
  by rewrite existsb_app.
Qed.

Lemma _merge_node_down_accept root :
  accept_epsilon (_merge_node_down_Disjunction (_merge_node_down_Concatenation root))
  = accept_epsilon root.
Proof.
  destruct root; try done.
  - cbn -[forallb]. apply splice_Concatenation_accept.
  - cbn -[existsb]. apply splice_Disjunction_accept.
Qed.

Lemma _merge_multiply_tail greedy min max unbounded child :
  accept_epsilon
    (if unbounded && ((min =? 0) || (min =? 1)) then
       if min =? 0 then KleeneStarNode greedy child else OneOrMoreNode greedy child
     else if exact min max unbounded && (min =? 0) then Leaf EpsilonMatcher
     else MultiplyNode greedy min max unbounded child)
  = (min =? 0) || accept_epsilon child.
Proof.
  destruct (unbounded && ((min =? 0) || (min =? 1))) eqn:Hu.
  - apply andb_true_iff in Hu as [_ Hu]. destruct (min =? 0); [done|]. done.
  - destruct (exact min max unbounded && (min =? 0)) eqn:Hz; [|done].
    by apply andb_true_iff in Hz as [_ ->].
Qed.

Lemma _merge_multiply_accept root :
  (accept_epsilon root = true → accept_epsilon (_merge_multiply root) = true)
  ∧ (single_counts root = true → accept_epsilon (_merge_multiply root) = accept_epsilon root).
Proof.
  destruct root as [| | | | |greedy min max unbounded child| |]; try done.
  unfold _merge_multiply.
  destruct child as [| | | | |greedy2 min2 max2 unbounded2 child2| |];
    try (rewrite _merge_multiply_tail; by split).
  split; [|done].
  destruct (exact min max unbounded && exact min2 max2 unbounded2);
    rewrite _merge_multiply_tail; [|done].
  cbn [accept_epsilon]. intros [Hmin|[Hmin2|Hacc]%orb_true_iff]%orb_true_iff.
  - apply Z.eqb_eq in Hmin as ->. by rewrite Z.mul_0_l.
  - apply Z.eqb_eq in Hmin2 as ->. by rewrite Z.mul_0_r.
  - rewrite Hacc. apply orb_true_r.
Qed.

Lemma merge_pair_accept T1 T2 root merged :
  merge_pair T1 T2 root = Some merged → accept_epsilon merged = accept_epsilon root.
Proof.
  unfold merge_pair. intros H.
  destruct (as_quantifier T1 root) as [[greedy1 child1]|] eqn:H1; [|done].
  destruct (as_quantifier T2 child1) as [[greedy2 child2]|] eqn:H2; [|done].
  apply as_quantifier_Some in H1 as ->. apply as_quantifier_Some in H2 as ->.
  repeat match type of H with
         | (if ?b then _ else _) = _ => destruct b eqn:?
         end; try done; injection H as <-; by destruct T1, T2.
Qed.

Lemma merge_pair_is_Multiply T1 T2 root merged :
  merge_pair T1 T2 root = Some merged → is_Multiply merged = false.
Proof.
  intros (? & ? & T & ? & ? & _ & ->)%merge_pair_shape. by destruct T.
Qed.

Lemma _merge_multiply_is_Multiply root :
  is_Multiply (_merge_multiply root) = true → is_Multiply root = true.
Proof. by destruct root. Qed.

Lemma optimize_node_accept root r :
  optimize_node root = Ok r →
  (accept_epsilon root = true → accept_epsilon r = true)
  ∧ (is_Multiply r = true → is_Multiply root = true)
  ∧ (single_counts root = true → accept_epsilon r = accept_epsilon root).
Proof.
  unfold optimize_node. intros H.
  set (root2 := _merge_node_down_Disjunction (_merge_node_down_Concatenation root)) in *.
  assert (Hacc2 : accept_epsilon root2 = accept_epsilon root)
    by apply _merge_node_down_accept.
  assert (Hkind2 : is_Multiply root2 = is_Multiply root ∧ single_counts root2 = single_counts root).
  { subst root2. by destruct root. }
  destruct Hkind2 as [Hkind2 Hsingle2].
  pose proof H as Hacc.
  apply (_merge_oneor_h_invariant
           (λ r, accept_epsilon r = accept_epsilon (_merge_multiply root2))) in Hacc;
    [|intros T1 T2 x merged Hx Hm; by rewrite (merge_pair_accept _ _ _ _ Hm)|done].
  assert (Hkind : is_Multiply r = true → is_Multiply (_merge_multiply root2) = true).
  { destruct (is_Multiply (_merge_multiply root2)) eqn:Hk; [done|].
    apply (_merge_oneor_h_invariant (λ r, is_Multiply r = false)) in H; [congruence| |done].
    intros T1 T2 x merged _ Hm. by eapply merge_pair_is_Multiply. }
  destruct (_merge_multiply_accept root2) as [Hmono Heq].
  rewrite Hacc. split; [|split].
  - rewrite <- Hacc2. apply Hmono.
  - intros Hr. rewrite <- Hkind2. by apply _merge_multiply_is_Multiply, Hkind.
  - rewrite <- Hacc2, <- Hsingle2. apply Heq.
Qed.

Lemma optimizeAST_accept root r :
  optimizeAST root = Ok r →
  (accept_epsilon root = true → accept_epsilon r = true)
  ∧ (is_Multiply r = true → is_Multiply root = true)
  ∧ (everywhere single_counts root = true → accept_epsilon r = accept_epsilon root).
Proof.
  revert root r.
  apply (optimizeAST_rel (λ root r,
    (accept_epsilon root = true → accept_epsilon r = true)
    ∧ (is_Multiply r = true → is_Multiply root = true)
    ∧ (everywhere single_counts root = true → accept_epsilon r = accept_epsilon root))).
  - intros m r H. apply optimize_node_accept in H as (? & ? & ?). by repeat split; auto.
  - intros capture child child' r (Hm & Hk & He) H.
    apply optimize_node_accept in H as (Hm' & Hk' & He'). simpl in *.
    split; [auto|]. split; [auto|]. intros Hs. rewrite He' by done. auto.
  - intros greedy child child' r (Hm & Hk & He) H.
    apply optimize_node_accept in H as (Hm' & Hk' & He'). simpl in *.
    split; [auto|]. split; [auto|]. intros Hs. by rewrite He'.
  - intros greedy child child' r (Hm & Hk & He) H.
    apply optimize_node_accept in H as (Hm' & Hk' & He'). simpl in *.
    split; [auto|]. split; [auto|]. intros Hs. rewrite He' by done. auto.
  - intros greedy child child' r (Hm & Hk & He) H.
    apply optimize_node_accept in H as (Hm' & Hk' & He'). simpl in *.
    split; [auto|]. split; [auto|]. intros Hs. by rewrite He'.
  - intros greedy min max unbounded child child' r (Hm & Hk & He) H.
    apply optimize_node_accept in H as (Hm' & Hk' & He').
    split; [|split; [done|]].
    + intros Ha. apply Hm'. simpl in *. destruct (min =? 0); [done|]. simpl in *. auto.
    + intros Hs. cbn [everywhere] in Hs. apply andb_true_iff in Hs as [Hnode Hs].
      rewrite single_counts_is_Multiply in Hnode. apply negb_true_iff in Hnode.
      rewrite He'.
      * simpl. by rewrite He.
      * rewrite single_counts_is_Multiply. apply negb_true_iff.
        destruct (is_Multiply child') eqn:Hc'; [|done]. rewrite Hk in Hnode; done.
  - intros childs childs' r Hall H.
    apply optimize_node_accept in H as (Hm' & Hk' & He').
    split; [|split; [done|]].
    + intros Ha. apply Hm'. simpl in *. clear -Hall Ha.
      induction Hall as [|c c' cs cs' (Hm & _) _ IH]; [done|]. simpl in *.
      apply andb_true_iff in Ha as [H1 H2]. by rewrite Hm, IH.
    + intros Hs. rewrite He' by done. simpl in *. clear -Hall Hs.
      induction Hall as [|c c' cs cs' (_ & _ & He) _ IH]; [done|]. simpl in *.
      apply andb_true_iff in Hs as [H1 H2]. by rewrite He, IH.
  - intros childs childs' r Hall H.
    apply optimize_node_accept in H as (Hm' & Hk' & He').
    split; [|split; [done|]].
    + intros Ha. apply Hm'. simpl in *. clear -Hall Ha.
      induction Hall as [|c c' cs cs' (Hm & _) _ IH]; [done|]. simpl in *.
      apply orb_true_iff in Ha as [H1|H2]; [by rewrite Hm|rewrite IH by done].
      apply orb_true_r.
    + intros Hs. rewrite He' by done. simpl in *. clear -Hall Hs.
      induction Hall as [|c c' cs cs' (_ & _ & He) _ IH]; [done|]. simpl in *.
      apply andb_true_iff in Hs as [H1 H2]. by rewrite He, IH.
Qed.

Lemma optimizeAST_count root r :
  optimizeAST root = Ok r → (node_count r ≤ node_count root)%nat.
Proof.
  revert root r.
  apply (optimizeAST_rel (λ root r, (node_count r ≤ node_count root)%nat)).
  all: try (intros; match goal with
                    | H : optimize_node ?n = Ok _ |- _ =>
                        destruct (optimize_node_count n) as (r0 & Hr0 & Hle);
                        rewrite Hr0 in H; injection H as <-; simpl in *; lia
                    end).
  - intros childs childs' r Hall H.
    destruct (optimize_node_count (ConcatenationNode childs')) as (r0 & Hr0 & Hle).
    rewrite Hr0 in H. injection H as <-. simpl in *.
    assert (foldr (fun child acc => (node_count child + acc)%nat) 0%nat childs'
            ≤ foldr (fun child acc => (node_count child + acc)%nat) 0%nat childs)%nat; [|lia].
    clear -Hall. induction Hall; simpl; lia.
  - intros childs childs' r Hall H.
    destruct (optimize_node_count (DisjunctionNode childs')) as (r0 & Hr0 & Hle).
    rewrite Hr0 in H. injection H as <-. simpl in *.
    assert (foldr (fun child acc => (node_count child + acc)%nat) 0%nat childs'
            ≤ foldr (fun child acc => (node_count child + acc)%nat) 0%nat childs)%nat; [|lia].
    clear -Hall. induction Hall; simpl; lia.
Qed.

(** X6.  [optimizeAST] returns on every tree, and the tree it returns has no
    more nodes than the one it was given. *)
Theorem optimizeAST_never_grows root :
  ∃ r, optimizeAST root = Ok r ∧ (node_count r ≤ node_count root)%nat.
Proof.
  destruct (optimizeAST_total root) as [r Hr]. exists r. split; [done|].
  by apply optimizeAST_count.
Qed.

(** X7.  In the tree [optimizeAST] returns no concatenation has a
    concatenation among its children and no disjunction a disjunction. *)
Theorem optimizeAST_flattens root :
  ∃ r, optimizeAST root = Ok r ∧ everywhere flat r = true.
Proof.
  destruct (optimizeAST_total root) as [r Hr]. exists r. split; [done|].
  apply optimizeAST_normal_form in Hr. revert Hr. apply everywhere_impl.
  unfold normal_node. intros n [[? _]%andb_true_iff _]%andb_true_iff. done.
Qed.

(** X8.  In the tree [optimizeAST] returns no repetition is left that
    [_merge_multiply] rewrites: no exact count of an exact count, no [{0,}]
    or [{1,}], no [{0}]. *)
Theorem optimizeAST_merges_counts root :
  ∃ r, optimizeAST root = Ok r ∧ everywhere multiplied r = true.
Proof.
  destruct (optimizeAST_total root) as [r Hr]. exists r. split; [done|].
  apply optimizeAST_normal_form in Hr. revert Hr. apply everywhere_impl.
  unfold normal_node. intros n [[_ ?]%andb_true_iff _]%andb_true_iff. done.
Qed.

(** X9.  In the tree [optimizeAST] returns no rewrite of the quantifier
    collapse applies at any node. *)
Theorem optimizeAST_collapses root :
  ∃ r, optimizeAST root = Ok r ∧ everywhere collapsed r = true.
Proof.
  destruct (optimizeAST_total root) as [r Hr]. exists r. split; [done|].
  apply optimizeAST_normal_form in Hr. revert Hr. apply everywhere_impl.
  unfold normal_node. intros n [_ ?]%andb_true_iff. done.
Qed.

(** X10.  Optimizing the tree [optimizeAST] returns gives the same tree. *)
Theorem optimizeAST_idempotent root :
  ∃ r, optimizeAST root = Ok r ∧ optimizeAST r = Ok r.
Proof.
  destruct (optimizeAST_total root) as [r Hr]. exists r. split; [done|].
  apply optimizeAST_normal_fixed. by eapply optimizeAST_normal_form.
Qed.

(** X11.  A tree that accepts the empty string still does after
    [optimizeAST], and [accept_epsilon] is unchanged when no repetition count
    is applied to a repetition count (the product of two exact counts wraps
    at 2^64). *)
Theorem optimizeAST_accept_epsilon root :
  ∃ r, optimizeAST root = Ok r
       ∧ (accept_epsilon root = true → accept_epsilon r = true)
       ∧ (everywhere single_counts root = true → accept_epsilon r = accept_epsilon root).
Proof.
  destruct (optimizeAST_total root) as [r Hr]. exists r. split; [done|].
  apply optimizeAST_accept in Hr as (? & _ & ?). by split.
Qed.

#[local] Transparent optimizeAST newState newGroup addTransition.

(** ** What [NFA::optimize] and [NFA::simulate] keep *)

(** ** What [NFA::optimize] leaves alone *)

Lemma remove_node_keeps i j nfa nfa' :
  remove_node i j nfa = Ok nfa' →
  matchers nfa' = matchers nfa ∧ nGroups nfa' = nGroups nfa
  ∧ (List.length (states nfa') ≤ List.length (states nfa))%nat.
Proof.
  unfold remove_node. intros (_ & _ & [= <-])%bind_Ok. simpl.
  rewrite length_map. split; [done|]. split; [done|].
  rewrite delete_take_drop, length_app, length_take, length_drop. lia.
Qed.

Lemma merge_into_predecessor_keeps i nfa nfa' :
  merge_into_predecessor i nfa = Ok nfa' →
  matchers nfa' = matchers nfa ∧ nGroups nfa' = nGroups nfa
  ∧ (List.length (states nfa') ≤ List.length (states nfa))%nat.
Proof.
  unfold merge_into_predecessor. intros (state & _ & H)%bind_Ok.
  destruct (elements (rtransitions state)) as [|[[matcher j] info] [|]].
  - destruct (negb (initialState state)); [by eapply remove_node_keeps|].
    by injection H as <-.
  - destruct (negb (initialState state)); [|by injection H as <-].
    apply bind_Ok in H as (m & _ & H).
    destruct (is_EpsilonMatcher m && bool_decide (info = None)); [|by injection H as <-].
    apply bind_Ok in H as (pred & _ & H).
    destruct (find_index _ _) as [insert_index|]; [|done].
    destruct (Nat.eqb i j); [done|].
    apply remove_node_keeps in H. simpl in H. by rewrite length_insert in H.
  - by injection H as <-.
Qed.

Lemma merge_into_successor_keeps i nfa nfa' :
  merge_into_successor i nfa = Ok nfa' →
  matchers nfa' = matchers nfa ∧ nGroups nfa' = nGroups nfa
  ∧ (List.length (states nfa') ≤ List.length (states nfa))%nat.
Proof.
  unfold merge_into_successor. intros (state & _ & H)%bind_Ok.
  destruct (transitions state) as [|[[matcher j] info] [|]].
  - destruct (negb (finalState state)); [by eapply remove_node_keeps|].
    by injection H as <-.
  - destruct (negb (finalState state)); [|by injection H as <-].
    apply bind_Ok in H as (m & _ & H).
    destruct (is_EpsilonMatcher m && bool_decide (info = None)); [|by injection H as <-].
    apply bind_Ok in H as (succ & _ & H).
    apply bind_Ok in H as (_ & _ & H).
    destruct (Nat.eqb i j); [done|].
    apply remove_node_keeps in H. simpl in H. by rewrite length_insert in H.
  - by injection H as <-.
Qed.

Lemma downward_keeps body :
  (∀ i nfa nfa', body i nfa = Ok nfa' →
     matchers nfa' = matchers nfa ∧ nGroups nfa' = nGroups nfa
     ∧ (List.length (states nfa') ≤ List.length (states nfa))%nat) →
  ∀ n nfa nfa', downward body n nfa = Ok nfa' →
    matchers nfa' = matchers nfa ∧ nGroups nfa' = nGroups nfa
    ∧ (List.length (states nfa') ≤ List.length (states nfa))%nat.
Proof.
  intros Hbody. induction n as [|n IH]; intros nfa nfa'; simpl.
  - by intros [= <-].
  - intros (nfa1 & (Hm & Hg & Hl)%Hbody & (Hm' & Hg' & Hl')%IH)%bind_Ok.
    rewrite Hm', Hg', Hm, Hg. split; [done|]. split; [done|lia].
Qed.

(** X12.  [NFA::optimize] adds no state and leaves the matchers and the number
    of groups as they are. *)
Theorem optimize_keeps nfa nfa' :
  optimize nfa = Ok nfa' →
  matchers nfa' = matchers nfa ∧ nGroups nfa' = nGroups nfa
  ∧ (List.length (states nfa') ≤ List.length (states nfa))%nat.
Proof.
  unfold optimize. intros (nfa1 & H1 & H2)%bind_Ok.
  apply (downward_keeps _ merge_into_predecessor_keeps) in H1 as (Hm & Hg & Hl).
  apply (downward_keeps _ merge_into_successor_keeps) in H2 as (Hm' & Hg' & Hl').
  rewrite Hm', Hg', Hm, Hg. split; [done|]. split; [done|lia].
Qed.

Lemma optimize_keeps_witness :
  ∃ nfa nfa',
    compile (chars_of_string "a*b") false = Ok nfa ∧ optimize nfa = Ok nfa'
    ∧ matchers nfa' = matchers nfa ∧ nGroups nfa' = nGroups nfa
    ∧ (List.length (states nfa') ≤ List.length (states nfa))%nat.
Proof.
  eexists _, _. split; [vm_compute; reflexivity|]. split; [vm_compute; reflexivity|].
  match goal with
  | |- context [matchers ?nfa' = matchers ?nfa] => apply (optimize_keeps nfa nfa')
  end.
  vm_compute. reflexivity.
Defined.

(** ** What the captures of [NFA::simulate] are *)

Section captures.
Variable nfa : NFA.
Variable eos : char.
Variable str : list char.

(** [I bound captures]: a property of the capture vector while the search
    stands at offset [bound], kept by every transition taken. *)
Variable I : nat → list capture → Prop.
Hypothesis Istep : ∀ offset stop info captures captures',
  (offset ≤ stop ≤ List.length str)%nat →
  I offset captures →
  match info with
  | None => Ok captures
  | Some info =>
      captures ← open_groups offset (begingroups info) captures;
      close_groups stop (endgroups info) captures
  end = Ok captures' →
  I stop captures'.

Lemma explore_loop_invariant explore offset trans :
  (∀ state off s s', explore state off s = Ok (false, s') → s'.2 = s.2) →
  (∀ state off s s',
     (off ≤ List.length str)%nat → I off s.2 →
     explore state off s = Ok (true, s') → I (List.length str) s'.2) →
  (offset ≤ List.length str)%nat →
  ∀ s s', I offset s.2 →
          explore_loop nfa eos str explore offset trans s = Ok (true, s') →
          I (List.length str) s'.2.
Proof.
  intros Hfail Hsucc Hoff.
  induction trans as [|[[matcher t] info] trans IH]; intros s s' HI; simpl; [done|].
  intros (m & _ & H)%bind_Ok.
  destruct (match_ eos m (drop offset str)); [|by apply (IH s)].
  apply bind_Ok in H as (captures & Hcap & H).
  destruct (_ <? _)%nat eqn:Hlen; [done|].
  apply Nat.ltb_ge in Hlen. rewrite length_drop in Hlen.
  destruct (explore _ _ _) as [[[] s1]|] eqn:Hex; [| |done].
  - injection H as <-. eapply Hsucc; [|..|exact Hex]; simpl; [lia|].
    eapply (Istep offset); [|exact HI|exact Hcap]. lia.
  - apply IH in H; [done|]. simpl. destruct info; [done|].
    apply Hfail in Hex. simpl in Hex. rewrite Hex. by injection Hcap as <-.
Qed.

Lemma exploreTransitions_invariant fuel : ∀ state off s s',
  (off ≤ List.length str)%nat → I off s.2 →
  exploreTransitions nfa eos str fuel state off s = Ok (true, s') →
  I (List.length str) s'.2.
Proof.
  induction fuel as [|fuel IH]; intros state off s s' Hoff HI; simpl; [done|].
  intros (st & _ & H)%bind_Ok.
  destruct (bool_decide (drop off str = [])) eqn:Hdrop; simpl in H.
  - destruct (finalState st).
    + injection H as <-. apply bool_decide_eq_true in Hdrop.
      apply (f_equal List.length) in Hdrop. rewrite length_drop in Hdrop. simpl in Hdrop.
      by replace (List.length str) with off by lia.
    + destruct (bool_decide ((state, off) ∈ s.1)); [done|].
      eapply (explore_loop_invariant _ off (transitions st)
                (exploreTransitions_failure nfa eos str fuel) IH Hoff); [|exact H]. done.
  - destruct (bool_decide ((state, off) ∈ s.1)); [done|].
    eapply (explore_loop_invariant _ off (transitions st)
              (exploreTransitions_failure nfa eos str fuel) IH Hoff); [|exact H]. done.
Qed.

Lemma simulate_loop_invariant l : ∀ s captures,
  I 0%nat s.2 →
  simulate_loop nfa eos str l s = Ok captures →
  captures = [] ∨ I (List.length str) captures.
Proof.
  induction l as [|[i st] l IH]; intros s captures HI; cbn [simulate_loop].
  { intros [= <-]. by left. }
  destruct (initialState st); [|by apply IH].
  destruct (exploreTransitions nfa eos str (simulate_fuel nfa str) i 0 s)
    as [[[] s1]|] eqn:Hex; [| |done].
  - intros [= <-]. right. eapply exploreTransitions_invariant; [|exact HI|exact Hex]. lia.
  - apply IH. apply exploreTransitions_failure in Hex. by rewrite Hex.
Qed.

Lemma simulate_invariant captures :
  I 0%nat (replicate (nGroups nfa) (None, 0)) →
  simulate nfa eos str = Ok captures →
  captures = [] ∨ I (List.length str) captures.
Proof. intros HI. by apply simulate_loop_invariant. Qed.
End captures.

Lemma open_groups_length offset groups : ∀ captures captures',
  open_groups offset groups captures = Ok captures' →
  List.length captures' = List.length captures.
Proof.
  induction groups as [|g groups IH]; intros captures captures'; simpl.
  - by intros [= <-].
  - intros (_ & _ & H)%bind_Ok. apply IH in H. by rewrite length_insert in H.
Qed.

Lemma close_groups_length stop groups : ∀ captures captures',
  close_groups stop groups captures = Ok captures' →
  List.length captures' = List.length captures.
Proof.
  induction groups as [|g groups IH]; intros captures captures'; simpl.
  - by intros [= <-].
  - intros ([d sz] & _ & H)%bind_Ok. apply bind_Ok in H as (d' & _ & H).
    apply IH in H. by rewrite length_insert in H.
Qed.

(** X13.  The vector [NFA::simulate] returns on a match has one entry for each
    group of the automaton. *)
Theorem simulate_capture_count nfa eos str captures :
  simulate nfa eos str = Ok captures →
  captures = [] ∨ List.length captures = nGroups nfa.
Proof.
  apply (simulate_invariant nfa eos str (λ _ captures, List.length captures = nGroups nfa)).
  - intros offset stop [info|] captures0 captures' _ Hlen.
    + intros (c1 & H1%open_groups_length & H2%close_groups_length)%bind_Ok. congruence.
    + by intros [= <-].
  - apply length_replicate.
Qed.

Lemma simulate_capture_count_witness :
  ∃ nfa captures,
    compile (chars_of_string "<a>b") true = Ok nfa
    ∧ simulate nfa 0 (chars_of_string "ab") = Ok captures
    ∧ (captures = [] ∨ List.length captures = nGroups nfa).
Proof.
  eexists _, _. split; [vm_compute; reflexivity|]. split; [vm_compute; reflexivity|].
  match goal with
  | |- context [List.length ?captures = nGroups ?nfa] =>
      apply (simulate_capture_count nfa 0 (chars_of_string "ab") captures)
  end.
  vm_compute. reflexivity.
Defined.

Lemma capture_within_mono bound bound' c :
  (bound ≤ bound')%nat → capture_within bound c → capture_within bound' c.
Proof. unfold capture_within. destruct c.1; [|done]. lia. Qed.

Lemma open_groups_within offset stop groups : ∀ captures captures',
  (offset ≤ stop)%nat →
  open_groups offset groups captures = Ok captures' →
  Forall (capture_within stop) captures → Forall (capture_within stop) captures'.
Proof.
  induction groups as [|g groups IH]; intros captures captures' Hle; simpl.
  - by intros [= <-].
  - intros (_ & _ & H)%bind_Ok Hall. eapply IH; [done|exact H|].
    apply Forall_insert; [done|]. unfold capture_within. simpl. lia.
Qed.

Lemma close_groups_within stop groups : ∀ captures captures',
  Z.of_nat stop < 2 ^ 64 →
  close_groups stop groups captures = Ok captures' →
  Forall (capture_within stop) captures → Forall (capture_within stop) captures'.
Proof.
  induction groups as [|g groups IH]; intros captures captures' Hsize; simpl.
  - by intros [= <-].
  - intros ([d sz] & Hg%deref_Ok & H)%bind_Ok Hall.
    apply bind_Ok in H as (data & ->%deref_Ok & H).
    eapply IH; [done|exact H|].
    apply Forall_insert; [done|].
    eapply Forall_lookup_1 in Hall; [|exact Hg].
    unfold capture_within in *. simpl in *.
    unfold size_t_wrap. rewrite Z.mod_small; lia.
Qed.

(** X14.  Every capture [NFA::simulate] returns is the default view or a slice
    of the input: it starts and ends inside the input. *)
Theorem simulate_captures_in_input nfa eos str captures :
  Z.of_nat (List.length str) < 2 ^ 64 →
  simulate nfa eos str = Ok captures →
  Forall (capture_within (List.length str)) captures.
Proof.
  intros Hsize H.
  destruct (simulate_invariant nfa eos str (λ bound captures,
              Forall (capture_within bound) captures) ) with (captures := captures)
    as [->|Hall]; try done.
  - intros offset stop [info|] captures0 captures' Hle Hall.
    + intros (c1 & H1 & H2)%bind_Ok.
      eapply close_groups_within; [lia|exact H2|].
      eapply open_groups_within; [|exact H1|]; [lia|].
      eapply Forall_impl; [exact Hall|]. intros c. apply capture_within_mono. lia.
    + intros [= <-]. eapply Forall_impl; [exact Hall|].
      intros c. apply capture_within_mono. lia.
  - apply Forall_forall. intros c Hc%elem_of_replicate. destruct Hc as [-> _]. done.
Qed.

Lemma simulate_captures_in_input_witness :
  ∃ captures,
    simulate empty_pattern_nfa 0 (chars_of_string "ab") = Ok captures
    ∧ Forall (capture_within 2) captures.
Proof.
  eexists. split; [vm_compute; reflexivity|].
  apply (simulate_captures_in_input empty_pattern_nfa 0 (chars_of_string "ab")).
  - reflexivity.
  - vm_compute. reflexivity.
Defined.

(** ** Patterns read literally *)

Lemma plain_eqb c x : plain c → In x metacharacters → (c =? x) = false.
Proof.
  intros Hc Hx. apply Z.eqb_neq. apply list_elem_of_In in Hx.
  by eapply Forall_forall in Hc.
Qed.

Ltac plain_rewrite Hc :=
  repeat match goal with
         | |- context [?c =? ch ?x] =>
             rewrite (plain_eqb c (ch x) Hc) by (vm_compute; auto 20)
         end.

Lemma class_environment_outside c st :
  character_class_environment st = false → class_environment c st = Ok (Next st).
Proof. unfold class_environment. by intros ->. Qed.

Lemma multiply_environment_outside c st :
  multiply_environment st = false → multiply_environment_step c st = Ok (Next st).
Proof. unfold multiply_environment_step. by intros ->. Qed.

Lemma step_plain c st :
  plain c →
  character_class_environment st = false → multiply_environment st = false →
  escaped st = false → lazymodifier st = false →
  step st c = concatenate c st.
Proof.
  intros Hc Hcce Hme Hesc Hlazy.
  unfold step. plain_rewrite Hc. cbn [andb].
  rewrite class_environment_outside by done. cbn [mbind result_bind].
  unfold class_brackets. plain_rewrite Hc. cbn [andb mbind result_bind].
  rewrite multiply_environment_outside by done. cbn [mbind result_bind].
  unfold multiply_brackets. plain_rewrite Hc. cbn [andb mbind result_bind].
  unfold normal_environment, currmatcher. rewrite Hcce, Hme, Hesc, Hlazy.
  plain_rewrite Hc. cbn [negb andb orb assert mbind result_bind].
  reflexivity.
Qed.

Lemma step_backslash st :
  escaped st = false →
  step st (ch "\") = Ok (set_escaped true (set_lazymodifier false st)).
Proof. unfold step. by intros ->. Qed.

Lemma step_escaped c st :
  character_class_environment st = false → multiply_environment st = false →
  escaped st = true → lazymodifier st = false →
  step st c = concatenate c st.
Proof.
  intros Hcce Hme Hesc Hlazy.
  unfold step. rewrite Hesc, andb_false_r.
  rewrite class_environment_outside by done. cbn [mbind result_bind].
  unfold class_brackets. rewrite Hesc, !andb_false_r. cbn [mbind result_bind].
  rewrite multiply_environment_outside by done. cbn [mbind result_bind].
  unfold multiply_brackets. rewrite Hesc, !andb_false_r. cbn [mbind result_bind].
  unfold normal_environment, currmatcher. rewrite Hcce, Hme, Hesc, Hlazy.
  cbn [negb andb orb assert mbind result_bind]. rewrite !andb_false_r.
  reflexivity.
Qed.

Lemma concatenate_literal c s st :
  ast_root st = literal s →
  activenode st = activenode (literal_parser s) →
  concatenate c st
  = Ok (set_escaped false (set_lazymodifier false
          (set_activenode (activenode (literal_parser (s ++ [c])))
             (set_ast_root (literal (s ++ [c])) st)))).
Proof.
  intros Hroot Hactive. destruct st. simpl in Hroot, Hactive. subst.
  unfold concatenate, top, top_node, set_top, top.
  destruct s as [|c0 [|c1 s]].
  - reflexivity.
  - reflexivity.
  - simpl.
    rewrite (list_lookup_middle _ [] _ (List.length (map _ s))) by done.
    simpl. rewrite length_map, length_app, map_app, Nat.add_1_r. reflexivity.
Qed.

Lemma literal_parser_fields s :
  ast_root (literal_parser s) = literal s
  ∧ character_class_environment (literal_parser s) = false
  ∧ multiply_environment (literal_parser s) = false
  ∧ escaped (literal_parser s) = false
  ∧ lazymodifier (literal_parser s) = false
  ∧ balanced_brackets (literal_parser s) = 0.
Proof. done. Qed.

(** A plain character is appended to the literal read so far... *)
Lemma step_literal_plain s c :
  plain c → step (literal_parser s) c = Ok (literal_parser (s ++ [c])).
Proof.
  intros Hc. rewrite step_plain by done.
  rewrite (concatenate_literal c s) by done. reflexivity.
Qed.

(** ...and so is any character after a backslash. *)
Lemma step_literal_escaped s c :
  (st ← step (literal_parser s) (ch "\"); step st c) = Ok (literal_parser (s ++ [c])).
Proof.
  rewrite step_backslash by done. cbn [mbind result_bind].
  rewrite step_escaped by done.
  rewrite (concatenate_literal c s) by done. reflexivity.
Qed.

Lemma parse_loop_Err regex e :
  foldl (fun acc c => st ← acc; step st c) (Err e) regex = Err e.
Proof. induction regex as [|c regex IH]; [done|]. apply IH. Qed.

Lemma parse_loop_cons c regex st :
  parse_loop (c :: regex) st = (st ← step st c; parse_loop regex st).
Proof.
  unfold parse_loop. cbn [foldl mbind result_bind].
  destruct (step st c) as [st1|e]; [done|]. apply parse_loop_Err.
Qed.

Lemma parse_loop_app regex1 regex2 : ∀ st,
  parse_loop (regex1 ++ regex2) st = (st ← parse_loop regex1 st; parse_loop regex2 st).
Proof.
  induction regex1 as [|c regex1 IH]; intros st; [done|].
  rewrite <- app_comm_cons, !parse_loop_cons.
  destruct (step st c) as [st1|e]; [apply IH|done].
Qed.

Lemma parse_loop_plain regex : ∀ s,
  Forall plain regex →
  parse_loop regex (literal_parser s) = Ok (literal_parser (s ++ regex)).
Proof.
  induction regex as [|c regex IH]; intros s Hall.
  - by rewrite app_nil_r.
  - apply Forall_cons in Hall as [Hc Hall].
    rewrite parse_loop_cons, step_literal_plain by done. cbn [mbind result_bind].
    rewrite IH by done. by rewrite <- app_assoc.
Qed.

Lemma parse_loop_escape regex : ∀ s,
  parse_loop (escape regex) (literal_parser s) = Ok (literal_parser (s ++ regex)).
Proof.
  induction regex as [|c regex IH]; intros s.
  - by rewrite app_nil_r.
  - change (escape (c :: regex)) with (ch "\" :: c :: escape regex).
    rewrite parse_loop_cons.
    pose proof (step_literal_escaped s c) as Hstep.
    destruct (step (literal_parser s) (ch "\")) as [st1|e]; [|done].
    cbn [mbind result_bind] in *. rewrite parse_loop_cons, Hstep.
    cbn [mbind result_bind]. rewrite IH. by rewrite <- app_assoc.
Qed.

Lemma literal_normal s : everywhere normal_node (literal s) = true.
Proof.
  destruct s as [|c0 [|c1 s]]; try done.
  unfold literal. rewrite everywhere_eq. apply andb_true_iff. split.
  - unfold normal_node, flat, multiplied. rewrite !andb_true_iff. repeat split.
    apply forallb_forall. intros x (c & <- & _)%in_map_iff. done.
  - apply forallb_forall. intros x (c & <- & _)%in_map_iff. done.
Qed.

Lemma anchors_body regex :
  (anchors regex).2
  = let rest := if (anchors regex).1.1 then tail regex else regex in
    if (anchors regex).1.2 then removelast rest else rest.
Proof.
  destruct regex as [|first regex]; [done|]. unfold anchors.
  cbn [fst snd]. by repeat case_match.
Qed.

Lemma elem_of_removelast {A} (x : A) l : x ∈ removelast l → x ∈ l.
Proof.
  induction l as [|y [|z l] IH]; simpl; [done|by intros ?%elem_of_nil|].
  intros [->|Hx]%elem_of_cons; [left|right; by apply IH].
Qed.

Lemma Forall_anchors_body (P : char → Prop) regex :
  Forall P regex → Forall P (anchors regex).2.
Proof.
  rewrite anchors_body, !Forall_forall. intros Hall x Hx. apply Hall.
  cbn zeta in Hx.
  destruct (anchors regex).1.2; [apply elem_of_removelast in Hx|];
    destruct (anchors regex).1.1; try done;
    destruct regex; simpl in *; try done; by right.
Qed.

Lemma buildAST_literal regex optimize_ s :
  parse_loop (anchors regex).2 initial_parser = Ok (literal_parser s) →
  buildAST regex optimize_
  = Ok {| root := literal s;
          anchorBegin := (anchors regex).1.1; anchorEnd := (anchors regex).1.2 |}.
Proof.
  unfold buildAST. destruct (anchors regex) as [[anchorbegin anchorend] body]. simpl.
  intros ->. cbn [mbind result_bind].
  change (balanced_brackets (literal_parser s)) with 0.
  change (character_class_environment (literal_parser s)) with false.
  change (multiply_environment (literal_parser s)) with false.
  change (ast_root (literal_parser s)) with (literal s).
  cbn [Z.eqb negb]. destruct optimize_; [|done].
  by rewrite (optimizeAST_normal_fixed _ (literal_normal s)).
Qed.

(** X15.  A pattern without metacharacters is read as the concatenation of
    its characters, the anchors apart: a [^] that is not the first character
    and a [$] that is not the last one stand for themselves. *)
Theorem buildAST_plain regex optimize_ :
  Forall plain regex →
  buildAST regex optimize_
  = Ok {| root := literal (anchors regex).2;
          anchorBegin := (anchors regex).1.1; anchorEnd := (anchors regex).1.2 |}.
Proof.
  intros Hall. apply buildAST_literal.
  apply (parse_loop_plain _ []). by apply Forall_anchors_body.
Qed.

Lemma buildAST_plain_witness :
  buildAST (chars_of_string "^a^$b$") true
  = Ok {| root := literal (chars_of_string "a^$b");
          anchorBegin := true; anchorEnd := true |}.
Proof.
  apply (buildAST_plain (chars_of_string "^a^$b$") true).
  repeat constructor; discriminate.
Defined.

Lemma last_escape s : last (escape s) = last s.
Proof.
  induction s as [|c [|c' s] IH]; [done|done|].
  change (escape (c :: c' :: s)) with (ch "\" :: c :: escape (c' :: s)).
  change (escape (c' :: s)) with (ch "\" :: c' :: escape s) in *.
  simpl in *. exact IH.
Qed.

(** X16.  With a backslash before each character a pattern is read as the
    concatenation of its characters, whatever they are, provided the last
    one is not [$]. *)
Theorem buildAST_escape s optimize_ :
  last s ≠ Some (ch "$") →
  buildAST (escape s) optimize_
  = Ok {| root := literal s; anchorBegin := false; anchorEnd := false |}.
Proof.
  intros Hlast.
  assert (Hanchors : anchors (escape s) = (false, false, escape s)).
  { destruct s as [|c s]; [done|].
    change (escape (c :: s)) with (ch "\" :: c :: escape s) in *.
    unfold anchors. rewrite <- last_escape in Hlast.
    change (escape (c :: s)) with (ch "\" :: c :: escape s) in *.
    destruct (last (ch "\" :: c :: escape s)) as [x|] eqn:Hx; [|done].
    assert ((x =? ch "$") = false) as Hf by (apply Z.eqb_neq; congruence).
    unfold default, id. cbn [from_option]. rewrite Hf. reflexivity. }
  rewrite (buildAST_literal _ _ s); rewrite Hanchors; [done|].
  apply (parse_loop_escape s []).
Qed.

Lemma buildAST_escape_witness :
  buildAST (chars_of_string "\(\*\a") false
  = Ok {| root := literal (chars_of_string "(*a");
          anchorBegin := false; anchorEnd := false |}.
Proof.
  apply (buildAST_escape (chars_of_string "(*a") false). vm_compute. discriminate.
Defined.

(** X17.  A closing bracket that no bracket opened is refused, whatever
    comes after it. *)
Theorem buildAST_unbalanced_close s c rest optimize_ :
  Forall plain s → c = ch ")" ∨ c = ch ">" →
  buildAST (s ++ c :: rest) optimize_ = Err (unbalanced_brackets "unbalanced brackets").
Proof.
  intros Hs Hc.
  assert (Hbody : ∃ s' rest', (anchors (s ++ c :: rest)).2 = s' ++ c :: rest' ∧ Forall plain s').
  { rewrite anchors_body. cbn zeta.
    assert (∃ s', (if (anchors (s ++ c :: rest)).1.1
                   then tail (s ++ c :: rest) else s ++ c :: rest)
                  = s' ++ c :: rest ∧ Forall plain s') as (s' & -> & Hs').
    { destruct s as [|c0 s].
      - exists []. split; [|done]. by destruct Hc as [-> | ->].
      - destruct (anchors ((c0 :: s) ++ c :: rest)).1.1.
        + exists s. split; [done|]. by apply Forall_cons in Hs as [_ ?].
        + by exists (c0 :: s). }
    destruct (anchors (s ++ c :: rest)).1.2 eqn:Hend; [|by exists s', rest].
    destruct rest as [|r rest _] using rev_ind.
    - exfalso. destruct s as [|c0 s].
      + by destruct Hc as [-> | ->].
      + simpl in Hend. rewrite last_cons, last_snoc in Hend. by destruct Hc as [-> | ->].
    - exists s', rest. split; [|done].
      replace (s' ++ c :: rest ++ [r]) with ((s' ++ c :: rest) ++ [r])
        by by rewrite <- app_assoc.
      by rewrite removelast_last. }
  destruct Hbody as (s' & rest' & Hbody & Hs').
  unfold buildAST. destruct (anchors (s ++ c :: rest)) as [[anchorbegin anchorend] body].
  simpl in Hbody. subst body.
  change initial_parser with (literal_parser []).
  rewrite parse_loop_app, (parse_loop_plain s' []) by done. cbn [mbind result_bind app].
  rewrite parse_loop_cons.
  assert (step (literal_parser s') c = Err (unbalanced_brackets "unbalanced brackets")) as ->;
    [|done].
  destruct Hc as [-> | ->]; reflexivity.
Qed.

Lemma buildAST_unbalanced_close_witness :
  buildAST (chars_of_string "ab)c(") true = Err (unbalanced_brackets "unbalanced brackets").
Proof.
  apply (buildAST_unbalanced_close (chars_of_string "ab") (ch ")") (chars_of_string "c(") true).
  - repeat constructor; discriminate.
  - by left.
Defined.

(** ** The executors and the runs of the automaton *)

Lemma check_transitions_in_range nfa : check nfa = true → transitions_in_range nfa.
Proof.
  unfold check. rewrite forallb_forall. intros Hcheck i st matcher t info Hi Htr.
  specialize (Hcheck (i, st)). cbv beta iota in Hcheck.
  rewrite andb_true_iff, !forallb_forall in Hcheck.
  destruct Hcheck as [Hfw _].
  { apply list_elem_of_In, elem_of_lookup_imap. by exists i, st. }
  specialize (Hfw (matcher, t, info)). cbv beta iota in Hfw.
  rewrite !andb_true_iff in Hfw.
  destruct Hfw as [[[Ht Hm] _] _]; [by apply list_elem_of_In|].
  apply Nat.ltb_lt in Ht, Hm. done.
Qed.

Lemma elem_of_rev {A} (x : A) l : x ∈ rev l ↔ x ∈ l.
Proof. rewrite !list_elem_of_In. symmetry. apply in_rev. Qed.

Lemma is_EpsilonMatcher_true m : is_EpsilonMatcher m = true ↔ m = EpsilonMatcher.
Proof. by destruct m. Qed.

(** ** Runs *)

Lemma run_epsilon_steps nfa i t w :
  rtc (epsilon_step nfa) i t → run nfa t w → run nfa i w.
Proof.
  induction 1 as [|i x t (st & matcher & info & Hi & Htr & Hm) _ IH]; [done|].
  intros Hrun. eapply run_epsilon; [done..|]. by apply IH.
Qed.

Lemma run_nil nfa i :
  run nfa i [] ↔ ∃ t st, rtc (epsilon_step nfa) i t
                          ∧ states nfa !! t = Some st ∧ finalState st = true.
Proof.
  split.
  - remember [] as w eqn:Hw. induction 1 as [i st Hi Hf|i st matcher t info w Hi Htr Hm _ IH|];
      [|subst w|done].
    + by exists i, st.
    + destruct (IH eq_refl) as (t' & st' & Hrtc & Ht' & Hf).
      exists t', st'. split; [|done]. eapply rtc_l; [|done]. by exists st, matcher, info.
  - intros (t & st & Hrtc & Ht & Hf). eapply run_epsilon_steps; [done|].
    by eapply run_final.
Qed.

Lemma run_cons nfa i c w :
  run nfa i (c :: w)
  ↔ ∃ x y, rtc (epsilon_step nfa) i x ∧ character_step nfa c x y ∧ run nfa y w.
Proof.
  split.
  - remember (c :: w) as cw eqn:Hcw.
    induction 1 as [|i st matcher t info w' Hi Htr Hm _ IH
                    |i st matcher t info m c' w' Hi Htr Hm Hlen Hmatch Hrun _]; [done|subst|].
    + destruct (IH eq_refl) as (x & y & Hrtc & Hstep & Hrun).
      exists x, y. split; [|done]. eapply rtc_l; [|done]. by exists st, matcher, info.
    + injection Hcw as -> ->. exists i, t. split; [done|]. split; [|done].
      by exists st, matcher, info, m.
  - intros (x & y & Hrtc & (st & matcher & info & m & Hx & Htr & Hm & Hlen & Hmatch) & Hrun).
    eapply run_epsilon_steps; [done|]. by eapply run_character.
Qed.

(** ** [epsilonClosure] *)

Section powerset_spec.
Variable nfa : NFA.
Hypothesis Hrange : transitions_in_range nfa.

Lemma closure_transitions_spec state st trans : ∀ stateStack inputStates,
  states nfa !! state = Some st →
  (∀ tr, tr ∈ trans → tr ∈ transitions st) →
  ∃ stateStack' inputStates',
    closure_transitions nfa trans stateStack inputStates = Ok (stateStack', inputStates')
    ∧ (∀ y, y ∈ inputStates'
            ↔ y ∈ inputStates
              ∨ ∃ matcher info, (matcher, y, info) ∈ trans
                                ∧ matchers nfa !! matcher = Some EpsilonMatcher)
    ∧ (∀ y, y ∈ stateStack' ↔ y ∈ stateStack ∨ (y ∈ inputStates' ∧ y ∉ inputStates))
    ∧ (List.length stateStack' + unreached nfa inputStates'
       ≤ List.length stateStack + unreached nfa inputStates)%nat.
Proof.
  intros stateStack inputStates Hst. revert stateStack inputStates.
  induction trans as [|[[matcher nextState] info] trans IH];
    intros stateStack inputStates Hsub; simpl.
  { exists stateStack, inputStates. split; [done|]. split; [|split; [|done]].
    - intros y. split; [by left|]. intros [?|(? & ? & []%elem_of_nil & _)]. done.
    - intros y. split; [by left|]. intros [?|[? ?]]; done. }
  assert (Hsub' : ∀ tr, tr ∈ trans → tr ∈ transitions st).
  { intros tr Htr. apply Hsub. by right. }
  destruct (Hrange state st matcher nextState info Hst) as [Ht Hm]; [apply Hsub; by left|].
  apply lookup_lt_is_Some in Hm as [m Hm]. rewrite Hm. simpl.
  destruct (is_EpsilonMatcher m) eqn:Heps; simpl.
  - apply is_EpsilonMatcher_true in Heps as ->.
    destruct (set_find nextState inputStates) eqn:Hfind; simpl.
    + apply set_find_elem in Hfind.
      destruct (IH stateStack inputStates Hsub') as (stack' & set' & -> & Hset & Hstack & Hlen).
      exists stack', set'. split; [done|]. split; [|done].
      intros y. rewrite Hset. split.
      * intros [?|(matcher' & info' & Hin & Hm')]; [by left|].
        right. exists matcher', info'. split; [by right|done].
      * intros [?|(matcher' & info' & Hin & Hm')]; [by left|].
        apply elem_of_cons in Hin as [[= -> -> ->]|Hin]; [by left|].
        right. by exists matcher', info'.
    + assert (Hnin : nextState ∉ inputStates).
      { intros Hin%set_find_elem. congruence. }
      destruct (IH (nextState :: stateStack) (set_emplace nextState inputStates) Hsub')
        as (stack' & set' & -> & Hset & Hstack & Hlen).
      exists stack', set'. split; [done|]. split; [|split].
      * intros y. rewrite Hset, elem_of_set_emplace. split.
        -- intros [[->|?]|(matcher' & info' & Hin & Hm')].
           ++ right. exists matcher, info. split; [by left|done].
           ++ by left.
           ++ right. exists matcher', info'. split; [by right|done].
        -- intros [?|(matcher' & info' & Hin & Hm')]; [left; by right|].
           apply elem_of_cons in Hin as [[= -> -> ->]|Hin]; [left; by left|].
           right. by exists matcher', info'.
      * intros y. rewrite Hstack, elem_of_cons, elem_of_set_emplace. split.
        -- intros [[->|?]|[Hy Hny]].
           ++ right. split; [|done]. apply Hset, or_introl, elem_of_set_emplace. by left.
           ++ by left.
           ++ right. split; [done|]. intros Hy'. apply Hny. by right.
        -- intros [?|[Hy Hny]]; [left; by right|].
           destruct (decide (y = nextState)) as [->|Hne]; [left; by left|].
           right. split; [done|]. intros [?|?]; done.
      * pose proof (unreached_emplace nfa nextState inputStates Ht Hnin). simpl in Hlen. lia.
  - destruct (IH stateStack inputStates Hsub') as (stack' & set' & -> & Hset & Hstack & Hlen).
    exists stack', set'. split; [done|]. split; [|done].
    intros y. rewrite Hset. split.
    + intros [?|(matcher' & info' & Hin & Hm')]; [by left|].
      right. exists matcher', info'. split; [by right|done].
    + intros [?|(matcher' & info' & Hin & Hm')]; [by left|].
      apply elem_of_cons in Hin as [[= -> -> ->]|Hin].
      * rewrite Hm in Hm'. injection Hm' as ->. done.
      * right. by exists matcher', info'.
Qed.

Lemma closure_loop_spec input fuel : ∀ stateStack inputStates,
  closure_invariant nfa input stateStack inputStates →
  (List.length stateStack + unreached nfa inputStates ≤ fuel)%nat →
  ∃ inputStates',
    closure_loop nfa fuel stateStack inputStates = Ok inputStates'
    ∧ closure_invariant nfa input [] inputStates'.
Proof.
  induction fuel as [|fuel IH]; intros [|currentState stateStack] inputStates Hinv Hfuel;
    simpl in *; try lia; try (by exists inputStates).
  destruct Hinv as (Hstack & Hinput & Hreach & Hclosed & Hin).
  assert (Hcur : currentState ∈ inputStates) by (apply Hstack; by left).
  destruct (lookup_lt_is_Some_2 (states nfa) currentState (Hin _ Hcur)) as [st Hst].
  rewrite Hst. simpl.
  destruct (closure_transitions_spec currentState st (transitions st) stateStack inputStates
              Hst (λ tr H, H)) as (stack' & set' & -> & Hset & Hstack' & Hlen).
  simpl. apply IH; [|lia].
  split; [|split; [|split; [|split]]].
  - intros x [Hx|[Hx _]]%Hstack'; [|done]. apply Hset. left. apply Hstack. by right.
  - intros x Hx. apply Hset. left. by apply Hinput.
  - intros x [Hx|(matcher & info & Htr & Hm)]%Hset; [by apply Hreach|].
    destruct (Hreach _ Hcur) as (s & Hs & Hrtc). exists s. split; [done|].
    eapply rtc_r; [done|]. by exists st, matcher, info.
  - intros x y Hx Hnstack Hstep.
    destruct (decide (x = currentState)) as [->|Hne].
    + destruct Hstep as (st' & matcher & info & Hst' & Htr & Hm).
      rewrite Hst in Hst'. injection Hst' as <-.
      apply Hset. right. by exists matcher, info.
    + apply Hset in Hx as Hx'. destruct Hx' as [Hx'|Hnew].
      * apply Hset. left. apply (Hclosed x y Hx'); [|done].
        intros [?|Hxs]%elem_of_cons; [done|]. apply Hnstack, Hstack'. by left.
      * destruct (decide (x ∈ inputStates)) as [Hold|Hnold].
        -- apply Hset. left. apply (Hclosed x y Hold); [|done].
           intros [?|Hxs]%elem_of_cons; [done|]. apply Hnstack, Hstack'. by left.
        -- exfalso. apply Hnstack, Hstack'. right. done.
  - intros x [Hx|(matcher & info & Htr & Hm)]%Hset; [by apply Hin|].
    by destruct (Hrange currentState st matcher x info Hst Htr).
Qed.

Lemma epsilonClosure_spec inputStates :
  in_range nfa inputStates →
  ∃ closure,
    epsilonClosure nfa inputStates = Ok closure
    ∧ in_range nfa closure
    ∧ ∀ x, x ∈ closure ↔ ∃ s, s ∈ inputStates ∧ rtc (epsilon_step nfa) s x.
Proof.
  intros Hin. unfold epsilonClosure.
  destruct (closure_loop_spec inputStates
              (List.length inputStates + List.length (states nfa))
              (rev inputStates) inputStates) as (closure & -> & Hinv).
  - split; [|split; [|split; [|split]]]; try done.
    + intros x Hx. by apply (proj1 (elem_of_rev x inputStates)).
    + intros x Hx. by exists x.
    + intros x y Hx Hnx. exfalso. by apply Hnx, (proj2 (elem_of_rev x inputStates)).
  - rewrite length_rev.
    assert (unreached nfa inputStates ≤ List.length (states nfa))%nat; [|lia].
    unfold unreached. etrans; [apply length_filter|]. by rewrite length_seq.
  - destruct Hinv as (_ & Hinput & Hreach & Hclosed & Hrange').
    exists closure. split; [done|]. split; [done|]. intros x. split; [apply Hreach|].
    intros (s & Hs & Hrtc). apply Hinput in Hs.
    induction Hrtc as [|a b c Hstep _ IHr]; [done|].
    apply IHr. eapply Hclosed; [exact Hs| |done]. by intros ?%elem_of_nil.
Qed.

(** ** The step on a character *)

Lemma advance_transitions_spec c state st trans : ∀ newStates,
  states nfa !! state = Some st →
  (∀ tr, tr ∈ trans → tr ∈ transitions st) →
  ∃ newStates',
    advance_transitions nfa c trans newStates = Ok newStates'
    ∧ ∀ y, y ∈ newStates'
           ↔ y ∈ newStates
             ∨ ∃ matcher info m, (matcher, y, info) ∈ trans
                                 ∧ matchers nfa !! matcher = Some m
                                 ∧ length_ m = 1%nat ∧ match_ 0 m [c] = true.
Proof.
  intros newStates Hst. revert newStates.
  induction trans as [|[[matcher nextState] info] trans IH]; intros newStates Hsub; simpl.
  { exists newStates. split; [done|]. intros y. split; [by left|].
    intros [?|(? & ? & ? & []%elem_of_nil & _)]. done. }
  assert (Hsub' : ∀ tr, tr ∈ trans → tr ∈ transitions st).
  { intros tr Htr. apply Hsub. by right. }
  destruct (Hrange state st matcher nextState info Hst) as [Ht Hm]; [apply Hsub; by left|].
  apply lookup_lt_is_Some in Hm as [m Hm]. rewrite Hm. simpl.
  assert ((length_ m <=? 1)%nat = true) as -> by by destruct m. simpl.
  destruct (Nat.eqb (length_ m) 1 && match_ 0 m [c]) eqn:Htake.
  - apply andb_true_iff in Htake as [Hlen%Nat.eqb_eq Hmatch].
    destruct (IH (set_emplace nextState newStates) Hsub') as (new' & -> & Hnew).
    exists new'. split; [done|]. intros y. rewrite Hnew, elem_of_set_emplace. split.
    + intros [[->|?]|(matcher' & info' & m' & Hin & Hrest)].
      * right. exists matcher, info, m. split; [by left|done].
      * by left.
      * right. exists matcher', info', m'. split; [by right|done].
    + intros [?|(matcher' & info' & m' & Hin & Hrest)]; [left; by right|].
      apply elem_of_cons in Hin as [[= -> -> ->]|Hin]; [left; by left|].
      right. by exists matcher', info', m'.
  - destruct (IH newStates Hsub') as (new' & -> & Hnew).
    exists new'. split; [done|]. intros y. rewrite Hnew. split.
    + intros [?|(matcher' & info' & m' & Hin & Hrest)]; [by left|].
      right. exists matcher', info', m'. split; [by right|done].
    + intros [?|(matcher' & info' & m' & Hin & Hm' & Hlen & Hmatch)]; [by left|].
      apply elem_of_cons in Hin as [[= -> -> ->]|Hin].
      * rewrite Hm in Hm'. injection Hm' as ->.
        by rewrite Hlen, Hmatch in Htake.
      * right. by exists matcher', info', m'.
Qed.

Lemma advance_spec c currentStates : ∀ newStates,
  in_range nfa currentStates → in_range nfa newStates →
  ∃ newStates',
    advance nfa c currentStates newStates = Ok newStates'
    ∧ in_range nfa newStates'
    ∧ ∀ y, y ∈ newStates'
           ↔ y ∈ newStates ∨ ∃ x, x ∈ currentStates ∧ character_step nfa c x y.
Proof.
  induction currentStates as [|state currentStates IH]; intros newStates Hcur Hnew; simpl.
  { exists newStates. split; [done|]. split; [done|]. intros y. split; [by left|].
    intros [?|(? & []%elem_of_nil & _)]. done. }
  destruct (lookup_lt_is_Some_2 (states nfa) state) as [st Hst]; [apply Hcur; by left|].
  rewrite Hst. simpl.
  destruct (advance_transitions_spec c state st (transitions st) newStates Hst (λ tr H, H))
    as (new1 & -> & Hnew1).
  simpl. destruct (IH new1) as (new' & -> & Hrange' & Hnew').
  { intros x Hx. apply Hcur. by right. }
  { intros y [Hy|(matcher & info & m & Htr & _)]%Hnew1; [by apply Hnew|].
    by destruct (Hrange state st matcher y info Hst Htr). }
  exists new'. split; [done|]. split; [done|]. intros y. rewrite Hnew', Hnew1. split.
  - intros [[?|(matcher & info & m & Htr & Hm & Hlen & Hmatch)]|(x & Hx & Hstep)].
    + by left.
    + right. exists state. split; [by left|]. by exists st, matcher, info, m.
    + right. exists x. split; [by right|done].
  - intros [?|(x & Hx & Hstep)]; [left; by left|].
    apply elem_of_cons in Hx as [->|Hx]; [|right; by exists x].
    left. right. destruct Hstep as (st' & matcher & info & m & Hst' & Hrest).
    rewrite Hst in Hst'. injection Hst' as <-. by exists matcher, info, m.
Qed.

(** ** [consume] and the verdict *)

Lemma consume_spec str : ∀ currentStates,
  in_range nfa currentStates →
  ∃ currentStates',
    consume nfa str currentStates = Ok currentStates'
    ∧ in_range nfa currentStates'
    ∧ ((∃ s, s ∈ currentStates' ∧ run nfa s [])
       ↔ ∃ s, s ∈ currentStates ∧ run nfa s str).
Proof.
  induction str as [|c str IH]; intros currentStates Hcur; simpl.
  { by exists currentStates. }
  destruct (epsilonClosure_spec currentStates Hcur) as (closure & -> & Hcl & Hclosure).
  simpl. destruct (advance_spec c closure [] Hcl) as (new & -> & Hnew & Hadv).
  { by intros x ?%elem_of_nil. }
  simpl. destruct (IH new Hnew) as (cur' & -> & Hcur' & Hrun).
  exists cur'. split; [done|]. split; [done|]. rewrite Hrun. split.
  - intros (y & [[]%elem_of_nil|(x & Hx & Hstep)]%Hadv & Hy).
    apply Hclosure in Hx as (s & Hs & Hrtc).
    exists s. split; [done|]. apply run_cons. by exists x, y.
  - intros (s & Hs & (x & y & Hrtc & Hstep & Hy)%run_cons).
    exists y. split; [|done]. apply Hadv. right. exists x. split; [|done].
    apply Hclosure. by exists s.
Qed.

Lemma any_final_spec currentStates :
  in_range nfa currentStates →
  ∃ b, any_final nfa currentStates = Ok b
       ∧ (b = true ↔ ∃ x st, x ∈ currentStates ∧ states nfa !! x = Some st
                              ∧ finalState st = true).
Proof.
  induction currentStates as [|state currentStates IH]; intros Hcur; simpl.
  { exists false. split; [done|]. split; [done|]. intros (? & ? & []%elem_of_nil & _). }
  destruct (lookup_lt_is_Some_2 (states nfa) state) as [st Hst]; [apply Hcur; by left|].
  rewrite Hst. simpl. destruct (finalState st) eqn:Hf.
  - exists true. split; [done|]. split; [|done]. intros _. exists state, st.
    split; [by left|done].
  - destruct IH as (b & -> & Hb). { intros x Hx. apply Hcur. by right. }
    exists b. split; [done|]. rewrite Hb. split.
    + intros (x & st' & Hx & Hrest). exists x, st'. split; [by right|done].
    + intros (x & st' & [->|Hx]%elem_of_cons & Hst' & Hf'); [congruence|].
      by exists x, st'.
Qed.

Lemma initial_states_spec l : ∀ acc x,
  x ∈ foldl (fun acc '(stateId, state) =>
               if initialState state then set_emplace stateId acc else acc) acc l
  ↔ x ∈ acc ∨ ∃ state, (x, state) ∈ l ∧ initialState state = true.
Proof.
  induction l as [|[i st] l IH]; intros acc x; simpl.
  { split; [by left|]. intros [?|(? & []%elem_of_nil & _)]. done. }
  rewrite IH. destruct (initialState st) eqn:Hinit.
  - rewrite elem_of_set_emplace. split.
    + intros [[->|?]|(state & Hin & Hs)].
      * right. exists st. split; [by left|done].
      * by left.
      * right. exists state. split; [by right|done].
    + intros [?|(state & [[= -> ->]|Hin]%elem_of_cons & Hs)].
      * left. by right.
      * left. by left.
      * right. by exists state.
  - split.
    + intros [?|(state & Hin & Hs)]; [by left|]. right. exists state. split; [by right|done].
    + intros [?|(state & [[= -> ->]|Hin]%elem_of_cons & Hs)]; [by left|congruence|].
      right. by exists state.
Qed.

Lemma powerset_spec str :
  ∃ b, powerset nfa str = Ok b ∧ (b = true ↔ accepts nfa str).
Proof.
  unfold powerset.
  set (initial := foldl _ [] _).
  assert (Hinitial : ∀ x, x ∈ initial ↔ ∃ st, states nfa !! x = Some st
                                              ∧ initialState st = true).
  { intros x. subst initial. rewrite initial_states_spec. split.
    - intros [[]%elem_of_nil|(st & (i & st' & [= -> ->] & Hi)%elem_of_lookup_imap & Hinit)].
      by exists st'.
    - intros (st & Hst & Hinit). right. exists st. split; [|done].
      apply elem_of_lookup_imap. by exists x, st. }
  destruct (consume_spec str initial) as (cur & -> & Hcur & Hrun).
  { intros x (st & Hst & _)%Hinitial. by eapply lookup_lt_Some. }
  simpl. destruct (epsilonClosure_spec cur Hcur) as (closure & -> & Hcl & Hclosure).
  simpl. destruct (any_final_spec closure Hcl) as (b & -> & Hb).
  exists b. split; [done|]. rewrite Hb. split.
  - intros (x & st & (s & Hs & Hrtc)%Hclosure & Hst & Hf).
    destruct (proj1 Hrun) as (s0 & Hs0 & Hrun0).
    { exists s. split; [done|]. apply run_nil. by exists x, st. }
    apply Hinitial in Hs0 as (st0 & Hst0 & Hinit). by exists s0, st0.
  - intros (i & st & Hst & Hinit & Hrun0).
    destruct (proj2 Hrun) as (s & Hs & (t & st' & Hrtc & Ht & Hf)%run_nil).
    { exists i. split; [|done]. apply Hinitial. by exists st. }
    exists t, st'. split; [|done]. apply Hclosure. by exists s.
Qed.
End powerset_spec.

(** ** The backtracking executor finds runs *)

Lemma match__head eos m c str :
  length_ m = 1%nat → match_ eos m (c :: str) = match_ 0 m [c].
Proof. by destruct m. Qed.

Section simulate_runs.
Variable nfa : NFA.
Variable eos : char.
Variable str : list char.

Lemma explore_loop_run explore offset i st trans :
  (∀ state off s s', explore state off s = Ok (true, s') → run nfa state (drop off str)) →
  states nfa !! i = Some st →
  (∀ tr, tr ∈ trans → tr ∈ transitions st) →
  ∀ s s', explore_loop nfa eos str explore offset trans s = Ok (true, s') →
          run nfa i (drop offset str).
Proof.
  intros Hexplore Hi.
  induction trans as [|[[matcher t] info] trans IH]; intros Hsub s s'; simpl; [done|].
  assert (Hsub' : ∀ tr, tr ∈ trans → tr ∈ transitions st).
  { intros tr Htr. apply Hsub. by right. }
  intros (m & Hm%deref_Ok & H)%bind_Ok.
  destruct (match_ eos m (drop offset str)) eqn:Hmatch; [|by eapply IH].
  apply bind_Ok in H as (captures & _ & H).
  destruct (_ <? _)%nat eqn:Hlen; [done|].
  apply Nat.ltb_ge in Hlen.
  destruct (explore _ _ _) as [[[] s1]|] eqn:Hex; [|by eapply IH|done].
  apply Hexplore in Hex.
  destruct (is_EpsilonMatcher m) eqn:Heps.
  - apply is_EpsilonMatcher_true in Heps as ->. simpl in Hex. rewrite Nat.add_0_r in Hex. eapply run_epsilon; [done| |done..].
    apply Hsub. by left.
  - assert (Hne : length_ m = 1%nat) by (by destruct m). rewrite Hne in *.
    destruct (drop offset str) as [|c rest] eqn:Hdrop; [simpl in Hlen; lia|].
    assert (drop (offset + 1) str = rest) as Hrest.
    { by rewrite <- drop_drop, Hdrop. }
    rewrite Hrest in Hex. rewrite match__head in Hmatch by done.
    eapply run_character; [done| |done..]. apply Hsub. by left.
Qed.

Lemma exploreTransitions_run fuel : ∀ state off s s',
  exploreTransitions nfa eos str fuel state off s = Ok (true, s') →
  run nfa state (drop off str).
Proof.
  induction fuel as [|fuel IH]; intros state off s s'; simpl; [done|].
  intros (st & Hst%deref_Ok & H)%bind_Ok.
  destruct (bool_decide (drop off str = [])) eqn:Hdrop; simpl in H.
  - apply bool_decide_eq_true in Hdrop. destruct (finalState st) eqn:Hf.
    + rewrite Hdrop. by eapply run_final.
    + destruct (bool_decide ((state, off) ∈ s.1)); [done|].
      by eapply (explore_loop_run _ off state st (transitions st) IH).
  - destruct (bool_decide ((state, off) ∈ s.1)); [done|].
    by eapply (explore_loop_run _ off state st (transitions st) IH).
Qed.

Lemma simulate_loop_run l : ∀ s captures,
  (∀ i st, (i, st) ∈ l → states nfa !! i = Some st) →
  simulate_loop nfa eos str l s = Ok captures → captures ≠ [] → accepts nfa str.
Proof.
  induction l as [|[i st] l IH]; intros s captures Hl; cbn [simulate_loop].
  { by intros [= <-]. }
  assert (Hl' : ∀ i st, (i, st) ∈ l → states nfa !! i = Some st).
  { intros i' st' Hin. apply Hl. by right. }
  destruct (initialState st) eqn:Hinit; [|by apply IH].
  destruct (exploreTransitions nfa eos str (simulate_fuel nfa str) i 0 s)
    as [[[] s1]|] eqn:Hex; [|by apply IH|done].
  intros _ _. apply exploreTransitions_run in Hex.
  exists i, st. split; [apply Hl; by left|]. by split.
Qed.

Lemma simulate_run captures :
  simulate nfa eos str = Ok captures → captures ≠ [] → accepts nfa str.
Proof.
  apply simulate_loop_run.
  intros i st (i' & st' & [= -> ->] & Hi)%elem_of_lookup_imap. done.
Qed.
End simulate_runs.

(** X18.  On an automaton the constructor returned, [NFA::powerset] returns
    without failing, and it returns [true] exactly when a run of the
    automaton from an initial state to a final state reads the input. *)
Theorem powerset_decides_acceptance regex optimize_ nfa w :
  compile regex optimize_ = Ok nfa →
  ∃ b, powerset nfa w = Ok b ∧ (b = true ↔ accepts nfa w).
Proof.
  unfold compile. intros (ast & _ & H)%bind_Ok.
  by eapply powerset_spec, check_transitions_in_range, ASTtoNFA_check.
Qed.

Lemma powerset_decides_acceptance_witness :
  ∃ nfa, compile (chars_of_string "a(b|c)*") true = Ok nfa
         ∧ ∃ b, powerset nfa (chars_of_string "abcb") = Ok b
                ∧ (b = true ↔ accepts nfa (chars_of_string "abcb")).
Proof.
  eexists. split.
  - vm_compute. reflexivity.
  - apply (powerset_decides_acceptance (chars_of_string "a(b|c)*") true).
    vm_compute. reflexivity.
Defined.

(** X19.  When [NFA::simulate] reports a match, a run of the automaton from
    an initial state to a final state reads the input. *)
Theorem simulate_sound nfa eos w captures :
  simulate nfa eos w = Ok captures → captures ≠ [] → accepts nfa w.
Proof. apply simulate_run. Qed.

Lemma simulate_sound_witness :
  accepts empty_pattern_nfa (chars_of_string "ab").
Proof.
  eapply (simulate_sound empty_pattern_nfa 0 (chars_of_string "ab")).
  - vm_compute. reflexivity.
  - discriminate.
Defined.

(** X20.  On an automaton the constructor returned, an input on which
    [NFA::simulate] reports a match is accepted by [NFA::powerset]. *)
Theorem simulate_match_powerset regex optimize_ nfa eos w captures :
  compile regex optimize_ = Ok nfa →
  simulate nfa eos w = Ok captures → captures ≠ [] →
  powerset nfa w = Ok true.
Proof.
  unfold compile. intros (ast & _ & H)%bind_Ok Hsim Hne.
  apply ASTtoNFA_check, check_transitions_in_range in H.
  destruct (powerset_spec nfa H w) as (b & -> & Hb).
  f_equal. apply Hb. by eapply simulate_run.
Qed.

Lemma simulate_match_powerset_witness :
  ∃ nfa captures,
    compile (chars_of_string "<a+>b") true = Ok nfa
    ∧ simulate nfa 0 (chars_of_string "xaab") = Ok captures
    ∧ powerset nfa (chars_of_string "xaab") = Ok true.
Proof.
  eexists _, _. split; [vm_compute; reflexivity|]. split; [vm_compute; reflexivity|].
  eapply (simulate_match_powerset (chars_of_string "<a+>b") true _ 0 (chars_of_string "xaab")).
  - vm_compute. reflexivity.
  - vm_compute. reflexivity.
  - discriminate.
Defined.
